(** * The parallel portfolio loop of the SMT core  (src/smt/smt_parallel.cpp)

    A shallow embedding of [smt::parallel::operator()].  The locals that the
    lambdas capture by reference become one record, [state].  The solver, the
    lookahead, the translation of expressions and models between managers
    and the statistics are collaborators of the loop: their operations enter
    as a type class ([Collaborators]), and what the solver does for one
    worker in one round enters as an [answer].

    Threads.  During a round a worker works on its own context; the workers
    meet at the claim of [finished_id], which [mux] serialises, and in the
    two [catch] handlers, which are taken here as indivisible steps.  A
    round is therefore given by the order in which its workers reach those
    places, a list of pairs of a worker index and an answer, and it is
    executed by folding [worker_thread] over that list.  The loop runs as
    long as the rounds leave [done] unset, so a call is run against a list
    of rounds, its schedule.

    Exceptions.  Of the calls inside the [try] block the lookahead and
    [check] are the ones taken to throw; the relay and the merge, which run
    outside of it, are taken to return.

    Parameters.  [smt::context] is declared outside these sources; it
    keeps the [smt_params] it is constructed with by reference, which
    [get_fparams()] returns, and line 53 builds every worker on
    [ctx.get_fparams()]: a call has one parameter object, read through
    [ctx] and through every [pctxs[i]].  Each context of the model shows
    that object in its field [m_fparams], so a write to it
    ([write_max_conflicts], line 112) is made in every context of the call.

    Numbers.  [unsigned] locals are integers with the wrap-around modulo
    2^32 written out ([u32]); sizes and indices of vectors are naturals. *)

From Stdlib Require Import ZArith Lia.
From stdpp Require Import base option list gmap strings sorting.

Local Open Scope Z_scope.

(** ** Plain data *)

Definition UINT_MAX : Z := 4294967295.

(** [unsigned] arithmetic wraps modulo 2^32. *)
Definition u32 (z : Z) : Z := z mod 2 ^ 32.

Inductive lbool := l_false | l_undef | l_true.

Inductive par_exception_kind := DEFAULT_EX | ERROR_EX.

(** An [ast_manager]: [primary] is [ctx.m], [worker i] is [*pms[i]]. *)
Inductive arena := primary | worker (i : nat).

Record literal := mk_literal { lit_var : nat; lit_sign : bool }.

(** What a collaborator may throw ([z3_error] is caught first, every other
    [z3_exception] second). *)
Inductive raised := z3_error (code : Z) | z3_exception (msg : string).

(** A call of a collaborator either returns or throws. *)
Inductive ret (A : Type) := Ok (a : A) | Throw (e : raised).
Arguments Ok {A} a.
Arguments Throw {A} e.

(** How [operator()] ends. *)
Inductive outcome :=
| returns (r : lbool)
| throws_z3_error (code : Z)
| throws_default_exception (msg : string).

#[global] Instance lbool_eq_dec : EqDecision lbool.
Proof. solve_decision. Defined.
#[global] Instance par_exception_kind_eq_dec : EqDecision par_exception_kind.
Proof. solve_decision. Defined.
#[global] Instance arena_eq_dec : EqDecision arena.
Proof. solve_decision. Defined.
#[global] Instance literal_eq_dec : EqDecision literal.
Proof. solve_decision. Defined.
#[global] Instance outcome_eq_dec : EqDecision outcome.
Proof. solve_decision. Defined.

(** ** Contexts *)

Record smt_params := {
  m_threads : Z;
  m_threads_max_conflicts : Z;
  m_random_seed : Z;
  m_max_conflicts : Z
}.

(** The part of [smt::context] that the loop reads or writes. *)
Record context {expr model statistics : Type} := {
  m_fparams : smt_params;
  m_random : Z;                         (* seed given to set_random_seed *)
  m_asserted_formulas : list expr;      (* arguments of assert_expr, in order *)
  m_assumptions : list expr;            (* assumptions of the last check *)
  m_num_conflicts : Z;
  m_unsat_core : list expr;
  m_model : option model;               (* None is the null model_ref *)
  m_assigned_literals : list literal;
  m_base_lim : nat;                     (* how many of them sit at base level *)
  m_bool_var2expr : nat → expr;
  m_aux_stats : statistics;
  m_cancel : bool                       (* m.limit().cancel() was called *)
}.
Arguments context : clear implicits.

(** What the solver does for one worker in one round: the literal that the
    lookahead picks (used in rounds after the first only) and the effect of
    [check] on the fields above. *)
Record answer {expr model : Type} := {
  lh_choose : ret (option expr);
  check_result : ret lbool;
  check_num_conflicts : Z;
  check_unsat_core : list expr;
  check_model : option model;
  check_assigned_literals : list literal;
  check_base_lim : nat;
  check_bool_var2expr : nat → expr
}.
Arguments answer : clear implicits.

(** The collaborators whose code is not part of the loop. *)
Class Collaborators (expr model statistics : Type) := {
  (* ast_translation tr(from, to); tr(e) *)
  translate : arena → arena → expr → expr;
  (* mdl->translate(tr) *)
  translate_model : arena → arena → model → model;
  (* ast_manager::mk_not *)
  m_mk_not : expr → expr;
  (* mk_not and mk_and of ast_util.h *)
  mk_not : expr → expr;
  mk_and : list expr → expr;
  (* context::copy(ctx, new_ctx) into the context allocated on *new_m *)
  copy : context expr model statistics → nat → context expr model statistics;
  (* c->collect_statistics(st) *)
  collect_statistics : context expr model statistics → statistics → statistics
}.

(** The locals of [operator()] that the lambdas capture, and [ctx] itself. *)
Record state {expr model statistics : Type} `{Countable expr} := {
  ctx : context expr model statistics;
  num_threads : nat;
  pctxs : list (context expr model statistics);
  pasms : list (list expr);
  result : lbool;
  finished_id : Z;
  ex_msg : string;
  ex_kind : par_exception_kind;
  error_code : Z;
  done : bool;
  num_rounds : Z;
  max_conflicts : Z;
  unit_set : gset expr;
  unit_trail : list expr;
  unit_lim : list nat;
  (* observation only: the trail facts read at line 96 for each worker *)
  relayed : list (list expr)
}.
Arguments state expr model statistics {_ _}.

Section Parallel.
Context {expr model statistics : Type} `{Countable expr}.
Context `{!Collaborators expr model statistics}.

Local Abbreviation context := (context expr model statistics).
Local Abbreviation answer := (answer expr model).
Local Abbreviation state := (state expr model statistics).

(** ** Operations on one context *)

(** The context built on the parameters [p]: the second argument of the
    constructor at line 53, which the context keeps by reference. *)
Definition set_fparams (p : smt_params) (c : context) : context :=
  {| m_fparams := p;
     m_random := m_random c;
     m_asserted_formulas := m_asserted_formulas c;
     m_assumptions := m_assumptions c;
     m_num_conflicts := m_num_conflicts c;
     m_unsat_core := m_unsat_core c;
     m_model := m_model c;
     m_assigned_literals := m_assigned_literals c;
     m_base_lim := m_base_lim c;
     m_bool_var2expr := m_bool_var2expr c;
     m_aux_stats := m_aux_stats c;
     m_cancel := m_cancel c |}.

(** [m_max_conflicts = n] in the parameters, as one context shows them. *)
Definition set_max_conflicts (n : Z) (c : context) : context :=
  {| m_fparams := {| m_threads := m_threads (m_fparams c);
                     m_threads_max_conflicts := m_threads_max_conflicts (m_fparams c);
                     m_random_seed := m_random_seed (m_fparams c);
                     m_max_conflicts := n |};
     m_random := m_random c;
     m_asserted_formulas := m_asserted_formulas c;
     m_assumptions := m_assumptions c;
     m_num_conflicts := m_num_conflicts c;
     m_unsat_core := m_unsat_core c;
     m_model := m_model c;
     m_assigned_literals := m_assigned_literals c;
     m_base_lim := m_base_lim c;
     m_bool_var2expr := m_bool_var2expr c;
     m_aux_stats := m_aux_stats c;
     m_cancel := m_cancel c |}.

(** [ctx.m_fparams.m_threads = n], as the [flet] of line 41 does on entry
    and on exit. *)
Definition set_threads (n : Z) (c : context) : context :=
  {| m_fparams := {| m_threads := n;
                     m_threads_max_conflicts := m_threads_max_conflicts (m_fparams c);
                     m_random_seed := m_random_seed (m_fparams c);
                     m_max_conflicts := m_max_conflicts (m_fparams c) |};
     m_random := m_random c;
     m_asserted_formulas := m_asserted_formulas c;
     m_assumptions := m_assumptions c;
     m_num_conflicts := m_num_conflicts c;
     m_unsat_core := m_unsat_core c;
     m_model := m_model c;
     m_assigned_literals := m_assigned_literals c;
     m_base_lim := m_base_lim c;
     m_bool_var2expr := m_bool_var2expr c;
     m_aux_stats := m_aux_stats c;
     m_cancel := m_cancel c |}.

Definition set_random_seed (seed : Z) (c : context) : context :=
  {| m_fparams := m_fparams c;
     m_random := seed;
     m_asserted_formulas := m_asserted_formulas c;
     m_assumptions := m_assumptions c;
     m_num_conflicts := m_num_conflicts c;
     m_unsat_core := m_unsat_core c;
     m_model := m_model c;
     m_assigned_literals := m_assigned_literals c;
     m_base_lim := m_base_lim c;
     m_bool_var2expr := m_bool_var2expr c;
     m_aux_stats := m_aux_stats c;
     m_cancel := m_cancel c |}.

Definition assert_expr (e : expr) (c : context) : context :=
  {| m_fparams := m_fparams c;
     m_random := m_random c;
     m_asserted_formulas := m_asserted_formulas c ++ [e];
     m_assumptions := m_assumptions c;
     m_num_conflicts := m_num_conflicts c;
     m_unsat_core := m_unsat_core c;
     m_model := m_model c;
     m_assigned_literals := m_assigned_literals c;
     m_base_lim := m_base_lim c;
     m_bool_var2expr := m_bool_var2expr c;
     m_aux_stats := m_aux_stats c;
     m_cancel := m_cancel c |}.

(** [pctx.check(lasms.size(), lasms.c_ptr())]: the state of the solver
    afterwards is the one the answer describes, whether [check] returns or
    throws. *)
Definition check (lasms : list expr) (a : answer) (c : context) : context :=
  {| m_fparams := m_fparams c;
     m_random := m_random c;
     m_asserted_formulas := m_asserted_formulas c;
     m_assumptions := lasms;
     m_num_conflicts := check_num_conflicts a;
     m_unsat_core := check_unsat_core a;
     m_model := check_model a;
     m_assigned_literals := check_assigned_literals a;
     m_base_lim := check_base_lim a;
     m_bool_var2expr := check_bool_var2expr a;
     m_aux_stats := m_aux_stats c;
     m_cancel := m_cancel c |}.

(** Modelled from the spec: [smt::context::pop_to_base_lvl] is not among the
    sources; the relay reads "top-level facts", so popping keeps the literals
    assigned at base level and drops the ones above. *)
Definition pop_to_base_lvl (c : context) : context :=
  {| m_fparams := m_fparams c;
     m_random := m_random c;
     m_asserted_formulas := m_asserted_formulas c;
     m_assumptions := m_assumptions c;
     m_num_conflicts := m_num_conflicts c;
     m_unsat_core := m_unsat_core c;
     m_model := m_model c;
     m_assigned_literals := take (m_base_lim c) (m_assigned_literals c);
     m_base_lim := m_base_lim c;
     m_bool_var2expr := m_bool_var2expr c;
     m_aux_stats := m_aux_stats c;
     m_cancel := m_cancel c |}.

(** [m->limit().cancel()] *)
Definition cancel (c : context) : context :=
  {| m_fparams := m_fparams c;
     m_random := m_random c;
     m_asserted_formulas := m_asserted_formulas c;
     m_assumptions := m_assumptions c;
     m_num_conflicts := m_num_conflicts c;
     m_unsat_core := m_unsat_core c;
     m_model := m_model c;
     m_assigned_literals := m_assigned_literals c;
     m_base_lim := m_base_lim c;
     m_bool_var2expr := m_bool_var2expr c;
     m_aux_stats := m_aux_stats c;
     m_cancel := true |}.

(** [ctx.m_model = mdl] *)
Definition set_model (mdl : option model) (c : context) : context :=
  {| m_fparams := m_fparams c;
     m_random := m_random c;
     m_asserted_formulas := m_asserted_formulas c;
     m_assumptions := m_assumptions c;
     m_num_conflicts := m_num_conflicts c;
     m_unsat_core := m_unsat_core c;
     m_model := mdl;
     m_assigned_literals := m_assigned_literals c;
     m_base_lim := m_base_lim c;
     m_bool_var2expr := m_bool_var2expr c;
     m_aux_stats := m_aux_stats c;
     m_cancel := m_cancel c |}.

(** [ctx.m_unsat_core.push_back(e)] *)
Definition push_unsat_core (c : context) (e : expr) : context :=
  {| m_fparams := m_fparams c;
     m_random := m_random c;
     m_asserted_formulas := m_asserted_formulas c;
     m_assumptions := m_assumptions c;
     m_num_conflicts := m_num_conflicts c;
     m_unsat_core := m_unsat_core c ++ [e];
     m_model := m_model c;
     m_assigned_literals := m_assigned_literals c;
     m_base_lim := m_base_lim c;
     m_bool_var2expr := m_bool_var2expr c;
     m_aux_stats := m_aux_stats c;
     m_cancel := m_cancel c |}.

(** [c->collect_statistics(ctx.m_aux_stats)]: the second argument is passed
    by reference and updated in place. *)
Definition set_aux_stats (st : statistics) (c : context) : context :=
  {| m_fparams := m_fparams c;
     m_random := m_random c;
     m_asserted_formulas := m_asserted_formulas c;
     m_assumptions := m_assumptions c;
     m_num_conflicts := m_num_conflicts c;
     m_unsat_core := m_unsat_core c;
     m_model := m_model c;
     m_assigned_literals := m_assigned_literals c;
     m_base_lim := m_base_lim c;
     m_bool_var2expr := m_bool_var2expr c;
     m_aux_stats := st;
     m_cancel := m_cancel c |}.

(** The accessors [unsat_core()], [get_model(mdl)] and [assigned_literals()]. *)
Definition unsat_core (c : context) : list expr := m_unsat_core c.
Definition get_model (c : context) : option model := m_model c.
Definition assigned_literals (c : context) : list literal := m_assigned_literals c.

(** ** Updates of the captured locals *)

Definition with_pctxs (cs : list context) (s : state) : state :=
  {| ctx := ctx s; num_threads := num_threads s; pctxs := cs; pasms := pasms s;
     result := result s; finished_id := finished_id s; ex_msg := ex_msg s;
     ex_kind := ex_kind s; error_code := error_code s; done := done s;
     num_rounds := num_rounds s; max_conflicts := max_conflicts s;
     unit_set := unit_set s; unit_trail := unit_trail s; unit_lim := unit_lim s;
     relayed := relayed s |}.

(** Line 112, [pctx.get_fparams().m_max_conflicts = n]: the write goes
    through the reference to the one parameter object of the call, so it
    shows in [ctx] and in every worker context. *)
Definition write_max_conflicts (n : Z) (s : state) : state :=
  {| ctx := set_max_conflicts n (ctx s); num_threads := num_threads s;
     pctxs := set_max_conflicts n <$> pctxs s; pasms := pasms s;
     result := result s; finished_id := finished_id s; ex_msg := ex_msg s;
     ex_kind := ex_kind s; error_code := error_code s; done := done s;
     num_rounds := num_rounds s; max_conflicts := max_conflicts s;
     unit_set := unit_set s; unit_trail := unit_trail s; unit_lim := unit_lim s;
     relayed := relayed s |}.

(** Lines 135-138, executed with [mux] held. *)
Definition claim (i : nat) (r : lbool) (s : state) : state :=
  {| ctx := ctx s; num_threads := num_threads s; pctxs := pctxs s; pasms := pasms s;
     result := r; finished_id := u32 (Z.of_nat i); ex_msg := ex_msg s;
     ex_kind := ex_kind s; error_code := error_code s; done := true;
     num_rounds := num_rounds s; max_conflicts := max_conflicts s;
     unit_set := unit_set s; unit_trail := unit_trail s; unit_lim := unit_lim s;
     relayed := relayed s |}.

(** Lines 149-151: [catch (z3_error & err)]. *)
Definition catch_z3_error (code : Z) (s : state) : state :=
  {| ctx := ctx s; num_threads := num_threads s; pctxs := pctxs s; pasms := pasms s;
     result := result s; finished_id := finished_id s; ex_msg := ex_msg s;
     ex_kind := ERROR_EX; error_code := code; done := true;
     num_rounds := num_rounds s; max_conflicts := max_conflicts s;
     unit_set := unit_set s; unit_trail := unit_trail s; unit_lim := unit_lim s;
     relayed := relayed s |}.

(** Lines 154-156: [catch (z3_exception & ex)]. *)
Definition catch_z3_exception (msg : string) (s : state) : state :=
  {| ctx := ctx s; num_threads := num_threads s; pctxs := pctxs s; pasms := pasms s;
     result := result s; finished_id := finished_id s; ex_msg := msg;
     ex_kind := DEFAULT_EX; error_code := error_code s; done := true;
     num_rounds := num_rounds s; max_conflicts := max_conflicts s;
     unit_set := unit_set s; unit_trail := unit_trail s; unit_lim := unit_lim s;
     relayed := relayed s |}.

Definition catch (e : raised) (s : state) : state :=
  match e with
  | z3_error code => catch_z3_error code s
  | z3_exception msg => catch_z3_exception msg s
  end.

(** Lines 171-172: [++num_rounds; max_conflicts *= 2;] *)
Definition next_round (s : state) : state :=
  {| ctx := ctx s; num_threads := num_threads s; pctxs := pctxs s; pasms := pasms s;
     result := result s; finished_id := finished_id s; ex_msg := ex_msg s;
     ex_kind := ex_kind s; error_code := error_code s; done := done s;
     num_rounds := u32 (num_rounds s + 1); max_conflicts := u32 (max_conflicts s * 2);
     unit_set := unit_set s; unit_trail := unit_trail s; unit_lim := unit_lim s;
     relayed := relayed s |}.

(** ** The worker (lines 61-65 and 105-158) *)

(** [cube]: ask the lookahead for a literal and push it on [lasms] unless it
    is null. *)
Definition cube (a : answer) (lasms : list expr) : ret (list expr * option expr) :=
  match lh_choose a with
  | Throw e => Throw e
  | Ok None => Ok (lasms, None)
  | Ok (Some c) => Ok (lasms ++ [c], Some c)
  end.

(** [v.contains(c)]; a core holds no null pointer, so a null [c] is not in it. *)
Definition contains (v : list expr) (c : option expr) : bool :=
  match c with
  | Some e => bool_decide (e ∈ v)
  | None => false
  end.

(** Lines 143-145: cancel every manager but the worker's own. *)
Definition cancel_others (i : nat) (s : state) : state :=
  with_pctxs (imap (λ j c, if decide (j = i) then c else cancel c) (pctxs s)) s.

Definition set_pctx (i : nat) (c : context) (s : state) : state :=
  with_pctxs (<[i := c]> (pctxs s)) s.

(** Lines 105-158.  After line 112 [pctx] is worker [i]'s context with the
    budget written, as every other context of the call. *)
Definition worker_thread (i : nat) (a : answer) (s : state) : state :=
  match pctxs s !! i, pasms s !! i with
  | Some pctx, Some pasm =>
    let s := write_max_conflicts (max_conflicts s) s in
    let pctx := set_max_conflicts (max_conflicts s) pctx in
    match (if 0 <? num_rounds s then cube a pasm else Ok (pasm, None)) with
    | Throw e => catch e s
    | Ok (lasms, c) =>
      let pctx := check lasms a pctx in
      let s := set_pctx i pctx s in
      match check_result a with
      | Throw e => catch e s
      | Ok r =>
        if bool_decide (r = l_undef) && (max_conflicts s <=? m_num_conflicts pctx) then s
        else if bool_decide (r = l_false) && contains (unsat_core pctx) c then
          set_pctx i (assert_expr (mk_not (mk_and (unsat_core pctx))) pctx) s
        else if finished_id s =? UINT_MAX then
          cancel_others i (claim i r s)
        else s
      end
    end
  | _, _ => s   (* i < num_threads in every call the loop makes *)
  end.

(** One round: the threads reach their serialised sections in the order of
    [evs]; [join] waits for all of them. *)
Definition run_round (evs : list (nat * answer)) (s : state) : state :=
  foldl (λ s ev, worker_thread ev.1 ev.2 s) s evs.

(** ** The unit relay (lines 67-101) *)

(** Lines 80-81: the expression of an assigned literal. *)
Definition lit2expr (pctx : context) (lit : literal) : expr :=
  let e := m_bool_var2expr pctx (lit_var lit) in
  if lit_sign lit then m_mk_not e else e.

(** Lines 79-86, one iteration of the loop over [j]. *)
Definition publish (i : nat) (pctx : context)
    (acc : gset expr * list expr) (lit : literal) : gset expr * list expr :=
  let ce := translate (worker i) primary (lit2expr pctx lit) in
  if decide (ce ∈ acc.1) then acc else ({[ce]} ∪ acc.1, acc.2 ++ [ce]).

Definition with_units (cs : list context) (us : gset expr * list expr) (s : state) : state :=
  {| ctx := ctx s; num_threads := num_threads s; pctxs := cs; pasms := pasms s;
     result := result s; finished_id := finished_id s; ex_msg := ex_msg s;
     ex_kind := ex_kind s; error_code := error_code s; done := done s;
     num_rounds := num_rounds s; max_conflicts := max_conflicts s;
     unit_set := us.1; unit_trail := us.2; unit_lim := unit_lim s;
     relayed := relayed s |}.

Definition with_lim (cs : list context) (lims : list nat) (rl : list (list expr))
    (s : state) : state :=
  {| ctx := ctx s; num_threads := num_threads s; pctxs := cs; pasms := pasms s;
     result := result s; finished_id := finished_id s; ex_msg := ex_msg s;
     ex_kind := ex_kind s; error_code := error_code s; done := done s;
     num_rounds := num_rounds s; max_conflicts := max_conflicts s;
     unit_set := unit_set s; unit_trail := unit_trail s; unit_lim := lims;
     relayed := rl |}.

(** Lines 74-87, one iteration of the first loop over [i]: the literals of
    worker [i] from position [unit_lim[i]] on are translated and pushed on
    the trail unless the set has them. *)
Definition gather (s : state) (i : nat) : state :=
  match pctxs s !! i, unit_lim s !! i with
  | Some pctx, Some lim =>
    let pctx := pop_to_base_lvl pctx in
    with_units (<[i := pctx]> (pctxs s))
      (foldl (publish i pctx) (unit_set s, unit_trail s)
             (drop lim (assigned_literals pctx))) s
  | _, _ => s
  end.

(** Lines 92-99, one iteration of the second loop over [i]: the trail from
    position [unit_lim[i]] up to [sz] is translated and asserted, and
    [unit_lim[i]] becomes [sz]. *)
Definition scatter (sz : nat) (s : state) (i : nat) : state :=
  match pctxs s !! i, unit_lim s !! i with
  | Some pctx, Some lim =>
    let batch := drop lim (take sz (unit_trail s)) in
    with_lim
      (<[i := foldl (λ p e, assert_expr (translate primary (worker i) e) p) pctx batch]>
         (pctxs s))
      (<[i := sz]> (unit_lim s))
      (alter (λ l, l ++ batch) i (relayed s)) s
  | _, _ => s
  end.

Definition collect_units (s : state) : state :=
  let s := foldl gather s (seq 0 (num_threads s)) in
  let sz := length (unit_trail s) in
  foldl (scatter sz) s (seq 0 (num_threads s)).

(** ** The call (lines 34-59, 160-204) *)

(** Lines 51-58, the context and the assumptions of worker [i].  The
    context is built on [ctx.get_fparams()], the parameters of [ctx]
    themselves.  The translator is constructed with the arguments [*new_m]
    and [m], in this order: from the worker's manager to the primary one;
    it is then applied to [asms]. *)
Definition new_pctx (c : context) (i : nat) : context :=
  set_random_seed (u32 (Z.of_nat i + m_random_seed (m_fparams c)))
    (set_fparams (m_fparams c) (copy c i)).

Definition new_pasms (asms : list expr) (i : nat) : list expr :=
  translate (worker i) primary <$> asms.

(** Lines 39-70: the locals before the first round.  [c] is the primary
    context after [internalize_assertions]; its [m_threads] is read into
    [num_threads] and then held at 1 until the call ends, so the workers are
    created from parameters that ask for one thread. *)
Definition setup (c : context) (asms : list expr) : state :=
  let n := Z.to_nat (m_threads (m_fparams c)) in
  let c := set_threads 1 c in
  {| ctx := c; num_threads := n;
     pctxs := new_pctx c <$> seq 0 n;
     pasms := new_pasms asms <$> seq 0 n;
     result := l_undef; finished_id := UINT_MAX; ex_msg := "";
     ex_kind := DEFAULT_EX; error_code := 0; done := false;
     num_rounds := 0; max_conflicts := m_threads_max_conflicts (m_fparams c);
     unit_set := ∅; unit_trail := []; unit_lim := replicate n 0%nat;
     relayed := replicate n [] |}.

(** Lines 160-173.  The schedule lists the rounds; the loop leaves with the
    state of the first round that sets [done].  [None]: every round of the
    schedule ended with [done] unset, the loop is still running. *)
Fixpoint round_loop (sched : list (list (nat * answer))) (s : state) : option state :=
  match sched with
  | [] => None
  | evs :: sched =>
    let s := run_round evs s in
    if done s then Some s else round_loop sched (next_round (collect_units s))
  end.

(** Lines 175-177. *)
Definition fold_statistics (c : context) (cs : list context) : context :=
  foldl (λ c pc, set_aux_stats (collect_statistics pc (m_aux_stats c)) c) c cs.

(** Lines 186-202. *)
Definition merge (fid : nat) (pctx : context) (r : lbool) (c : context) : context :=
  match r with
  | l_true =>
    match get_model pctx with
    | Some mdl => set_model (Some (translate_model (worker fid) primary mdl)) c
    | None => c
    end
  | l_false => foldl (λ c e, push_unsat_core c (translate (worker fid) primary e)) c (unsat_core pctx)
  | l_undef => c
  end.

(** Lines 175-204: what the caller gets, the primary context and the way the
    call ends.  On both ways out [m_threads] gets back the value it had. *)
Definition finish (s : state) : context * outcome :=
  let c := fold_statistics (ctx s) (pctxs s) in
  let restore := set_threads (Z.of_nat (num_threads s)) in
  if finished_id s =? UINT_MAX then
    match ex_kind s with
    | ERROR_EX => (restore c, throws_z3_error (error_code s))
    | DEFAULT_EX => (restore c, throws_default_exception (ex_msg s))
    end
  else
    match pctxs s !! Z.to_nat (finished_id s) with
    | Some pctx =>
      (restore (merge (Z.to_nat (finished_id s)) pctx (result s) c), returns (result s))
    | None => (restore c, returns (result s))   (* finished_id < num_threads when set *)
    end.

Definition parallel_call (c : context) (asms : list expr)
    (sched : list (list (nat * answer))) : option (context * outcome) :=
  finish <$> round_loop sched (setup c asms).

(** ** Reading a round

    What a worker does to the shared locals depends on its answer only
    through the branch of [worker_thread] it takes. *)

Inductive verdict :=
| exhausted                (* line 123: budget used up, nothing to report *)
| cube_refuted             (* line 127-128: unsat because of the cube *)
| decides (r : lbool)      (* reaches the section guarded by mux *)
| faults (e : raised).     (* lands in a catch handler *)

Definition verdict_of (s : state) (i : nat) (a : answer) : option verdict :=
  match pctxs s !! i, pasms s !! i with
  | Some _, Some _ =>
    match (if 0 <? num_rounds s then lh_choose a else Ok None) with
    | Throw e => Some (faults e)
    | Ok c =>
      match check_result a with
      | Throw e => Some (faults e)
      | Ok r =>
        if bool_decide (r = l_undef) && (max_conflicts s <=? check_num_conflicts a)
        then Some exhausted
        else if bool_decide (r = l_false) && contains (check_unsat_core a) c
        then Some cube_refuted
        else Some (decides r)
      end
    end
  | _, _ => None
  end.

(** The first worker of a round that reaches the guarded section. *)
Fixpoint first_decision (s : state) (evs : list (nat * answer)) : option (nat * lbool) :=
  match evs with
  | [] => None
  | (i, a) :: evs =>
    match verdict_of s i a with
    | Some (decides r) => Some (i, r)
    | _ => first_decision s evs
    end
  end.

(** The last worker of a round that lands in a handler. *)
Fixpoint last_fault (s : state) (evs : list (nat * answer)) : option raised :=
  match evs with
  | [] => None
  | (i, a) :: evs =>
    match last_fault s evs with
    | Some e => Some e
    | None => match verdict_of s i a with Some (faults e) => Some e | _ => None end
    end
  end.

(** The capture holds the payload of [e]. *)
Definition captured (s : state) (e : raised) : Prop :=
  match e with
  | z3_error code => ex_kind s = ERROR_EX ∧ error_code s = code
  | z3_exception msg => ex_kind s = DEFAULT_EX ∧ ex_msg s = msg
  end.

(** What [operator()] throws for a captured [e]. *)
Definition surfaced (e : raised) : outcome :=
  match e with
  | z3_error code => throws_z3_error code
  | z3_exception msg => throws_default_exception msg
  end.

(** The literal that [cube] adds to the assumptions of this round, if any. *)
Definition cube_of (s : state) (a : answer) : option expr :=
  if 0 <? num_rounds s then
    match lh_choose a with Ok c => c | Throw _ => None end
  else None.

Definition with_lh_choose (c : ret (option expr)) (a : answer) : answer :=
  {| lh_choose := c; check_result := check_result a;
     check_num_conflicts := check_num_conflicts a;
     check_unsat_core := check_unsat_core a; check_model := check_model a;
     check_assigned_literals := check_assigned_literals a;
     check_base_lim := check_base_lim a;
     check_bool_var2expr := check_bool_var2expr a |}.

(** ** The states of a call

    [entering c asms k s]: [s] holds the locals at the top of the loop body
    (line 161) when the call on [c] and [asms] starts its round [k], the
    rounds before having ended with [done] unset. *)
Inductive entering (c : context) (asms : list expr) : nat → state → Prop :=
| enter_first : entering c asms 0 (setup c asms)
| enter_next k s evs :
    entering c asms k s →
    done (run_round evs s) = false →
    entering c asms (S k) (next_round (collect_units (run_round evs s))).

(** ** Invariants of the loop *)

(** The locals that the relay does not touch. *)
Definition same_call (s s' : state) : Prop :=
  ctx s' = ctx s ∧ num_threads s' = num_threads s ∧ pasms s' = pasms s ∧
  result s' = result s ∧ finished_id s' = finished_id s ∧
  ex_msg s' = ex_msg s ∧ ex_kind s' = ex_kind s ∧ error_code s' = error_code s ∧
  done s' = done s ∧
  num_rounds s' = num_rounds s ∧ max_conflicts s' = max_conflicts s ∧
  length (pctxs s') = length (pctxs s).

(** The vectors indexed by worker have one entry per worker. *)
Definition sized (s : state) : Prop :=
  length (pctxs s) = num_threads s ∧ length (pasms s) = num_threads s ∧
  length (unit_lim s) = num_threads s ∧ length (relayed s) = num_threads s.

(** [unit_set] holds exactly the facts of [unit_trail], each of them once. *)
Definition coherent (us : gset expr * list expr) : Prop :=
  NoDup us.2 ∧ ∀ e, e ∈ us.1 ↔ e ∈ us.2.

(** What links the offsets, the trail and the workers: worker [i] has been
    handed the first [unit_lim[i]] facts of the trail, no other, and they
    are among its assertions. *)
Definition relay_inv (s : state) : Prop :=
  sized s ∧ coherent (unit_set s, unit_trail s) ∧
  ∀ i lim, unit_lim s !! i = Some lim →
    (lim ≤ length (unit_trail s))%nat ∧
    relayed s !! i = Some (take lim (unit_trail s)) ∧
    ∀ pctx e, pctxs s !! i = Some pctx → e ∈ take lim (unit_trail s) →
      translate primary (worker i) e ∈ m_asserted_formulas pctx.

(** One parameter object: every worker context shows the parameters that
    [ctx] shows. *)
Definition shared_fparams (s : state) : Prop :=
  ∀ i pctx, pctxs s !! i = Some pctx → m_fparams pctx = m_fparams (ctx s).

(** The fact that the relay reads off a literal of worker [i]. *)
Definition unit_fact (i : nat) (pctx : context) (lit : literal) : expr :=
  translate (worker i) primary (lit2expr pctx lit).

End Parallel.

(** ** A concrete instance

    Expressions and models are strings, managers share their names, and the
    statistics of a context are its conflict count. *)
Module Demo.

Definition ctx0 (threads budget : Z) : context string string (list Z) :=
  {| m_fparams := {| m_threads := threads; m_threads_max_conflicts := budget;
                     m_random_seed := 0; m_max_conflicts := 0 |};
     m_random := 0; m_asserted_formulas := []; m_assumptions := [];
     m_num_conflicts := 0; m_unsat_core := []; m_model := None;
     m_assigned_literals := []; m_base_lim := 0%nat;
     m_bool_var2expr := λ _, "true"%string;
     m_aux_stats := []; m_cancel := false |}.

#[export] Instance ops : Collaborators string string (list Z) :=
  {| translate := λ _ _ e, e;
     translate_model := λ _ _ m, m;
     m_mk_not := λ e, ("(not " +:+ e +:+ ")")%string;
     mk_not := λ e, ("(not " +:+ e +:+ ")")%string;
     mk_and := λ es, ("(and" +:+ foldr (λ e acc, " " +:+ e +:+ acc) ")" es)%string;
     copy := λ c _, c;
     collect_statistics := λ c st, st ++ [m_num_conflicts c] |}.

Definition names (v : nat) : string :=
  match v with
  | 0%nat => "a" | 1%nat => "b" | 2%nat => "c" | 3%nat => "d" | _ => "e"
  end.

(** An answer: lookahead, result of [check], conflicts, core, model and the
    variables assigned true at base level. *)
Definition ans (lh : ret (option string)) (r : ret lbool) (confl : Z)
    (core : list string) (mdl : option string) (lits : list nat) : answer string string :=
  {| lh_choose := lh; check_result := r; check_num_conflicts := confl;
     check_unsat_core := core; check_model := mdl;
     check_assigned_literals := (λ v, mk_literal v false) <$> lits;
     check_base_lim := length lits; check_bool_var2expr := names |}.

(** A worker that uses up any budget and has [lits] at base level. *)
Definition busy (lits : list nat) : answer string string :=
  ans (Ok None) (Ok l_undef) UINT_MAX [] None lits.

(** A worker whose [check] throws. *)
Definition failing (e : raised) : answer string string :=
  ans (Ok None) (Throw e) 0 [] None [].

(** A worker that answers sat with the model [mdl]. *)
Definition solved (mdl : option string) : answer string string :=
  ans (Ok None) (Ok l_true) 3 [] mdl [].

(** A worker that takes the cube [q] and answers unsat with [core]. *)
Definition refuted (q : string) (core : list string) : answer string string :=
  ans (Ok (Some q)) (Ok l_false) 3 core None [].

(** Two workers, budget 100, the assumption [p]. *)
Definition c2 : context string string (list Z) := ctx0 2 100.

(** Round 0: nobody finishes; worker 0 has [a] at base level, worker 1 has
    [b], [c] and [d]. *)
Definition round0 : list (nat * answer string string) :=
  [(0%nat, busy [0%nat]); (1%nat, busy [1%nat; 2%nat; 3%nat])].

(** The locals at the top of round 1. *)
Definition s1 : state string string (list Z) :=
  next_round (collect_units (run_round round0 (setup c2 ["p"%string]))).

(** Round 1, again without a winner: worker 0 has derived [e] and its log
    is [a; e], the three facts relayed to it have left no entry of their
    own. *)
Definition round1 : list (nat * answer string string) :=
  [(0%nat, busy [0%nat; 4%nat]); (1%nat, busy [1%nat; 2%nat; 3%nat])].

Definition s2 : state string string (list Z) :=
  next_round (collect_units (run_round round1 s1)).

(** Round 1 with an end: worker 0 refutes its cube [q], worker 1 finds the
    assumption [p] unsat by itself. *)
Definition round1_unsat : list (nat * answer string string) :=
  [(0%nat, refuted "q" ["p"; "q"]%string); (1%nat, refuted "r" ["p"%string])].

Definition pctx_of (s : state string string (list Z)) (i : nat) :
    context string string (list Z) :=
  match pctxs s !! i with Some p => p | None => ctx0 0 0 end.

(** The primary context and the outcome of a call, when it comes back. *)
Definition call_ctx (c : context string string (list Z)) (asms : list string)
    (sched : list (list (nat * answer string string))) : context string string (list Z) :=
  match parallel_call c asms sched with Some r => r.1 | None => c end.

Definition call_out (c : context string string (list Z)) (asms : list string)
    (sched : list (list (nat * answer string string))) : option outcome :=
  snd <$> parallel_call c asms sched.

(** Three workers that all answer sat in round 0, worker 1 being the first
    to take the mutex. *)
Definition c3 : context string string (list Z) := ctx0 3 100.

Definition round_sat3 : list (nat * answer string string) :=
  [(1%nat, solved (Some "m1")); (0%nat, solved (Some "m0"));
   (2%nat, solved (Some "m2"))]%string.

(** Round 0 of two workers: worker 1 wins with sat and no model, worker 0
    comes second with a model. *)
Definition round_sat_no_model : list (nat * answer string string) :=
  [(1%nat, solved None); (0%nat, solved (Some "m"%string))].

(** Round 0 of one worker whose [check] gives up after 5 conflicts. *)
Definition round_gives_up : list (nat * answer string string) :=
  [(0%nat, ans (Ok None) (Ok l_undef) 5 [] None [])].

(** Round 0 of two workers whose [check]s both throw, worker 0 first. *)
Definition round_two_faults : list (nat * answer string string) :=
  [(0%nat, failing (z3_error 7)); (1%nat, failing (z3_exception "boom"))].

(** One worker and a budget of 2^31 conflicts. *)
Definition c_big : context string string (list Z) := ctx0 1 2147483648.

Definition s_big : state string string (list Z) :=
  next_round (collect_units (run_round [(0%nat, busy [])] (setup c_big []))).

End Demo.

(** * The NPN3 finder  (src/sat/sat_npn3_finder.cpp)

    The finder looks through the clauses of a SAT solver for groups of
    clauses that define a gate of three inputs and reports each gate through
    a callback.  Clause objects live in a store and a [clause*] is a
    position in it; the store and the list of the callbacks' calls are the
    state that the functions pass along.  A position without a clause
    object would be a dangling pointer, which the vectors of the source do
    not hold; the functions pass it by. *)
Module Npn3.

(** [sat::literal] is declared outside of these files.  The finder uses the
    index of a literal, its complement and the comparison [==]; a literal is
    determined by its index. *)
Class Literal (literal : Type) := {
  index : literal → N;                       (* x.index() *)
  neg : literal → literal;                   (* ~x *)
  #[global] lit_eq_dec :: EqDecision literal;
  #[global] lit_countable :: Countable literal;
  index_inj : ∀ x y : literal, index x = index y → x = y
}.

(** A [clause*]: [None] is [nullptr]. *)
Definition clause_ptr : Type := option nat.

(** The part of [sat::clause] that the finder uses: the literals and the
    flag behind [mark_used], [unmark_used] and [was_used]. *)
Record clause {literal : Type} := {
  c_lits : list literal;
  c_used : bool
}.
Arguments clause : clear implicits.

(** An entry of a watch list. *)
Record watched {literal : Type} := {
  is_binary_clause : bool;
  get_literal : literal
}.
Arguments watched : clear implicits.

(** The part of [sat::solver] that the finder reads. *)
Record solver {literal : Type} := {
  learned : list nat;
  clauses : list nat;
  get_wlist : literal → list (watched literal)
}.
Arguments solver : clear implicits.

(** [use_list_t]: the third literal and the clause of every ternary clause
    that holds the pair. *)
Definition use_list_t (literal : Type) : Type := list (literal * clause_ptr).

Record binary {literal : Type} := {
  b_x : literal;
  b_y : literal;
  use_list : option (use_list_t literal)     (* None is the null use_list *)
}.
Arguments binary : clear implicits.

Record ternary {literal : Type} := {
  t_x : literal;
  t_y : literal;
  t_z : literal;
  t_orig : clause_ptr
}.
Arguments ternary : clear implicits.

Record quaternary {literal : Type} := {
  q_w : literal;
  q_x : literal;
  q_y : literal;
  q_z : literal;
  q_orig : clause_ptr
}.
Arguments quaternary : clear implicits.

(** A call of one of the callbacks [m_on_mux], [m_on_maj], [m_on_orand],
    [m_on_andxor] and [m_on_gamble] with its four arguments. *)
Inductive gate {literal : Type} :=
| on_mux (head c t e : literal)
| on_maj (head a b c : literal)
| on_orand (head a b c : literal)
| on_andxor (head a b c : literal)
| on_gamble (head a b c : literal).
Arguments gate : clear implicits.

(** The members of [npn3_finder]: the solver, the reachability of the
    binary implication graph once [m_big.init] has run, and which of the
    callbacks are set. *)
Record npn3_finder {literal : Type} := {
  s : solver literal;
  m_big_connected : literal → literal → bool;
  m_on_mux : bool;
  m_on_maj : bool;
  m_on_orand : bool;
  m_on_andxor : bool;
  m_on_gamble : bool
}.
Arguments npn3_finder : clear implicits.

(** What the finder changes: the clause objects and the calls made so far. *)
Record store {literal : Type} := {
  objs : list (clause literal);
  calls : list (gate literal)
}.
Arguments store : clear implicits.

(** The hash tables.  Two entries are the same when [eq] says so, that is
    when their literals agree, and the hash functions (lines 28, 41 and 56)
    read the literals only; a table is taken as the finite map from the
    literals of an entry to the entry. *)
Abbreviation binary_hash_table_t literal := (gmap (literal * literal) (binary literal)).
Abbreviation ternary_hash_table_t literal :=
  (gmap (literal * literal * literal) (ternary literal)).
Abbreviation quaternary_hash_table_t literal :=
  (gmap (literal * literal * literal * literal) (quaternary literal)).

Section Finder.
Context {literal : Type} `{!Literal literal}.

Local Abbreviation clause := (clause literal).
Local Abbreviation binary := (binary literal).
Local Abbreviation ternary := (ternary literal).
Local Abbreviation quaternary := (quaternary literal).
Local Abbreviation npn3_finder := (npn3_finder literal).
Local Abbreviation store := (store literal).

(** ** The entries (lines 23-59) *)

(** The order in which the constructors put the literals. *)
Definition index_le (x y : literal) : Prop := (index x ≤ index y)%N.

(** [binary::binary(_x, _y, u)] *)
Definition mk_binary (x y : literal) (u : option (use_list_t literal)) : binary :=
  if (index y <? index x)%N then {| b_x := y; b_y := x; use_list := u |}
  else {| b_x := x; b_y := y; use_list := u |}.

Definition binary_eq (a b : binary) : bool :=
  bool_decide (b_x a = b_x b) && bool_decide (b_y a = b_y b).

Definition binary_key (b : binary) : literal * literal := (b_x b, b_y b).

(** [ternary::ternary(_x, _y, _z, c)]: three conditional swaps. *)
Definition mk_ternary (x y z : literal) (c : clause_ptr) : ternary :=
  let '(x, y) := if (index y <? index x)%N then (y, x) else (x, y) in
  let '(y, z) := if (index z <? index y)%N then (z, y) else (y, z) in
  let '(x, y) := if (index y <? index x)%N then (y, x) else (x, y) in
  {| t_x := x; t_y := y; t_z := z; t_orig := c |}.

Definition ternary_eq (a b : ternary) : bool :=
  bool_decide (t_x a = t_x b) && bool_decide (t_y a = t_y b) &&
  bool_decide (t_z a = t_z b).

Definition ternary_key (t : ternary) : literal * literal * literal :=
  (t_x t, t_y t, t_z t).

(** [quaternary::quaternary(_w, _x, _y, _z, c)]: five conditional swaps. *)
Definition mk_quaternary (w x y z : literal) (c : clause_ptr) : quaternary :=
  let '(w, x) := if (index x <? index w)%N then (x, w) else (w, x) in
  let '(y, z) := if (index z <? index y)%N then (z, y) else (y, z) in
  let '(w, y) := if (index y <? index w)%N then (y, w) else (w, y) in
  let '(x, z) := if (index z <? index x)%N then (z, x) else (x, z) in
  let '(x, y) := if (index y <? index x)%N then (y, x) else (x, y) in
  {| q_w := w; q_x := x; q_y := y; q_z := z; q_orig := c |}.

Definition quaternary_eq (a b : quaternary) : bool :=
  bool_decide (q_w a = q_w b) && bool_decide (q_x a = q_x b) &&
  bool_decide (q_y a = q_y b) && bool_decide (q_z a = q_z b).

Definition quaternary_key (q : quaternary) : literal * literal * literal * literal :=
  (q_w q, q_x q, q_y q, q_z q).

(** ** Marks and calls *)

Definition with_objs (h : list clause) (st : store) : store :=
  {| objs := h; calls := calls st |}.

(** [cp->mark_used()] and [cp->unmark_used()] *)
Definition mark_used (p : nat) (st : store) : store :=
  with_objs (alter (λ c, {| c_lits := c_lits c; c_used := true |}) p (objs st)) st.

Definition unmark_used (p : nat) (st : store) : store :=
  with_objs (alter (λ c, {| c_lits := c_lits c; c_used := false |}) p (objs st)) st.

(** [if (c1) c1->mark_used();] *)
Definition mark_if (c : clause_ptr) (st : store) : store :=
  match c with
  | Some p => mark_used p st
  | None => st
  end.

(** [!cp->was_used()] *)
Definition not_used (st : store) (p : nat) : bool :=
  match objs st !! p with
  | Some c => negb (c_used c)
  | None => true
  end.

(** A call of a callback. *)
Definition call (g : gate literal) (st : store) : store :=
  {| objs := objs st; calls := calls st ++ [g] |}.

(** [if (t1(...)) continue; if (t2(...)) continue; ...]: the attempts are
    made in order up to the first that succeeds. *)
Fixpoint first_of (tries : list (store → bool * store)) (st : store) : store :=
  match tries with
  | [] => st
  | t :: tries =>
    let '(ok, st) := t st in
    if ok then st else first_of tries st
  end.

(** ** [implies] (lines 72-80) *)

Definition implies (f : npn3_finder) (a b : literal) : bool :=
  m_big_connected f a b ||
  existsb (λ w, is_binary_clause w && bool_decide (b = get_literal w))
          (get_wlist (s f) a).

(** ** [process_clauses] and [process_more_clauses] (lines 82-145) *)

(** [insert_binary]: the entry of the pair is looked up, or made with a
    fresh use list, and [(z, c)] is pushed on its use list. *)
Definition insert_binary (x y z : literal) (c : nat)
    (binaries : binary_hash_table_t literal) : binary_hash_table_t literal :=
  let b := mk_binary x y None in
  let e := default b (binaries !! binary_key b) in
  let ul := default [] (use_list e) in
  <[binary_key b := {| b_x := b_x e; b_y := b_y e;
                       use_list := Some (ul ++ [(z, Some c)]) |}]> binaries.

(** [ternaries.insert(t)]: the entry equal to [t], if there is one, is
    replaced. *)
Definition insert_ternary (st : store)
    (tabs : binary_hash_table_t literal * ternary_hash_table_t literal) (cp : nat) :
    binary_hash_table_t literal * ternary_hash_table_t literal :=
  match objs st !! cp with
  | Some c =>
    match c_lits c with
    | [c0; c1; c2] =>
      (insert_binary c2 c1 c0 cp
         (insert_binary c0 c2 c1 cp (insert_binary c0 c1 c2 cp tabs.1)),
       <[ternary_key (mk_ternary c0 c1 c2 (Some cp)) := mk_ternary c0 c1 c2 (Some cp)]>
         tabs.2)
    | _ => tabs
    end
  | None => tabs
  end.

(** Lines 82-111: the marks of [clauses] are cleared, then the tables are
    filled from the learned clauses of the solver and from its other
    clauses. *)
Definition process_clauses (f : npn3_finder) (clauses : list nat) (st : store) :
    binary_hash_table_t literal * ternary_hash_table_t literal * store :=
  let st := foldl (λ st cp, unmark_used cp st) st clauses in
  let tabs := foldl (insert_ternary st) (∅, ∅) (learned (s f)) in
  let tabs := foldl (insert_ternary st) tabs (Npn3.clauses (s f)) in
  (tabs, st).

(** The lambda [insert] of [process_more_clauses]: a clause of four
    literals goes to [quaternaries]. *)
Definition insert (st : store)
    (tabs : binary_hash_table_t literal * ternary_hash_table_t literal *
            quaternary_hash_table_t literal)
    (cp : nat) :
    binary_hash_table_t literal * ternary_hash_table_t literal *
    quaternary_hash_table_t literal :=
  match objs st !! cp with
  | Some c =>
    match c_lits c with
    | [c0; c1; c2] =>
      (insert_binary c2 c1 c0 cp
         (insert_binary c0 c2 c1 cp (insert_binary c0 c1 c2 cp tabs.1.1)),
       <[ternary_key (mk_ternary c0 c1 c2 (Some cp)) := mk_ternary c0 c1 c2 (Some cp)]>
         tabs.1.2,
       tabs.2)
    | [c0; c1; c2; c3] =>
      (tabs.1,
       <[quaternary_key (mk_quaternary c0 c1 c2 c3 (Some cp))
           := mk_quaternary c0 c1 c2 c3 (Some cp)]> tabs.2)
    | _ => tabs
    end
  | None => tabs
  end.

(** Lines 113-145. *)
Definition process_more_clauses (f : npn3_finder) (clauses : list nat) (st : store) :
    binary_hash_table_t literal * ternary_hash_table_t literal *
    quaternary_hash_table_t literal * store :=
  let st := foldl (λ st cp, unmark_used cp st) st clauses in
  let tabs := foldl (insert st) (∅, ∅, ∅) (learned (s f)) in
  let tabs := foldl (insert st) tabs (Npn3.clauses (s f)) in
  (tabs, st).

(** ** [has_ternary] and [has_quaternary] (lines 147-172)

    [None]: the function returns false.  [Some c]: it returns true and has
    stored [c] in its last argument. *)
Definition has_ternary (f : npn3_finder) (ternaries : ternary_hash_table_t literal)
    (x y z : literal) : option clause_ptr :=
  match ternaries !! ternary_key (mk_ternary x y z None) with
  | Some t => Some (t_orig t)
  | None =>
    if implies f (neg y) z || implies f (neg x) y || implies f (neg x) z
    then Some None else None
  end.

Definition has_quaternary (f : npn3_finder) (quaternaries : quaternary_hash_table_t literal)
    (ternaries : ternary_hash_table_t literal) (w x y z : literal) : option clause_ptr :=
  match quaternaries !! quaternary_key (mk_quaternary w x y z None) with
  | Some q => Some (q_orig q)
  | None =>
    match has_ternary f ternaries w x y with
    | Some c => Some c
    | None =>
      match has_ternary f ternaries w x z with
      | Some c => Some c
      | None =>
        match has_ternary f ternaries w y z with
        | Some c => Some c
        | None => has_ternary f ternaries x y z
        end
      end
    end
  end.

(** ** [find_npn3] (lines 174-196) *)

(** A checker gets the tables, three literals and the clause they are from,
    and tells whether it has reported a gate. *)
Definition checker_t : Type :=
  binary_hash_table_t literal → ternary_hash_table_t literal →
  literal → literal → literal → nat → store → bool * store.

Definition find_npn3 (f : npn3_finder) (on_function : bool) (checker : checker_t)
    (clauses : list nat) (st : store) : list nat * store :=
  if negb on_function then (clauses, st)
  else
    let '(binaries, ternaries, st) := process_clauses f clauses st in
    let st :=
      foldl (λ st cp,
        match objs st !! cp with
        | Some c =>
          match c_lits c with
          | [x; y; z] =>
            if c_used c then st
            else first_of [checker binaries ternaries x z y cp;
                           checker binaries ternaries x y z cp;
                           checker binaries ternaries y x z cp;
                           checker binaries ternaries z x y cp;
                           checker binaries ternaries z y x cp;
                           checker binaries ternaries y z x cp] st
          | _ => st
          end
        | None => st
        end) st clauses in
    (filter (λ cp, not_used st cp = true) clauses, st).

(** ** [find_mux] (lines 198-227)

    The lambda [try_ite], with its loop over the use list apart. *)

Fixpoint try_ite_loop (f : npn3_finder) (ternaries : ternary_hash_table_t literal)
    (x y z : literal) (c : nat) (c1 : clause_ptr) (ul : use_list_t literal)
    (st : store) : bool * store :=
  match ul with
  | [] => (false, st)
  | (u, c2) :: ul =>
    match has_ternary f ternaries (neg u) (neg x) (neg y) with
    | None => try_ite_loop f ternaries x y z c c1 ul st
    | Some c3 =>
      (true, call (on_mux (neg x) (neg y) z u)
               (mark_if c3 (mark_if c2 (mark_if c1 (mark_used c st)))))
    end
  end.

Definition try_ite (f : npn3_finder) : checker_t := λ binaries ternaries x y z c st,
  match has_ternary f ternaries y (neg z) (neg x) with
  | None => (false, st)
  | Some c1 =>
    match binaries !! binary_key (mk_binary (neg y) x None) with
    | None => (false, st)
    | Some b => try_ite_loop f ternaries x y z c c1 (default [] (use_list b)) st
    end
  end.

Definition find_mux (f : npn3_finder) (clauses : list nat) (st : store) :
    list nat * store :=
  find_npn3 f (m_on_mux f) (try_ite f) clauses st.

(** ** [find_maj] (lines 229-272)

    The lambda [try_maj], with its loop over the use list apart. *)

Fixpoint try_maj_loop (f : npn3_finder) (ternaries : ternary_hash_table_t literal)
    (x y z : literal) (c : nat) (c1 : clause_ptr) (ul : use_list_t literal)
    (st : store) : bool * store :=
  match ul with
  | [] => (false, st)
  | (u, c2) :: ul =>
    if bool_decide (u = z) then try_maj_loop f ternaries x y z c c1 ul st
    else
      match has_ternary f ternaries x y u with
      | None => try_maj_loop f ternaries x y z c c1 ul st
      | Some c3 =>
        match has_ternary f ternaries (neg x) (neg y) (neg u) with
        | None => try_maj_loop f ternaries x y z c c1 ul st
        | Some c4 =>
          match has_ternary f ternaries x z u with
          | None => try_maj_loop f ternaries x y z c c1 ul st
          | Some c5 =>
            match has_ternary f ternaries (neg x) (neg z) (neg u) with
            | None => try_maj_loop f ternaries x y z c c1 ul st
            | Some c6 =>
              (true, call (on_maj (neg x) y z u)
                       (mark_if c6 (mark_if c5 (mark_if c4 (mark_if c3
                          (mark_if c2 (mark_if c1 (mark_used c st))))))))
            end
          end
        end
      end
  end.

Definition try_maj (f : npn3_finder) : checker_t := λ binaries ternaries x y z c st,
  match has_ternary f ternaries (neg x) (neg y) (neg z) with
  | None => (false, st)
  | Some c1 =>
    match binaries !! binary_key (mk_binary x y None) with
    | None => (false, st)
    | Some b => try_maj_loop f ternaries x y z c c1 (default [] (use_list b)) st
    end
  end.

Definition find_maj (f : npn3_finder) (clauses : list nat) (st : store) :
    list nat * store :=
  find_npn3 f (m_on_maj f) (try_maj f) clauses st.

(** ** [find_orand] (lines 274-301)

    The lambda [try_orand], with its loop over the use list apart. *)

Fixpoint try_orand_loop (f : npn3_finder) (ternaries : ternary_hash_table_t literal)
    (x y z : literal) (c : nat) (ul : use_list_t literal)
    (st : store) : bool * store :=
  match ul with
  | [] => (false, st)
  | (u, c1) :: ul =>
    if bool_decide (u = z) then try_orand_loop f ternaries x y z c ul st
    else
      match has_ternary f ternaries (neg z) (neg u) (neg x) with
      | None => try_orand_loop f ternaries x y z c ul st
      | Some c2 =>
        (true, call (on_orand x (neg y) (neg z) (neg u))
                 (mark_if c2 (mark_if c1 (mark_used c st))))
      end
  end.

Definition try_orand (f : npn3_finder) : checker_t := λ binaries ternaries x y z c st,
  if negb (implies f x (neg y)) then (false, st)
  else
    match binaries !! binary_key (mk_binary x y None) with
    | None => (false, st)
    | Some b => try_orand_loop f ternaries x y z c (default [] (use_list b)) st
    end.

Definition find_orand (f : npn3_finder) (clauses : list nat) (st : store) :
    list nat * store :=
  find_npn3 f (m_on_orand f) (try_orand f) clauses st.

(** ** [find_gamble] and [find_andxor] (lines 303-421) *)

(** The 24 orders in which the loops of [find_gamble] and [find_andxor] try
    the literals [w], [x], [y] and [z] of a clause. *)
Definition orders (w x y z : literal) : list (literal * literal * literal * literal) :=
  [(w, x, y, z); (w, x, z, y); (w, y, x, z); (w, y, z, x); (w, z, x, y); (w, z, y, x);
   (x, w, y, z); (x, w, z, y); (x, y, w, z); (x, y, z, w); (x, z, w, y); (x, z, y, w);
   (y, w, x, z); (y, w, z, x); (y, x, w, z); (y, x, z, w); (y, z, w, x); (y, z, x, w);
   (z, w, x, y); (z, w, y, x); (z, x, w, y); (z, x, y, w); (z, y, w, x); (z, y, x, w)].

(** The lambda [try_gamble]; its arguments [w], [x], [y] and [z] come as one
    of the [orders]. *)
Definition try_gamble (f : npn3_finder) (quaternaries : quaternary_hash_table_t literal)
    (ternaries : ternary_hash_table_t literal) (c : nat)
    (a : literal * literal * literal * literal) (st : store) : bool * store :=
  let '(w, x, y, z) := a in
  match has_quaternary f quaternaries ternaries (neg x) (neg y) (neg z) w with
  | None => (false, st)
  | Some c1 =>
    match has_ternary f ternaries (neg x) y (neg w) with
    | None => (false, st)
    | Some c2 =>
      match has_ternary f ternaries (neg y) z (neg w) with
      | None => (false, st)
      | Some c3 =>
        match has_ternary f ternaries x (neg z) (neg w) with
        | None => (false, st)
        | Some c4 =>
          (true, call (on_gamble w x y z)
                   (mark_if c4 (mark_if c3 (mark_if c2 (mark_if c1 (mark_used c st))))))
        end
      end
    end
  end.

Definition find_gamble (f : npn3_finder) (clauses : list nat) (st : store) :
    list nat * store :=
  if negb (m_on_gamble f) then (clauses, st)
  else
    let '(_, ternaries, quaternaries, st) := process_more_clauses f clauses st in
    let st :=
      foldl (λ st cp,
        match objs st !! cp with
        | Some c =>
          match c_lits c with
          | [w; x; y; z] =>
            if c_used c then st
            else first_of (try_gamble f quaternaries ternaries cp <$> orders w x y z) st
          | _ => st
          end
        | None => st
        end) st clauses in
    (filter (λ cp, not_used st cp = true) clauses, st).

(** The lambda [try_andxor]. *)
Definition try_andxor (f : npn3_finder) (quaternaries : quaternary_hash_table_t literal)
    (ternaries : ternary_hash_table_t literal) (c : nat)
    (a : literal * literal * literal * literal) (st : store) : bool * store :=
  let '(w, x, y, z) := a in
  match has_quaternary f quaternaries ternaries (neg x) y z (neg w) with
  | None => (false, st)
  | Some c1 =>
    match has_ternary f ternaries (neg x) (neg y) w with
    | None => (false, st)
    | Some c2 =>
      match has_ternary f ternaries (neg x) (neg z) w with
      | None => (false, st)
      | Some c3 =>
        match has_ternary f ternaries x (neg y) (neg w) with
        | None => (false, st)
        | Some c4 =>
          match has_ternary f ternaries x (neg z) (neg w) with
          | None => (false, st)
          | Some c5 =>
            (true, call (on_andxor (neg w) x (neg y) (neg z))
                     (mark_if c5 (mark_if c4 (mark_if c3 (mark_if c2 (mark_if c1
                        (mark_used c st)))))))
          end
        end
      end
    end
  end.

Definition find_andxor (f : npn3_finder) (clauses : list nat) (st : store) :
    list nat * store :=
  if negb (m_on_andxor f) then (clauses, st)
  else
    let '(_, ternaries, quaternaries, st) := process_more_clauses f clauses st in
    let st :=
      foldl (λ st cp,
        match objs st !! cp with
        | Some c =>
          match c_lits c with
          | [w; x; y; z] =>
            if c_used c then st
            else first_of (try_andxor f quaternaries ternaries cp <$> orders w x y z) st
          | _ => st
          end
        | None => st
        end) st clauses in
    (filter (λ cp, not_used st cp = true) clauses, st).

(** ** [npn3_finder::operator()] (lines 63-70)

    The five finders run one after the other on the same vector. *)
Definition find_all (f : npn3_finder) (clauses : list nat) (st : store) :
    list nat * store :=
  let '(clauses, st) := find_mux f clauses st in
  let '(clauses, st) := find_maj f clauses st in
  let '(clauses, st) := find_orand f clauses st in
  let '(clauses, st) := find_andxor f clauses st in
  find_gamble f clauses st.

(** ** Reading the calls

    An assignment gives every literal a truth value.  It is a model of the
    finder's input when complementary literals get complementary values,
    when it follows every implication that [implies] reports, and when it
    satisfies the clauses at the positions [ps]. *)
Definition holds (ν : literal → bool) (ls : list literal) : Prop :=
  ∃ l, l ∈ ls ∧ ν l = true.

Definition model_of (f : npn3_finder) (ν : literal → bool) (ps : list nat)
    (st : store) : Prop :=
  (∀ l, ν (neg l) = negb (ν l)) ∧
  (∀ a b, implies f a b = true → ν a = true → ν b = true) ∧
  (∀ p c, p ∈ ps → objs st !! p = Some c → holds ν (c_lits c)).

(** The equation between the head and the inputs that the clauses behind a
    call amount to. *)
Definition gate_true (ν : literal → bool) (g : gate literal) : Prop :=
  match g with
  | on_mux head c t e => ν head = if ν c then ν t else ν e
  | on_maj head a b c => ν head = (ν a && ν b) || (ν a && ν c) || (ν b && ν c)
  | on_orand head a b c => ν head = ν a && (ν b || ν c)
  | on_andxor head a b c => ν head = negb (xorb (ν a) (ν b && ν c))
  | on_gamble head a b c =>
      ν head = (ν a && ν b && ν c) || (negb (ν a) && negb (ν b) && negb (ν c))
  end.

(** The literals of the clause at a position. *)
Definition lits_at (st : store) (p : nat) : option (list literal) :=
  c_lits <$> objs st !! p.

(** From one store to a later one: the clauses keep their places and their
    literals, and a clause that was used stays used. *)
Definition grows (st st' : store) : Prop :=
  (∀ p, lits_at st' p = lits_at st p) ∧
  (∀ p, not_used st p = false → not_used st' p = false).

(** What the tables hold: under the literals of an entry, a clause at one of
    the positions [src] with those literals. *)
Definition binaries_ok (st : store) (src : list nat) (binaries : binary_hash_table_t literal) : Prop :=
  ∀ k b, binaries !! k = Some b →
    k = binary_key b ∧
    ∀ u c2, (u, c2) ∈ default [] (use_list b) →
      ∃ p ls, c2 = Some p ∧ p ∈ src ∧ lits_at st p = Some ls ∧
              ls ≡ₚ [b_x b; b_y b; u].

Definition ternaries_ok (st : store) (src : list nat) (ternaries : ternary_hash_table_t literal) : Prop :=
  ∀ k t, ternaries !! k = Some t →
    k = ternary_key t ∧
    ∃ p ls, t_orig t = Some p ∧ p ∈ src ∧ lits_at st p = Some ls ∧
            ls ≡ₚ [t_x t; t_y t; t_z t].

Definition quaternaries_ok (st : store) (src : list nat)
    (quaternaries : quaternary_hash_table_t literal) : Prop :=
  ∀ k q, quaternaries !! k = Some q →
    k = quaternary_key q ∧
    ∃ p ls, q_orig q = Some p ∧ p ∈ src ∧ lits_at st p = Some ls ∧
            ls ≡ₚ [q_w q; q_x q; q_y q; q_z q].

(** One attempt on the clause at [cp]: it fails and leaves the store as it
    is, or it succeeds with one call [g], for which [Q] holds, and with the
    clause at [cp] used. *)
Definition attempt (Q : gate literal → Prop) (cp : nat) (st : store)
    (r : bool * store) : Prop :=
  if r.1 then
    ∃ g, calls r.2 = calls st ++ [g] ∧ Q g ∧ grows st r.2 ∧
         (is_Some (objs st !! cp) → not_used r.2 cp = false)
  else r.2 = st.

(** The clauses of [ps] that are used. *)
Definition used_count (st : store) (ps : list nat) : nat :=
  length (filter (λ p, not_used st p = false) ps).

(** How the five callbacks are told apart. *)
Definition is_mux (g : gate literal) : bool :=
  match g with on_mux _ _ _ _ => true | _ => false end.
Definition is_maj (g : gate literal) : bool :=
  match g with on_maj _ _ _ _ => true | _ => false end.
Definition is_orand (g : gate literal) : bool :=
  match g with on_orand _ _ _ _ => true | _ => false end.
Definition is_andxor (g : gate literal) : bool :=
  match g with on_andxor _ _ _ _ => true | _ => false end.
Definition is_gamble (g : gate literal) : bool :=
  match g with on_gamble _ _ _ _ => true | _ => false end.

(** What a finder reports on the clauses [clauses] from the store [st]:
    the calls [new] it makes, all of one kind and all true in every model of
    the clauses of the solver and of [clauses]; the clauses it leaves are
    among the ones it was given, every call costs at least one clause, and
    without a call no clause goes. *)
Definition reported (f : npn3_finder) (ν : literal → bool) (kind : gate literal → bool)
    (clauses : list nat) (st : store) (r : list nat * store) : Prop :=
  ∃ new, calls r.2 = calls st ++ new ∧
    Forall (λ g, kind g = true) new ∧
    (model_of f ν (learned (s f) ++ Npn3.clauses (s f) ++ clauses) st →
     Forall (gate_true ν) new) ∧
    (∀ p, lits_at r.2 p = lits_at st p) ∧
    r.1 `sublist_of` clauses ∧
    (length r.1 + length new ≤ length clauses)%nat ∧
    (new = [] → r.1 = clauses).

(** [(z, p)] is on the use list of the pair of [x] and [y]. *)
Definition in_use_list (binaries : binary_hash_table_t literal) (x y z : literal)
    (p : nat) : Prop :=
  ∃ e, binaries !! binary_key (mk_binary x y None) = Some e ∧
       (z, Some p) ∈ default [] (use_list e).

(** What the tables hold for the clause at [p], with the literals [c0], [c1]
    and [c2]: an entry for the three and, for each pair, the third on the
    use list. *)
Definition entered (tabs : binary_hash_table_t literal * ternary_hash_table_t literal)
    (c0 c1 c2 : literal) (p : nat) : Prop :=
  is_Some (tabs.2 !! ternary_key (mk_ternary c0 c1 c2 None)) ∧
  in_use_list tabs.1 c0 c1 c2 p ∧ in_use_list tabs.1 c0 c2 c1 p ∧
  in_use_list tabs.1 c2 c1 c0 p.

(** ** What the checkers look for

    The test that a checker makes on three (or four) literals, as a
    condition on the tables: it does not depend on the marks. *)
Definition mux_at (f : npn3_finder) (binaries : binary_hash_table_t literal)
    (ternaries : ternary_hash_table_t literal) (x y z : literal) : Prop :=
  is_Some (has_ternary f ternaries y (neg z) (neg x)) ∧
  ∃ b u c2, binaries !! binary_key (mk_binary (neg y) x None) = Some b ∧
    (u, c2) ∈ default [] (use_list b) ∧
    is_Some (has_ternary f ternaries (neg u) (neg x) (neg y)).

Definition maj_at (f : npn3_finder) (binaries : binary_hash_table_t literal)
    (ternaries : ternary_hash_table_t literal) (x y z : literal) : Prop :=
  is_Some (has_ternary f ternaries (neg x) (neg y) (neg z)) ∧
  ∃ b u c2, binaries !! binary_key (mk_binary x y None) = Some b ∧
    (u, c2) ∈ default [] (use_list b) ∧ u ≠ z ∧
    is_Some (has_ternary f ternaries x y u) ∧
    is_Some (has_ternary f ternaries (neg x) (neg y) (neg u)) ∧
    is_Some (has_ternary f ternaries x z u) ∧
    is_Some (has_ternary f ternaries (neg x) (neg z) (neg u)).

Definition orand_at (f : npn3_finder) (binaries : binary_hash_table_t literal)
    (ternaries : ternary_hash_table_t literal) (x y z : literal) : Prop :=
  implies f x (neg y) = true ∧
  ∃ b u c1, binaries !! binary_key (mk_binary x y None) = Some b ∧
    (u, c1) ∈ default [] (use_list b) ∧ u ≠ z ∧
    is_Some (has_ternary f ternaries (neg z) (neg u) (neg x)).

Definition gamble_at (f : npn3_finder) (quaternaries : quaternary_hash_table_t literal)
    (ternaries : ternary_hash_table_t literal) (w x y z : literal) : Prop :=
  is_Some (has_quaternary f quaternaries ternaries (neg x) (neg y) (neg z) w) ∧
  is_Some (has_ternary f ternaries (neg x) y (neg w)) ∧
  is_Some (has_ternary f ternaries (neg y) z (neg w)) ∧
  is_Some (has_ternary f ternaries x (neg z) (neg w)).

Definition andxor_at (f : npn3_finder) (quaternaries : quaternary_hash_table_t literal)
    (ternaries : ternary_hash_table_t literal) (w x y z : literal) : Prop :=
  is_Some (has_quaternary f quaternaries ternaries (neg x) y z (neg w)) ∧
  is_Some (has_ternary f ternaries (neg x) (neg y) w) ∧
  is_Some (has_ternary f ternaries (neg x) (neg z) w) ∧
  is_Some (has_ternary f ternaries x (neg y) (neg w)) ∧
  is_Some (has_ternary f ternaries x (neg z) (neg w)).

End Finder.
End Npn3.

(** ** Concrete clauses

    Literals as numbers: the index of a literal is twice its variable plus
    its sign, and the complement flips the lowest bit. *)
Module NpnDemo.
Import Npn3.

#[export] Instance lits : Literal N :=
  {| index := λ l, l; neg := λ l, N.lxor l 1; index_inj := λ x y H, H |}.

(** Clause objects, none of them used, and no call made. *)
Definition store_of (cls : list (list N)) : store N :=
  {| objs := (λ ls, {| c_lits := ls; c_used := false |}) <$> cls; calls := [] |}.

(** A finder on a solver with [n] clauses, none of them learned, the watch
    lists [wl], an implication graph without edges and every callback set. *)
Definition finder_of (n : nat) (wl : N → list (watched N)) : npn3_finder N :=
  {| s := {| learned := []; clauses := seq 0 n; get_wlist := wl |};
     m_big_connected := λ _ _, false;
     m_on_mux := true; m_on_maj := true; m_on_orand := true;
     m_on_andxor := true; m_on_gamble := true |}.

Definition no_watches : N → list (watched N) := λ _, [].

(** The assignment that makes every variable false: a literal is true when
    its index is odd. *)
Definition all_false : N → bool := N.odd.

(** With [x] = 1, [y] = 2, [z] = 4 and [u] = 6: [x ∨ y ∨ z], [y ∨ ¬z ∨ ¬x],
    [¬y ∨ x ∨ u] and [¬u ∨ ¬x ∨ ¬y]. *)
Definition mux_clauses : list (list N) :=
  [[1; 2; 4]; [2; 5; 0]; [3; 1; 6]; [7; 0; 3]]%N.

(** [x ∨ y ∨ z], [¬x ∨ ¬y ∨ ¬z], [x ∨ y ∨ u], [¬x ∨ ¬y ∨ ¬u], [x ∨ z ∨ u]
    and [¬x ∨ ¬z ∨ ¬u]. *)
Definition maj_clauses : list (list N) :=
  [[1; 2; 4]; [0; 3; 5]; [1; 2; 6]; [0; 3; 7]; [1; 4; 6]; [0; 5; 7]]%N.

(** With [x] = 0, [y] = 3, [z] = 4 and [u] = 6: [x ∨ y ∨ z], [x ∨ y ∨ u] and
    [¬z ∨ ¬u ∨ ¬x]; the binary clause [¬x ∨ ¬y] is on the watch list of
    [x]. *)
Definition orand_clauses : list (list N) :=
  [[0; 3; 4]; [0; 3; 6]; [5; 7; 1]]%N.

Definition orand_watches : N → list (watched N) :=
  λ l, if (l =? 0)%N then [{| is_binary_clause := true; get_literal := 2%N |}] else [].

(** With [w] = 1, [x] = 2, [y] = 4 and [z] = 6: [w ∨ x ∨ y ∨ z],
    [¬x ∨ ¬y ∨ ¬z ∨ w], [¬x ∨ y ∨ ¬w], [¬y ∨ z ∨ ¬w] and [x ∨ ¬z ∨ ¬w]. *)
Definition gamble_clauses : list (list N) :=
  [[1; 2; 4; 6]; [3; 5; 7; 1]; [3; 4; 0]; [5; 6; 0]; [2; 7; 0]]%N.

(** [w ∨ x ∨ y ∨ z], [¬x ∨ y ∨ z ∨ ¬w], [¬x ∨ ¬y ∨ w], [¬x ∨ ¬z ∨ w],
    [x ∨ ¬y ∨ ¬w] and [x ∨ ¬z ∨ ¬w]. *)
Definition andxor_clauses : list (list N) :=
  [[1; 2; 4; 6]; [3; 4; 6; 0]; [3; 5; 1]; [3; 7; 1]; [2; 5; 0]; [2; 7; 0]]%N.

(** The tables of the multiplexer clauses and of the gamble clauses. *)
Definition mux_tables :=
  process_clauses (finder_of 4 no_watches) (seq 0 4) (store_of mux_clauses).

Definition gamble_tables :=
  process_more_clauses (finder_of 5 no_watches) (seq 0 5) (store_of gamble_clauses).

(** The same clauses with one more clause, of fresh variables, that is part
    of no gate. *)
Definition with_spare3 (cls : list (list N)) : list (list N) := cls ++ [[8; 10; 12]%N].
Definition with_spare4 (cls : list (list N)) : list (list N) := cls ++ [[8; 10; 12; 14]%N].

(** The tables of a finder on all the clauses of its solver. *)
Definition tables_of (n : nat) (wl : N → list (watched N)) (cls : list (list N)) :=
  process_clauses (finder_of n wl) (seq 0 n) (store_of cls).

Definition more_tables_of (n : nat) (wl : N → list (watched N)) (cls : list (list N)) :=
  process_more_clauses (finder_of n wl) (seq 0 n) (store_of cls).

End NpnDemo.

(** * Properties *)

(** Case analysis along the branches of [worker_thread]. *)
Ltac worker_cases :=
  unfold worker_thread, verdict_of, cube_of, cube in *;
  try change (num_rounds (write_max_conflicts ?n ?s)) with (num_rounds s) in *;
  repeat case_match; simplify_eq/=;
  repeat match goal with
         | e : raised |- _ => destruct e; simpl in *
         | H : (_ =? _) = true |- _ => apply Z.eqb_eq in H
         | H : (_ =? _) = false |- _ => apply Z.eqb_neq in H
         end.

Section Facts.
Context {expr model statistics : Type} `{Countable expr}.
Context `{!Collaborators expr model statistics}.

Local Abbreviation context := (context expr model statistics).
Local Abbreviation answer := (answer expr model).
Local Abbreviation state := (state expr model statistics).

Implicit Types (s : state) (a : answer) (i k : nat) (evs : list (nat * answer)).

(** ** The parameters of the call *)

Lemma set_max_conflicts_same n (c : context) :
  m_max_conflicts (m_fparams c) = n → set_max_conflicts n c = c.
Proof. destruct c as [[]]. simpl. by intros <-. Qed.

Lemma set_max_conflicts_twice n m (c : context) :
  set_max_conflicts n (set_max_conflicts m c) = set_max_conflicts n c.
Proof. done. Qed.

(** ** What a worker leaves alone

    Of the primary context a worker changes [m_max_conflicts] in the
    parameters, nothing else. *)

Lemma worker_thread_frame i a s :
  (∀ n, set_max_conflicts n (ctx (worker_thread i a s)) = set_max_conflicts n (ctx s)) ∧
  num_threads (worker_thread i a s) = num_threads s ∧
  pasms (worker_thread i a s) = pasms s ∧
  num_rounds (worker_thread i a s) = num_rounds s ∧
  max_conflicts (worker_thread i a s) = max_conflicts s ∧
  unit_set (worker_thread i a s) = unit_set s ∧
  unit_trail (worker_thread i a s) = unit_trail s ∧
  unit_lim (worker_thread i a s) = unit_lim s ∧
  relayed (worker_thread i a s) = relayed s ∧
  length (pctxs (worker_thread i a s)) = length (pctxs s).
Proof.
  worker_cases; rewrite ?length_imap, ?length_insert, ?length_fmap; done.
Qed.

Lemma run_round_frame evs s :
  (∀ n, set_max_conflicts n (ctx (run_round evs s)) = set_max_conflicts n (ctx s)) ∧
  num_threads (run_round evs s) = num_threads s ∧
  pasms (run_round evs s) = pasms s ∧
  num_rounds (run_round evs s) = num_rounds s ∧
  max_conflicts (run_round evs s) = max_conflicts s ∧
  unit_set (run_round evs s) = unit_set s ∧
  unit_trail (run_round evs s) = unit_trail s ∧
  unit_lim (run_round evs s) = unit_lim s ∧
  relayed (run_round evs s) = relayed s ∧
  length (pctxs (run_round evs s)) = length (pctxs s).
Proof.
  revert s; induction evs as [|[i a] evs IH]; intros s; [done|].
  change (run_round ((i, a) :: evs) s) with (run_round evs (worker_thread i a s)).
  destruct (IH (worker_thread i a s)) as (Hc & -> & -> & -> & -> & -> & -> & -> & -> & ->).
  destruct (worker_thread_frame i a s) as (Hc0 & Hrest).
  split; [|exact Hrest]. intros n. by rewrite Hc, Hc0.
Qed.

(** The verdict of an answer is the same wherever in the round it is read. *)
Lemma verdict_of_stable s s' i a :
  num_rounds s' = num_rounds s → max_conflicts s' = max_conflicts s →
  pasms s' = pasms s → length (pctxs s') = length (pctxs s) →
  verdict_of s' i a = verdict_of s i a.
Proof.
  intros Hr Hm Hp Hl. unfold verdict_of. rewrite Hr, Hm, Hp.
  destruct (pctxs s !! i) as [c|] eqn:Hi.
  - apply lookup_lt_Some in Hi. rewrite <- Hl in Hi.
    apply lookup_lt_is_Some in Hi as [c' ->]. done.
  - apply lookup_ge_None in Hi. rewrite <- Hl in Hi.
    apply lookup_ge_None in Hi as ->. done.
Qed.

Lemma verdict_of_worker_thread s j b i a :
  verdict_of (worker_thread j b s) i a = verdict_of s i a.
Proof.
  destruct (worker_thread_frame j b s) as (_ & _ & ? & ? & ? & _ & _ & _ & _ & ?).
  by apply verdict_of_stable.
Qed.

Lemma first_decision_worker_thread s j b evs :
  first_decision (worker_thread j b s) evs = first_decision s evs.
Proof.
  induction evs as [|[i a] evs IH]; [done|]. simpl.
  rewrite verdict_of_worker_thread, IH. done.
Qed.

Lemma last_fault_worker_thread s j b evs :
  last_fault (worker_thread j b s) evs = last_fault s evs.
Proof.
  induction evs as [|[i a] evs IH]; [done|]. simpl.
  rewrite verdict_of_worker_thread, IH. done.
Qed.

(** ** What a worker does to the shared locals, by verdict *)

Lemma worker_thread_invalid i a s :
  verdict_of s i a = None → worker_thread i a s = s.
Proof. intros; worker_cases; done. Qed.

Lemma worker_thread_silent i a s :
  verdict_of s i a = Some exhausted ∨ verdict_of s i a = Some cube_refuted →
  result (worker_thread i a s) = result s ∧
  finished_id (worker_thread i a s) = finished_id s ∧
  done (worker_thread i a s) = done s ∧
  ex_kind (worker_thread i a s) = ex_kind s ∧
  error_code (worker_thread i a s) = error_code s ∧
  ex_msg (worker_thread i a s) = ex_msg s.
Proof. intros [?|?]; worker_cases; done || congruence. Qed.

Lemma worker_thread_decides_first i a s r :
  verdict_of s i a = Some (decides r) → finished_id s = UINT_MAX →
  result (worker_thread i a s) = r ∧
  finished_id (worker_thread i a s) = u32 (Z.of_nat i) ∧
  done (worker_thread i a s) = true ∧
  ex_kind (worker_thread i a s) = ex_kind s ∧
  error_code (worker_thread i a s) = error_code s ∧
  ex_msg (worker_thread i a s) = ex_msg s.
Proof. intros ? Hf; worker_cases; done || congruence. Qed.

Lemma worker_thread_decides_late i a s r :
  verdict_of s i a = Some (decides r) → finished_id s ≠ UINT_MAX →
  result (worker_thread i a s) = result s ∧
  finished_id (worker_thread i a s) = finished_id s ∧
  done (worker_thread i a s) = done s ∧
  ex_kind (worker_thread i a s) = ex_kind s ∧
  error_code (worker_thread i a s) = error_code s ∧
  ex_msg (worker_thread i a s) = ex_msg s.
Proof. intros ? Hf; worker_cases; done || congruence. Qed.

Lemma worker_thread_faults i a s e :
  verdict_of s i a = Some (faults e) →
  result (worker_thread i a s) = result s ∧
  finished_id (worker_thread i a s) = finished_id s ∧
  done (worker_thread i a s) = true ∧
  captured (worker_thread i a s) e.
Proof. intros ?; worker_cases; done || congruence. Qed.

Lemma worker_thread_race_kept i a s :
  finished_id s ≠ UINT_MAX →
  finished_id (worker_thread i a s) = finished_id s ∧
  result (worker_thread i a s) = result s.
Proof.
  intros Hf. destruct (verdict_of s i a) as [[| |r|e]|] eqn:Hv.
  - destruct (worker_thread_silent i a s) as (? & ? & _); auto.
  - destruct (worker_thread_silent i a s) as (? & ? & _); auto.
  - destruct (worker_thread_decides_late i a s r) as (? & ? & _); auto.
  - destruct (worker_thread_faults i a s e) as (? & ? & _); auto.
  - by rewrite worker_thread_invalid.
Qed.

Lemma worker_thread_done_mono i a s :
  done s = true → done (worker_thread i a s) = true.
Proof.
  intros Hd. destruct (verdict_of s i a) as [[| |r|e]|] eqn:Hv.
  - destruct (worker_thread_silent i a s) as (_ & _ & -> & _); auto.
  - destruct (worker_thread_silent i a s) as (_ & _ & -> & _); auto.
  - destruct (decide (finished_id s = UINT_MAX)).
    + destruct (worker_thread_decides_first i a s r) as (_ & _ & -> & _); auto.
    + destruct (worker_thread_decides_late i a s r) as (_ & _ & -> & _); auto.
  - destruct (worker_thread_faults i a s e) as (_ & _ & -> & _); auto.
  - by rewrite worker_thread_invalid.
Qed.

Lemma run_round_cons i a evs s :
  run_round ((i, a) :: evs) s = run_round evs (worker_thread i a s).
Proof. done. Qed.

Lemma run_round_race_kept evs s :
  finished_id s ≠ UINT_MAX →
  finished_id (run_round evs s) = finished_id s ∧
  result (run_round evs s) = result s.
Proof.
  revert s; induction evs as [|[i a] evs IH]; intros s Hf; [done|].
  rewrite run_round_cons.
  destruct (worker_thread_race_kept i a s Hf) as [Hi Hr].
  destruct (IH (worker_thread i a s)) as [-> ->]; [congruence|done].
Qed.

Lemma run_round_done_mono evs s :
  done s = true → done (run_round evs s) = true.
Proof.
  revert s; induction evs as [|[i a] evs IH]; intros s Hd; [done|].
  rewrite run_round_cons. by apply IH, worker_thread_done_mono.
Qed.

(** A valid worker index is an [unsigned] below [UINT_MAX]. *)
Lemma valid_index_u32 s i a :
  Z.of_nat (length (pctxs s)) ≤ UINT_MAX → is_Some (verdict_of s i a) →
  u32 (Z.of_nat i) = Z.of_nat i ∧ Z.of_nat i ≠ UINT_MAX.
Proof.
  intros Hn [v Hv]. unfold verdict_of in Hv.
  destruct (pctxs s !! i) as [c|] eqn:Hi; [|done].
  apply lookup_lt_Some in Hi. unfold u32, UINT_MAX in *.
  rewrite Z.mod_small; lia.
Qed.

(** The race within one round: the first worker to reach the guarded
    section is recorded, whatever comes later. *)
Lemma run_round_race evs s :
  Z.of_nat (length (pctxs s)) ≤ UINT_MAX → finished_id s = UINT_MAX →
  match first_decision s evs with
  | Some (i, r) =>
      finished_id (run_round evs s) = Z.of_nat i ∧
      result (run_round evs s) = r ∧
      done (run_round evs s) = true
  | None =>
      finished_id (run_round evs s) = UINT_MAX ∧
      result (run_round evs s) = result s
  end.
Proof.
  revert s; induction evs as [|[i a] evs IH]; intros s Hn Hf; [done|].
  rewrite run_round_cons. simpl.
  assert (Hlen : length (pctxs (worker_thread i a s)) = length (pctxs s))
    by apply worker_thread_frame.
  specialize (IH (worker_thread i a s)).
  rewrite first_decision_worker_thread, Hlen in IH.
  destruct (verdict_of s i a) as [[| |r|e]|] eqn:Hv.
  - destruct (worker_thread_silent i a s) as (Hr & Hi & _); [by left|].
    rewrite Hi, Hr in IH. by apply IH.
  - destruct (worker_thread_silent i a s) as (Hr & Hi & _); [by right|].
    rewrite Hi, Hr in IH. by apply IH.
  - destruct (worker_thread_decides_first i a s r) as (Hr & Hi & Hd & _); [done..|].
    destruct (valid_index_u32 s i a) as [Hu Hne]; [done|by rewrite Hv|].
    rewrite Hu in Hi.
    destruct (run_round_race_kept evs (worker_thread i a s)) as [-> ->]; [congruence|].
    split_and!; [done..|]. by apply run_round_done_mono.
  - destruct (worker_thread_faults i a s e) as (Hr & Hi & _); [done|].
    rewrite Hi, Hr in IH. by apply IH.
  - rewrite worker_thread_invalid in * by done. by apply IH.
Qed.

(** The capture within one round: every handler overwrites it, so the last
    one to run is the one that stays. *)
Lemma run_round_capture evs s :
  match last_fault s evs with
  | Some e => captured (run_round evs s) e ∧ done (run_round evs s) = true
  | None =>
      ex_kind (run_round evs s) = ex_kind s ∧
      error_code (run_round evs s) = error_code s ∧
      ex_msg (run_round evs s) = ex_msg s
  end.
Proof.
  revert s; induction evs as [|[i a] evs IH]; intros s; [done|].
  rewrite run_round_cons. simpl.
  specialize (IH (worker_thread i a s)). rewrite last_fault_worker_thread in IH.
  destruct (last_fault s evs) as [e|]; [done|].
  destruct IH as (Hk & Hc & Hm).
  destruct (verdict_of s i a) as [[| |r|e]|] eqn:Hv.
  - destruct (worker_thread_silent i a s) as (_ & _ & _ & ? & ? & ?); [by left|].
    split_and!; congruence.
  - destruct (worker_thread_silent i a s) as (_ & _ & _ & ? & ? & ?); [by right|].
    split_and!; congruence.
  - destruct (decide (finished_id s = UINT_MAX)).
    + destruct (worker_thread_decides_first i a s r) as (_ & _ & _ & ? & ? & ?); [done..|].
      split_and!; congruence.
    + destruct (worker_thread_decides_late i a s r) as (_ & _ & _ & ? & ? & ?); [done..|].
      split_and!; congruence.
  - destruct (worker_thread_faults i a s e) as (_ & _ & Hd & Hcap); [done|].
    split; [|by apply run_round_done_mono].
    destruct e; unfold captured in *; destruct Hcap; split; congruence.
  - rewrite worker_thread_invalid in * by done. done.
Qed.

(** A round leaves [done] unset exactly when nobody decides and nobody
    faults. *)
Lemma run_round_done evs s :
  done s = false → finished_id s = UINT_MAX →
  done (run_round evs s) = true ↔
  (∃ i a v, (i, a) ∈ evs ∧ verdict_of s i a = Some v ∧
            v ≠ exhausted ∧ v ≠ cube_refuted).
Proof.
  revert s; induction evs as [|[i a] evs IH]; intros s Hd Hf.
  { simpl. split; [congruence|]. intros (? & ? & ? & Hin & _). by apply elem_of_nil in Hin. }
  rewrite run_round_cons.
  assert (Hst : ∀ j b, verdict_of (worker_thread i a s) j b = verdict_of s j b)
    by (intros; apply verdict_of_worker_thread).
  destruct (verdict_of s i a) as [[| |r|e]|] eqn:Hv.
  1,2: destruct (worker_thread_silent i a s) as (_ & Hf' & Hd' & _); [by auto|];
       rewrite IH by congruence; split;
       [ intros (j & b & v & Hin & Hv' & Hne1 & Hne2); exists j, b, v;
         rewrite Hst in Hv'; split_and!; [by right|done..]
       | intros (j & b & v & Hin & Hv' & Hne1 & Hne2);
         apply elem_of_cons in Hin as [Heq|Hin]; [simplify_eq|];
         exists j, b, v; by rewrite Hst ].
  - destruct (worker_thread_decides_first i a s r) as (_ & _ & Hd' & _); [done..|].
    rewrite run_round_done_mono by done. split; [intros _|done].
    exists i, a, (decides r). split_and!; [left|..]; done.
  - destruct (worker_thread_faults i a s e) as (_ & _ & Hd' & _); [done|].
    rewrite run_round_done_mono by done. split; [intros _|done].
    exists i, a, (faults e). split_and!; [left|..]; done.
  - rewrite worker_thread_invalid in * by done.
    rewrite IH by done. split.
    + intros (j & b & v & Hin & Hv' & Hne1 & Hne2). exists j, b, v.
      split_and!; [by right|done..].
    + intros (j & b & v & Hin & Hv' & Hne1 & Hne2).
      apply elem_of_cons in Hin as [Heq|Hin]; [simplify_eq|].
      exists j, b, v. done.
Qed.

End Facts.

Section Relay.
Context {expr model statistics : Type} `{Countable expr}.
Context `{!Collaborators expr model statistics}.

Local Abbreviation context := (context expr model statistics).
Local Abbreviation state := (state expr model statistics).

Implicit Types (s : state) (pctx : context) (i j : nat) (us : gset expr * list expr).

(** ** The inner loop of the first pass *)

Lemma publish_fact i pctx us lit :
  publish i pctx us lit =
  if decide (unit_fact i pctx lit ∈ us.1) then us
  else ({[unit_fact i pctx lit]} ∪ us.1, us.2 ++ [unit_fact i pctx lit]).
Proof. done. Qed.

Lemma publish_coherent i pctx us lit :
  coherent us → coherent (publish i pctx us lit).
Proof.
  intros [Hnd Hset]. rewrite publish_fact. case_decide as Hin; [done|].
  split; simpl.
  - apply NoDup_app. split_and!; [done| |apply NoDup_singleton].
    intros e He Heq%list_elem_of_singleton. subst e. apply Hin, Hset, He.
  - intros e. rewrite elem_of_union, elem_of_singleton, elem_of_app,
      list_elem_of_singleton, Hset. tauto.
Qed.

Lemma publish_loop i pctx lits us :
  coherent us →
  coherent (foldl (publish i pctx) us lits) ∧
  us.2 `prefix_of` (foldl (publish i pctx) us lits).2 ∧
  (∀ lit, lit ∈ lits → unit_fact i pctx lit ∈ (foldl (publish i pctx) us lits).2) ∧
  (∀ e, e ∈ (foldl (publish i pctx) us lits).2 →
        e ∈ us.2 ∨ ∃ lit, lit ∈ lits ∧ e = unit_fact i pctx lit).
Proof.
  revert us; induction lits as [|lit lits IH]; intros us Hc; simpl.
  { split_and!; [done|done| |by left]. intros ? Hin. by apply elem_of_nil in Hin. }
  destruct (IH (publish i pctx us lit)) as (Hc' & Hpre & Hcov & Hfrom);
    [by apply publish_coherent|].
  assert (Hstep : us.2 `prefix_of` (publish i pctx us lit).2).
  { rewrite publish_fact. case_decide; [done|]. by apply prefix_app_r. }
  assert (Hnew : unit_fact i pctx lit ∈ (publish i pctx us lit).2).
  { rewrite publish_fact. case_decide as Hin; simpl.
    - by apply Hc.
    - apply elem_of_app. right. by apply list_elem_of_singleton. }
  split_and!; [done|by etrans| |].
  - intros l [Heq|Hin]%elem_of_cons; [subst l|by apply Hcov].
    destruct Hpre as [k ->]. apply elem_of_app. by left.
  - intros e [He|(l & Hl & Heq)]%Hfrom.
    + revert He. rewrite publish_fact. case_decide; simpl; [by left|].
      intros [?|Heq%list_elem_of_singleton]%elem_of_app; [by left|].
      right. exists lit. split; [by left|done].
    + right. exists l. split; [by right|done].
Qed.

(** Literals whose facts the set already has leave the trail as it is. *)
Lemma publish_known i pctx lits us :
  coherent us → (∀ lit, lit ∈ lits → unit_fact i pctx lit ∈ us.2) →
  foldl (publish i pctx) us lits = us.
Proof.
  intros Hc. induction lits as [|lit lits IH]; intros Hall; simpl; [done|].
  rewrite publish_fact. rewrite decide_True.
  - apply IH. intros l Hl. apply Hall. by right.
  - apply Hc, Hall. by left.
Qed.

(** ** The two passes *)

Lemma same_call_refl s : same_call s s.
Proof. by repeat split. Qed.

Lemma same_call_trans s1 s2 s3 : same_call s1 s2 → same_call s2 s3 → same_call s1 s3.
Proof. unfold same_call. intros ? ?. split_and!; destruct_and!; congruence. Qed.

Lemma gather_spec s i :
  coherent (unit_set s, unit_trail s) →
  same_call s (gather s i) ∧
  unit_lim (gather s i) = unit_lim s ∧
  relayed (gather s i) = relayed s ∧
  coherent (unit_set (gather s i), unit_trail (gather s i)) ∧
  unit_trail s `prefix_of` unit_trail (gather s i) ∧
  (∀ j, j ≠ i → pctxs (gather s i) !! j = pctxs s !! j) ∧
  (∀ pctx lim, pctxs s !! i = Some pctx → unit_lim s !! i = Some lim →
     pctxs (gather s i) !! i = Some (pop_to_base_lvl pctx) ∧
     ∀ lit, lit ∈ drop lim (assigned_literals (pop_to_base_lvl pctx)) →
            unit_fact i (pop_to_base_lvl pctx) lit ∈ unit_trail (gather s i)).
Proof.
  intros Hc. unfold gather.
  destruct (pctxs s !! i) as [pctx|] eqn:Hi; [|by split_and!; try apply same_call_refl].
  destruct (unit_lim s !! i) as [lim|] eqn:Hl; [|by split_and!; try apply same_call_refl].
  destruct (publish_loop i (pop_to_base_lvl pctx)
              (drop lim (assigned_literals (pop_to_base_lvl pctx)))
              (unit_set s, unit_trail s) Hc) as (Hc' & Hpre & Hcov & _).
  split_and!.
  - unfold same_call, with_units; simpl. rewrite length_insert. by split_and!.
  - done.
  - done.
  - unfold with_units; simpl. by destruct (foldl _ _ _).
  - exact Hpre.
  - intros j Hj. unfold with_units; simpl. by rewrite list_lookup_insert_ne.
  - intros ? ? [= <-] [= <-]. split; [|exact Hcov].
    unfold with_units; simpl. apply list_lookup_insert_eq. by eapply lookup_lt_Some.
Qed.

Lemma gather_loop (l : list nat) s :
  NoDup l → coherent (unit_set s, unit_trail s) →
  same_call s (foldl gather s l) ∧
  unit_lim (foldl gather s l) = unit_lim s ∧
  relayed (foldl gather s l) = relayed s ∧
  coherent (unit_set (foldl gather s l), unit_trail (foldl gather s l)) ∧
  unit_trail s `prefix_of` unit_trail (foldl gather s l) ∧
  (∀ j, j ∉ l → pctxs (foldl gather s l) !! j = pctxs s !! j) ∧
  (∀ j pctx lim, j ∈ l → pctxs s !! j = Some pctx → unit_lim s !! j = Some lim →
     pctxs (foldl gather s l) !! j = Some (pop_to_base_lvl pctx) ∧
     ∀ lit, lit ∈ drop lim (assigned_literals (pop_to_base_lvl pctx)) →
            unit_fact j (pop_to_base_lvl pctx) lit ∈ unit_trail (foldl gather s l)).
Proof.
  intros Hnd. revert s. induction Hnd as [|i l Hi Hnd IH]; intros s Hc; simpl.
  { split_and!; try done; try apply same_call_refl.
    all: intros ? ? ? Hin; by apply elem_of_nil in Hin. }
  destruct (gather_spec s i Hc) as (Hsame & Hlim & Hrel & Hc' & Hpre & Hoth & Hown).
  destruct (IH (gather s i) Hc') as (Hsame' & Hlim' & Hrel' & Hc'' & Hpre' & Hoth' & Hown').
  split_and!; [by eapply same_call_trans|congruence|congruence|done|by etrans| |].
  - intros j Hj. apply not_elem_of_cons in Hj as [Hne Hj].
    rewrite Hoth' by done. by apply Hoth.
  - intros j pctx lim [Heq|Hin]%elem_of_cons Hj Hl.
    + subst j. destruct (Hown pctx lim Hj Hl) as [Hp Hcov].
      rewrite Hoth' by done. split; [done|].
      intros lit Hlit. destruct Hpre' as [k ->]. apply elem_of_app. left. by apply Hcov.
    + assert (j ≠ i) by (intros ->; done).
      apply Hown'; [done| |congruence]. by rewrite Hoth.
Qed.

Lemma assert_batch_formulas (f : expr → expr) pctx (batch : list expr) :
  m_asserted_formulas (foldl (λ p e, assert_expr (f e) p) pctx batch) =
  m_asserted_formulas pctx ++ (f <$> batch).
Proof.
  revert pctx; induction batch as [|e batch IH]; intros pctx; simpl.
  - by rewrite app_nil_r.
  - rewrite IH. simpl. by rewrite <- app_assoc.
Qed.

Lemma scatter_spec sz s i :
  same_call s (scatter sz s i) ∧
  unit_set (scatter sz s i) = unit_set s ∧
  unit_trail (scatter sz s i) = unit_trail s ∧
  length (unit_lim (scatter sz s i)) = length (unit_lim s) ∧
  length (relayed (scatter sz s i)) = length (relayed s) ∧
  (∀ j, j ≠ i → pctxs (scatter sz s i) !! j = pctxs s !! j ∧
                unit_lim (scatter sz s i) !! j = unit_lim s !! j ∧
                relayed (scatter sz s i) !! j = relayed s !! j) ∧
  (∀ pctx lim, pctxs s !! i = Some pctx → unit_lim s !! i = Some lim →
     pctxs (scatter sz s i) !! i =
       Some (foldl (λ p e, assert_expr (translate primary (worker i) e) p) pctx
                   (drop lim (take sz (unit_trail s)))) ∧
     unit_lim (scatter sz s i) !! i = Some sz ∧
     relayed (scatter sz s i) !! i =
       (λ l, l ++ drop lim (take sz (unit_trail s))) <$> relayed s !! i).
Proof.
  unfold scatter.
  destruct (pctxs s !! i) as [pctx|] eqn:Hi; [|by split_and!; try apply same_call_refl].
  destruct (unit_lim s !! i) as [lim|] eqn:Hl; [|by split_and!; try apply same_call_refl].
  split_and!.
  - unfold same_call, with_lim; simpl. rewrite length_insert. by split_and!.
  - done.
  - done.
  - unfold with_lim; simpl. by rewrite length_insert.
  - unfold with_lim; simpl. by rewrite length_alter.
  - intros j Hj. unfold with_lim; simpl.
    rewrite !list_lookup_insert_ne, list_lookup_alter_ne by done. done.
  - intros ? ? [= <-] [= <-]. unfold with_lim; simpl.
    rewrite !list_lookup_insert_eq by (by eapply lookup_lt_Some).
    by rewrite list_lookup_alter_eq.
Qed.

Lemma scatter_loop sz (l : list nat) s :
  NoDup l →
  same_call s (foldl (scatter sz) s l) ∧
  unit_set (foldl (scatter sz) s l) = unit_set s ∧
  unit_trail (foldl (scatter sz) s l) = unit_trail s ∧
  length (unit_lim (foldl (scatter sz) s l)) = length (unit_lim s) ∧
  length (relayed (foldl (scatter sz) s l)) = length (relayed s) ∧
  (∀ j, j ∉ l → pctxs (foldl (scatter sz) s l) !! j = pctxs s !! j ∧
                unit_lim (foldl (scatter sz) s l) !! j = unit_lim s !! j ∧
                relayed (foldl (scatter sz) s l) !! j = relayed s !! j) ∧
  (∀ j pctx lim, j ∈ l → pctxs s !! j = Some pctx → unit_lim s !! j = Some lim →
     pctxs (foldl (scatter sz) s l) !! j =
       Some (foldl (λ p e, assert_expr (translate primary (worker j) e) p) pctx
                   (drop lim (take sz (unit_trail s)))) ∧
     unit_lim (foldl (scatter sz) s l) !! j = Some sz ∧
     relayed (foldl (scatter sz) s l) !! j =
       (λ l, l ++ drop lim (take sz (unit_trail s))) <$> relayed s !! j).
Proof.
  intros Hnd. revert s. induction Hnd as [|i l Hi Hnd IH]; intros s; simpl.
  { split_and!; try done; try apply same_call_refl.
    all: intros ? ? ? Hin; by apply elem_of_nil in Hin. }
  destruct (scatter_spec sz s i) as (Hsame & Hset & Htr & Hll & Hlr & Hoth & Hown).
  destruct (IH (scatter sz s i)) as (Hsame' & Hset' & Htr' & Hll' & Hlr' & Hoth' & Hown').
  split_and!; [by eapply same_call_trans|congruence..| |].
  - intros j Hj. apply not_elem_of_cons in Hj as [Hne Hj].
    destruct (Hoth' j Hj) as (-> & -> & ->). by apply Hoth.
  - intros j pctx lim [Heq|Hin]%elem_of_cons Hj Hl.
    + subst j. destruct (Hoth' i Hi) as (-> & -> & ->). by apply Hown.
    + assert (j ≠ i) by (intros ->; done).
      destruct (Hoth j) as (Hp & Hli & Hre); [done|].
      rewrite <- Htr, <- Hre. apply Hown'; [done|congruence..].
Qed.

Lemma take_prefix_of (l1 l2 : list expr) n :
  l1 `prefix_of` l2 → (n ≤ length l1)%nat → take n l2 = take n l1.
Proof. intros [k ->] Hn. by rewrite take_app_le. Qed.

(** The relay as a whole, from a state in which the invariant holds. *)
Lemma collect_units_spec s :
  relay_inv s →
  same_call s (collect_units s) ∧
  relay_inv (collect_units s) ∧
  unit_trail s `prefix_of` unit_trail (collect_units s) ∧
  (∀ i lim, unit_lim s !! i = Some lim →
     unit_lim (collect_units s) !! i = Some (length (unit_trail (collect_units s)))) ∧
  (∀ i pctx lim, pctxs s !! i = Some pctx → unit_lim s !! i = Some lim →
     pctxs (collect_units s) !! i =
       Some (foldl (λ p e, assert_expr (translate primary (worker i) e) p)
                   (pop_to_base_lvl pctx)
                   (drop lim (unit_trail (collect_units s)))) ∧
     ∀ lit, lit ∈ drop lim (assigned_literals (pop_to_base_lvl pctx)) →
            unit_fact i (pop_to_base_lvl pctx) lit ∈ unit_trail (collect_units s)).
Proof.
  intros ((Hlp & Hla & Hll & Hlr) & Hc & Hinv). unfold collect_units.
  set (n := num_threads s) in *.
  destruct (gather_loop (seq 0 n) s) as (Hs1 & Hlim1 & Hrel1 & Hc1 & Hpre1 & _ & Hown1);
    [apply NoDup_seq|done|].
  set (s1 := foldl gather s (seq 0 n)) in *.
  assert (Hn1 : num_threads s1 = n) by apply Hs1. rewrite Hn1.
  set (sz := length (unit_trail s1)).
  destruct (scatter_loop sz (seq 0 n) s1) as (Hs2 & Hset2 & Htr2 & Hll2 & Hlr2 & _ & Hown2);
    [apply NoDup_seq|].
  set (s2 := foldl (scatter sz) s1 (seq 0 n)) in *.
  assert (Hin : ∀ i, (i < n)%nat → i ∈ seq 0 n).
  { intros i Hi. apply elem_of_seq. lia. }
  assert (Hsz : sz = length (unit_trail s2)) by (by rewrite Htr2).
  assert (Hstep : ∀ i pctx lim, pctxs s !! i = Some pctx → unit_lim s !! i = Some lim →
    pctxs s2 !! i =
      Some (foldl (λ p e, assert_expr (translate primary (worker i) e) p)
                  (pop_to_base_lvl pctx) (drop lim (unit_trail s2))) ∧
    unit_lim s2 !! i = Some sz ∧
    relayed s2 !! i = Some (unit_trail s2) ∧
    ∀ lit, lit ∈ drop lim (assigned_literals (pop_to_base_lvl pctx)) →
           unit_fact i (pop_to_base_lvl pctx) lit ∈ unit_trail s2).
  { intros i pctx lim Hi Hl.
    assert (Hlt : (i < n)%nat) by (rewrite <- Hlp; by eapply lookup_lt_Some).
    destruct (Hown1 i pctx lim) as [Hp1 Hcov]; [by apply Hin|done..|].
    destruct (Hown2 i (pop_to_base_lvl pctx) lim) as (Hp2 & Hl2 & Hr2);
      [by apply Hin|done|congruence|].
    destruct (Hinv i lim Hl) as (Hle & Hrel & _).
    rewrite Htr2. unfold sz in Hp2, Hr2. rewrite firstn_all in Hp2, Hr2.
    split_and!; [done|done| |done].
    rewrite Hr2, Hrel1, Hrel. simpl.
    rewrite <- (take_prefix_of _ _ lim Hpre1 Hle). by rewrite take_drop. }
  split_and!.
  - by eapply same_call_trans.
  - split_and!.
    + unfold sized. destruct Hs2 as (_ & -> & -> & _ & _ & _ & _ & _ & _ & _ & _ & ->).
      destruct Hs1 as (_ & -> & -> & _ & _ & _ & _ & _ & _ & _ & _ & ->).
      rewrite Hll2, Hlr2, Hlim1, Hrel1. done.
    + by rewrite Hset2, Htr2.
    + intros i lim' Hl'.
      assert (Hlt : (i < n)%nat).
      { rewrite <- Hll, <- Hlim1, <- Hll2. by eapply lookup_lt_Some. }
      destruct (lookup_lt_is_Some_2 (unit_lim s) i) as [lim Hl]; [by rewrite Hll|].
      destruct (lookup_lt_is_Some_2 (pctxs s) i) as [pctx Hi]; [by rewrite Hlp|].
      destruct (Hstep i pctx lim Hi Hl) as (Hp2 & Hl2 & Hr2 & _).
      destruct (Hinv i lim Hl) as (Hle & _ & Hass).
      assert (lim' = length (unit_trail s2)) as -> by congruence.
      rewrite firstn_all. split_and!; [done|done|].
      intros pctx' e Hp' He. rewrite Hp2 in Hp'. injection Hp' as <-.
      rewrite assert_batch_formulas. apply elem_of_app.
      rewrite <- (take_drop lim (unit_trail s2)) in He.
      apply elem_of_app in He as [He|He].
      * left. apply (Hass pctx e Hi).
        rewrite <- (take_prefix_of (unit_trail s) (unit_trail s2) lim); [done| |done].
        by rewrite Htr2.
      * right. by apply list_elem_of_fmap_2.
  - by rewrite Htr2.
  - intros i lim Hl.
    destruct (lookup_lt_is_Some_2 (pctxs s) i) as [pctx Hi].
    { rewrite Hlp, <- Hll. by eapply lookup_lt_Some. }
    destruct (Hstep i pctx lim Hi Hl) as (_ & -> & _). by rewrite Hsz.
  - intros i pctx lim Hi Hl.
    destruct (Hstep i pctx lim Hi Hl) as (Hp2 & _ & _ & Hcov). done.
Qed.

(** Where the facts of the trail come from: a relay adds only facts read
    off the logs from the offsets on. *)
Lemma gather_loop_origin (l : list nat) s e :
  NoDup l → coherent (unit_set s, unit_trail s) →
  e ∈ unit_trail (foldl gather s l) →
  e ∈ unit_trail s ∨
  ∃ i pctx lim lit, i ∈ l ∧ pctxs s !! i = Some pctx ∧ unit_lim s !! i = Some lim ∧
    lit ∈ drop lim (assigned_literals (pop_to_base_lvl pctx)) ∧
    e = unit_fact i (pop_to_base_lvl pctx) lit.
Proof.
  intros Hnd. revert s. induction Hnd as [|i l Hi Hnd IH]; intros s Hc He; [by left|].
  simpl in He.
  destruct (gather_spec s i Hc) as (_ & Hlim & _ & Hc' & _ & Hoth & _).
  destruct (IH (gather s i) Hc' He) as [Hin|(j & pctx & lim & lit & Hj & Hp & Hl & Hlit & ->)].
  - unfold gather in Hin.
    destruct (pctxs s !! i) as [pctx|] eqn:Hp; [|by left].
    destruct (unit_lim s !! i) as [lim|] eqn:Hl; [|by left].
    simpl in Hin.
    destruct (publish_loop i (pop_to_base_lvl pctx)
                (drop lim (assigned_literals (pop_to_base_lvl pctx)))
                (unit_set s, unit_trail s) Hc) as (_ & _ & _ & Hfrom).
    destruct (Hfrom e Hin) as [?|(lit & Hlit & ->)]; [by left|].
    right. exists i, pctx, lim, lit. split_and!; [by left|done..].
  - right. exists j, pctx, lim, lit.
    assert (j ≠ i) by (intros ->; done).
    split_and!; [by right| |congruence|done..]. by rewrite <- Hoth.
Qed.

Lemma collect_units_origin s e :
  relay_inv s → e ∈ unit_trail (collect_units s) →
  e ∈ unit_trail s ∨
  ∃ i pctx lim lit, pctxs s !! i = Some pctx ∧ unit_lim s !! i = Some lim ∧
    lit ∈ drop lim (assigned_literals (pop_to_base_lvl pctx)) ∧
    e = unit_fact i (pop_to_base_lvl pctx) lit.
Proof.
  intros (_ & Hc & _) He. unfold collect_units in He.
  destruct (scatter_loop (length (unit_trail (foldl gather s (seq 0 (num_threads s)))))
              (seq 0 (num_threads (foldl gather s (seq 0 (num_threads s)))))
              (foldl gather s (seq 0 (num_threads s)))) as (_ & _ & Htr & _);
    [apply NoDup_seq|].
  rewrite Htr in He.
  destruct (gather_loop_origin _ s e (NoDup_seq _ _) Hc He)
    as [?|(i & pctx & lim & lit & _ & ? & ? & ? & ?)]; [by left|].
  right. by exists i, pctx, lim, lit.
Qed.

Lemma elem_of_drop_le {A} (l : list A) (n m : nat) x :
  (n ≤ m)%nat → x ∈ drop m l → x ∈ drop n l.
Proof.
  intros Hle Hx. replace m with (n + (m - n))%nat in Hx by lia.
  rewrite <- drop_drop in Hx. apply list_elem_of_lookup in Hx as [i Hi].
  rewrite lookup_drop in Hi. by eapply list_elem_of_lookup_2.
Qed.

(** When the literals to be read have their facts on the trail already,
    the first pass leaves the trail as it is. *)
Lemma gather_no_news (l : list nat) s :
  NoDup l → coherent (unit_set s, unit_trail s) →
  (∀ i pctx lim lit, i ∈ l → pctxs s !! i = Some pctx → unit_lim s !! i = Some lim →
     lit ∈ drop lim (assigned_literals (pop_to_base_lvl pctx)) →
     unit_fact i (pop_to_base_lvl pctx) lit ∈ unit_trail s) →
  unit_set (foldl gather s l) = unit_set s ∧
  unit_trail (foldl gather s l) = unit_trail s.
Proof.
  intros Hnd. revert s. induction Hnd as [|i l Hi Hnd IH]; intros s Hc Hold; [done|].
  simpl.
  assert (Hg : unit_set (gather s i) = unit_set s ∧ unit_trail (gather s i) = unit_trail s).
  { unfold gather.
    destruct (pctxs s !! i) as [pctx|] eqn:Hp; [|done].
    destruct (unit_lim s !! i) as [lim|] eqn:Hl; [|done].
    rewrite publish_known; [done..|].
    intros lit Hlit. apply (Hold i pctx lim lit); [by left|done..]. }
  destruct Hg as [Hset Htr].
  destruct (gather_spec s i Hc) as (_ & Hlim & _ & Hc' & _ & Hoth & _).
  destruct (IH (gather s i)) as [-> ->]; [done| |done].
  intros j pctx lim lit Hj Hp Hl Hlit.
  assert (j ≠ i) by (intros ->; done).
  rewrite Htr. apply (Hold j pctx lim lit); [by right| |congruence|done].
  by rewrite <- Hoth.
Qed.

Lemma collect_units_no_news s :
  relay_inv s →
  (∀ i pctx lim lit, pctxs s !! i = Some pctx → unit_lim s !! i = Some lim →
     lit ∈ drop lim (assigned_literals (pop_to_base_lvl pctx)) →
     unit_fact i (pop_to_base_lvl pctx) lit ∈ unit_trail s) →
  unit_trail (collect_units s) = unit_trail s.
Proof.
  intros (_ & Hc & _) Hold. unfold collect_units.
  destruct (gather_no_news (seq 0 (num_threads s)) s) as [_ Htr];
    [apply NoDup_seq|done|by eauto|].
  destruct (scatter_loop (length (unit_trail (foldl gather s (seq 0 (num_threads s)))))
              (seq 0 (num_threads (foldl gather s (seq 0 (num_threads s)))))
              (foldl gather s (seq 0 (num_threads s)))) as (_ & _ & -> & _);
    [apply NoDup_seq|done].
Qed.

Lemma pop_assert_batch (f : expr → expr) pctx (batch : list expr) :
  assigned_literals
    (pop_to_base_lvl (foldl (λ p e, assert_expr (f e) p) (pop_to_base_lvl pctx) batch))
  = assigned_literals (pop_to_base_lvl pctx) ∧
  m_bool_var2expr
    (pop_to_base_lvl (foldl (λ p e, assert_expr (f e) p) (pop_to_base_lvl pctx) batch))
  = m_bool_var2expr (pop_to_base_lvl pctx).
Proof.
  assert (Hfold : ∀ p : context, m_assigned_literals (foldl (λ p e, assert_expr (f e) p) p batch)
                       = m_assigned_literals p ∧
                       m_base_lim (foldl (λ p e, assert_expr (f e) p) p batch) = m_base_lim p ∧
                       m_bool_var2expr (foldl (λ p e, assert_expr (f e) p) p batch)
                       = m_bool_var2expr p).
  { induction batch as [|e batch IH]; intros p; simpl; [done|].
    destruct (IH (assert_expr (f e) p)) as (-> & -> & ->). done. }
  unfold assigned_literals, pop_to_base_lvl at 1 3. simpl.
  destruct (Hfold (pop_to_base_lvl pctx)) as (-> & -> & ->). simpl.
  split; [|done]. rewrite take_take. f_equal. lia.
Qed.

(** Running the relay a second time, right after the first, leaves the
    trail as it is. *)
Lemma collect_units_twice s :
  relay_inv s →
  unit_trail (collect_units (collect_units s)) = unit_trail (collect_units s).
Proof.
  intros Hinv.
  destruct (collect_units_spec s Hinv) as (Hsame & Hinv' & _ & Hlim' & Hctx').
  apply collect_units_no_news; [done|].
  intros i pctx' lim' lit Hp' Hl' Hlit.
  pose proof Hinv as ((Hlp & _ & Hll & _) & _ & Hbound).
  assert (Hlt : (i < num_threads s)%nat).
  { destruct Hsame as (_ & _ & _ & _ & _ & _ & _ & _ & _ & _ & _ & Hlen).
    rewrite <- Hlp, <- Hlen. by eapply lookup_lt_Some. }
  destruct (lookup_lt_is_Some_2 (pctxs s) i) as [pctx Hp]; [by rewrite Hlp|].
  destruct (lookup_lt_is_Some_2 (unit_lim s) i) as [lim Hl]; [by rewrite Hll|].
  destruct (Hctx' i pctx lim Hp Hl) as [Hp2 Hcov].
  rewrite Hp2 in Hp'. injection Hp' as <-.
  rewrite (Hlim' i lim Hl) in Hl'. injection Hl' as <-.
  destruct (pop_assert_batch (translate primary (worker i)) pctx
              (drop lim (unit_trail (collect_units s)))) as [Hlits Hvars].
  unfold unit_fact, lit2expr in *. rewrite Hvars. rewrite Hlits in Hlit.
  apply Hcov. eapply elem_of_drop_le; [|done].
  destruct (Hbound i lim Hl) as [Hle _].
  destruct (collect_units_spec s) as (_ & _ & Hpre & _); [done|].
  apply prefix_length in Hpre. lia.
Qed.

End Relay.

Section Call.
Context {expr model statistics : Type} `{Countable expr}.
Context `{!Collaborators expr model statistics}.

Local Abbreviation context := (context expr model statistics).
Local Abbreviation answer := (answer expr model).
Local Abbreviation state := (state expr model statistics).

Implicit Types (s : state) (c pctx : context) (a : answer) (i j k : nat)
  (evs : list (nat * answer)) (asms : list expr).

(** ** Workers and the invariants *)

(** A round in which [done] stays unset changes neither the race nor the
    capture. *)
Lemma run_round_quiet evs s :
  done (run_round evs s) = false →
  result (run_round evs s) = result s ∧
  finished_id (run_round evs s) = finished_id s ∧
  ex_kind (run_round evs s) = ex_kind s ∧
  error_code (run_round evs s) = error_code s ∧
  ex_msg (run_round evs s) = ex_msg s.
Proof.
  revert s; induction evs as [|[i a] evs IH]; intros s Hd; [done|].
  rewrite run_round_cons in *.
  destruct (IH _ Hd) as (-> & -> & -> & -> & ->).
  assert (Hd' : done (worker_thread i a s) = false).
  { destruct (done (worker_thread i a s)) eqn:E; [|done].
    by rewrite run_round_done_mono in Hd. }
  clear IH Hd. worker_cases; done || congruence.
Qed.

(** Whatever a worker does, the assertions of every context only grow. *)
Lemma worker_thread_formulas i a s j pctx' :
  pctxs (worker_thread i a s) !! j = Some pctx' →
  ∃ pctx, pctxs s !! j = Some pctx ∧
          m_asserted_formulas pctx `prefix_of` m_asserted_formulas pctx'.
Proof.
  assert (Hmap : ∀ c2, (set_max_conflicts (max_conflicts s) <$> pctxs s) !! j = Some c2 →
            ∃ pctx, pctxs s !! j = Some pctx ∧
                    m_asserted_formulas pctx `prefix_of` m_asserted_formulas c2).
  { intros c2. rewrite list_lookup_fmap. destruct (pctxs s !! j) as [p|]; [|done].
    intros [= <-]. by exists p. }
  assert (Hins : ∀ c0 c1 c2, pctxs s !! i = Some c0 →
            <[i:=c1]> (set_max_conflicts (max_conflicts s) <$> pctxs s) !! j = Some c2 →
            m_asserted_formulas c0 `prefix_of` m_asserted_formulas c1 →
            ∃ pctx, pctxs s !! j = Some pctx ∧
                    m_asserted_formulas pctx `prefix_of` m_asserted_formulas c2).
  { intros c0 c1 c2 H0 Hj Hpre. destruct (decide (i = j)) as [->|Hne].
    - rewrite list_lookup_insert_eq in Hj
        by (rewrite length_fmap; by eapply lookup_lt_Some).
      injection Hj as <-. eauto.
    - rewrite list_lookup_insert_ne in Hj by done. by apply Hmap. }
  intros Hj. unfold worker_thread, cube in Hj.
  destruct (pctxs s !! i) as [c0|] eqn:H0; [|by eauto].
  destruct (pasms s !! i) as [pasm|]; [|by eauto].
  repeat case_match; simplify_eq/=;
    repeat match goal with e : raised |- _ => destruct e; simpl in * end.
  all: rewrite ?list_insert_insert_eq in Hj.
  all: try (by apply Hmap).
  all: try (eapply Hins; [done|exact Hj|]; simpl;
            first [reflexivity | by apply prefix_app_r]).
  all: rewrite list_lookup_imap in Hj;
    destruct (<[i:=_]> _ !! j) as [c'|] eqn:Hc'; simplify_eq/=;
    (eapply Hins in Hc' as (pctx & ? & ?); [|done|simpl; reflexivity]);
    exists pctx; split; [done|]; by destruct (decide (j = i)).
Qed.

Lemma worker_thread_relay_inv i a s :
  relay_inv s → relay_inv (worker_thread i a s).
Proof.
  intros (Hsz & Hc & Hinv).
  destruct (worker_thread_frame i a s) as (_ & Hn & Hpa & _ & _ & Hus & Hut & Hul & Hre & Hlen).
  unfold relay_inv, sized. rewrite Hn, Hpa, Hus, Hut, Hul, Hre, Hlen.
  split_and!; [apply Hsz..|done|].
  intros j lim Hl. destruct (Hinv j lim Hl) as (? & ? & Hass).
  split_and!; [done..|]. intros pctx' e Hp' He.
  apply worker_thread_formulas in Hp' as (pctx & Hp & [k ->]).
  apply elem_of_app. left. by eapply Hass.
Qed.

Lemma run_round_relay_inv evs s :
  relay_inv s → relay_inv (run_round evs s).
Proof.
  revert s; induction evs as [|[i a] evs IH]; intros s Hinv; [done|].
  rewrite run_round_cons. by apply IH, worker_thread_relay_inv.
Qed.

Lemma next_round_relay_inv s : relay_inv s → relay_inv (next_round s).
Proof. done. Qed.

Lemma setup_relay_inv c asms : relay_inv (setup c asms).
Proof.
  unfold relay_inv, sized, setup; simpl.
  rewrite !length_fmap, !length_seq, !length_replicate.
  split_and!; [done..|split; [apply NoDup_nil_2|set_solver]|].
  intros i lim [-> Hi]%lookup_replicate. simpl.
  split_and!; [lia|by rewrite lookup_replicate_2|].
  intros ? ? _ Hin. by apply elem_of_nil in Hin.
Qed.

(** ** The states at the top of the loop *)

Lemma entering_inv c asms k s :
  entering c asms k s →
  relay_inv s ∧ done s = false ∧ finished_id s = UINT_MAX ∧
  result s = l_undef ∧ ex_kind s = DEFAULT_EX ∧ error_code s = 0 ∧ ex_msg s = "" ∧
  (∀ n, set_max_conflicts n (ctx s) = set_max_conflicts n (set_threads 1 c)) ∧
  num_threads s = Z.to_nat (m_threads (m_fparams c)) ∧
  pasms s = new_pasms asms <$> seq 0 (Z.to_nat (m_threads (m_fparams c))).
Proof.
  induction 1 as [|k s evs Hent IH Hd].
  - split_and!; try done. apply setup_relay_inv.
  - destruct IH as (Hinv & Hd0 & Hf & Hr & Hk & He & Hm & Hc & Hn & Hp).
    destruct (run_round_quiet evs s Hd) as (Hr' & Hf' & Hk' & He' & Hm').
    destruct (run_round_frame evs s) as (Hc' & Hn' & Hp' & _).
    destruct (collect_units_spec (run_round evs s)) as (Hsame & Hinv' & _);
      [by apply run_round_relay_inv|].
    destruct Hsame as (Hcs & ? & ? & ? & ? & ? & ? & ? & ? & _).
    split_and!; simpl; [by apply next_round_relay_inv|..]; congruence.
Qed.

Lemma u32_idemp z : u32 (u32 z) = u32 z.
Proof. unfold u32. by rewrite Z.mod_mod. Qed.

Lemma u32_small z : 0 ≤ z ≤ UINT_MAX → u32 z = z.
Proof. unfold u32, UINT_MAX. intros. rewrite Z.mod_small; lia. Qed.

(** [num_rounds] and [max_conflicts] at the top of round [k]. *)
Lemma entering_budget c asms k s :
  entering c asms k s →
  u32 (num_rounds s) = u32 (Z.of_nat k) ∧
  u32 (max_conflicts s) = u32 (m_threads_max_conflicts (m_fparams c) * 2 ^ Z.of_nat k) ∧
  (0 < k → num_rounds s = u32 (Z.of_nat k) ∧
           max_conflicts s = u32 (m_threads_max_conflicts (m_fparams c) * 2 ^ Z.of_nat k))%nat.
Proof.
  induction 1 as [|k s evs Hent IH Hd].
  - simpl. rewrite Z.mul_1_r. split_and!; [done..|lia].
  - destruct IH as (Hr & Hm & _).
    destruct (run_round_frame evs s) as (_ & _ & _ & Hr' & Hm' & _).
    destruct (collect_units_spec (run_round evs s)) as (Hsame & _);
      [by eapply run_round_relay_inv, entering_inv|].
    destruct Hsame as (_ & _ & _ & _ & _ & _ & _ & _ & _ & Hr'' & Hm'' & _).
    assert (Hnr : num_rounds (next_round (collect_units (run_round evs s)))
                  = u32 (Z.of_nat (S k))).
    { simpl. rewrite Hr'', Hr'. unfold u32 in *.
      rewrite <- Z.add_mod_idemp_l, Hr, Z.add_mod_idemp_l by lia. f_equal. lia. }
    assert (Hmc : max_conflicts (next_round (collect_units (run_round evs s)))
                  = u32 (m_threads_max_conflicts (m_fparams c) * 2 ^ Z.of_nat (S k))).
    { simpl. rewrite Hm'', Hm'. unfold u32 in *.
      rewrite <- Z.mul_mod_idemp_l, Hm, Z.mul_mod_idemp_l by lia. f_equal.
      rewrite Nat2Z.inj_succ, Z.pow_succ_r by lia. lia. }
    rewrite Hnr, Hmc, !u32_idemp. done.
Qed.

(** ** The context of a worker after its turn *)

(** The assumptions of this round: the persistent ones and the cube. *)
Lemma worker_thread_own i a s pctx pasm :
  pctxs s !! i = Some pctx → pasms s !! i = Some pasm →
  ∃ pctx', pctxs (worker_thread i a s) !! i = Some pctx' ∧
    m_max_conflicts (m_fparams pctx') = max_conflicts s ∧
    match verdict_of s i a with
    | Some exhausted | Some (decides _) =>
        pctx' = check (pasm ++ option_list (cube_of s a)) a
                  (set_max_conflicts (max_conflicts s) pctx)
    | Some cube_refuted =>
        pctx' = assert_expr (mk_not (mk_and (check_unsat_core a)))
                  (check (pasm ++ option_list (cube_of s a)) a
                     (set_max_conflicts (max_conflicts s) pctx))
    | Some (faults e) =>
        pctx' = set_max_conflicts (max_conflicts s) pctx ∨
        pctx' = check (pasm ++ option_list (cube_of s a)) a
                  (set_max_conflicts (max_conflicts s) pctx)
    | None => False
    end.
Proof.
  intros Hi Hp. assert (Hlt := lookup_lt_Some _ _ _ Hi).
  unfold worker_thread, verdict_of, cube_of, cube, set_pctx, cancel_others.
  rewrite Hi, Hp.
  change (num_rounds (write_max_conflicts (max_conflicts s) s)) with (num_rounds s).
  repeat case_match; simplify_eq/=;
    repeat match goal with e : raised |- _ => destruct e; simpl in * end;
    rewrite ?list_insert_insert_eq, ?list_lookup_imap, ?list_lookup_insert_eq
      by (rewrite ?length_insert, ?length_fmap; done);
    rewrite ?list_lookup_fmap, ?Hi;
    simpl; rewrite ?decide_True by done; rewrite ?app_nil_r;
    eexists; (split; [reflexivity|]); split; try done; auto; congruence.
Qed.

(** The contexts of the other workers show the budget written, and are
    cancelled by a worker that claims. *)
Lemma worker_thread_others i a s j :
  j ≠ i → is_Some (verdict_of s i a) →
  pctxs (worker_thread i a s) !! j
    = set_max_conflicts (max_conflicts s) <$> pctxs s !! j ∨
  (finished_id s = UINT_MAX ∧ (∃ r, verdict_of s i a = Some (decides r)) ∧
   pctxs (worker_thread i a s) !! j
     = cancel <$> (set_max_conflicts (max_conflicts s) <$> pctxs s !! j)).
Proof.
  intros Hne Hv.
  unfold worker_thread, verdict_of, cube_of, cube, set_pctx, cancel_others in *.
  destruct (pctxs s !! i) as [pctx|] eqn:Hi; [|by destruct Hv].
  destruct (pasms s !! i) as [pasm|] eqn:Hp; [|by destruct Hv].
  clear Hv.
  change (num_rounds (write_max_conflicts (max_conflicts s) s)) with (num_rounds s).
  repeat case_match; simplify_eq/=;
    repeat match goal with
           | e : raised |- _ => destruct e; simpl in *
           | H : (_ =? _) = true |- _ => apply Z.eqb_eq in H
           end;
    rewrite ?list_lookup_imap, ?list_lookup_insert_ne, ?list_lookup_fmap by done;
    try (by left); try congruence.
  all: right; split_and!; [done|by eauto|].
  all: destruct (pctxs s !! j); simpl; [|done]; by rewrite decide_False.
Qed.

(** A context that shows the budget of the round is left as it is by the
    workers that come after the race is decided. *)
Lemma run_round_others evs s j pj :
  j ∉ evs.*1 → finished_id s ≠ UINT_MAX →
  pctxs s !! j = Some pj → m_max_conflicts (m_fparams pj) = max_conflicts s →
  pctxs (run_round evs s) !! j = Some pj.
Proof.
  revert s; induction evs as [|[i a] evs IH]; intros s Hj Hf Hpj Hb; [done|].
  rewrite run_round_cons. simpl in Hj. apply not_elem_of_cons in Hj as [Hne Hj].
  destruct (worker_thread_frame i a s) as (_ & _ & _ & _ & Hmc & _).
  apply IH; [done|by destruct (worker_thread_race_kept i a s Hf) as [-> _]| |by rewrite Hmc].
  destruct (verdict_of s i a) as [v|] eqn:Hv; [|by rewrite worker_thread_invalid].
  destruct (worker_thread_others i a s j Hne) as [->|(? & _)]; [by rewrite Hv| |done].
  rewrite Hpj. simpl. by rewrite set_max_conflicts_same.
Qed.

Lemma first_decision_event s evs i r :
  first_decision s evs = Some (i, r) →
  ∃ a, (i, a) ∈ evs ∧ verdict_of s i a = Some (decides r).
Proof.
  induction evs as [|[j b] evs IH]; [done|]. simpl.
  destruct (verdict_of s j b) as [[| |r'|e]|] eqn:Hv.
  3: { intros [= -> ->]. exists b. split; [by left|done]. }
  all: intros (a & ? & ?)%IH; exists a; split; [by right|done].
Qed.

Lemma first_decision_none s evs i a r :
  first_decision s evs = None → (i, a) ∈ evs → verdict_of s i a ≠ Some (decides r).
Proof.
  induction evs as [|[j b] evs IH]; [by intros _ ?%elem_of_nil|]. simpl.
  intros Hfd [Heq|Hin]%elem_of_cons.
  - simplify_eq. intros Hv. by rewrite Hv in Hfd.
  - apply IH; [|done]. by repeat case_match.
Qed.

Lemma last_fault_none s evs i a e :
  last_fault s evs = None → (i, a) ∈ evs → verdict_of s i a ≠ Some (faults e).
Proof.
  induction evs as [|[j b] evs IH]; [by intros _ ?%elem_of_nil|]. simpl.
  intros Hlf [Heq|Hin]%elem_of_cons.
  - simplify_eq. intros Hv. rewrite Hv in Hlf. by destruct (last_fault s evs).
  - apply IH; [|done]. by destruct (last_fault s evs).
Qed.

Lemma worker_thread_undecided i a s w :
  (∀ r, verdict_of s i a ≠ Some (decides r)) →
  finished_id (worker_thread i a s) = finished_id s ∧
  (w ≠ i →
   pctxs (worker_thread i a s) !! w = pctxs s !! w ∨
   pctxs (worker_thread i a s) !! w
     = set_max_conflicts (max_conflicts s) <$> pctxs s !! w).
Proof.
  intros Hv. split.
  - destruct (verdict_of s i a) as [[| |r|e]|] eqn:E.
    + destruct (worker_thread_silent i a s) as (_ & -> & _); auto.
    + destruct (worker_thread_silent i a s) as (_ & -> & _); auto.
    + by destruct (Hv r).
    + destruct (worker_thread_faults i a s e) as (_ & -> & _); auto.
    + by rewrite worker_thread_invalid.
  - intros Hne. destruct (verdict_of s i a) as [v|] eqn:E.
    + destruct (worker_thread_others i a s w Hne) as [->|(_ & [r Hr] & _)];
        [by rewrite E|by right|].
      rewrite E in Hr. injection Hr as ->. by destruct (Hv r).
    + left. by rewrite worker_thread_invalid.
Qed.

(** The context of the winner at the end of its round is the one its own
    [check] left. *)
Lemma run_round_winner evs s w r :
  Z.of_nat (length (pctxs s)) ≤ UINT_MAX → finished_id s = UINT_MAX →
  NoDup evs.*1 → first_decision s evs = Some (w, r) →
  ∃ a pctx pasm, (w, a) ∈ evs ∧ verdict_of s w a = Some (decides r) ∧
    pctxs s !! w = Some pctx ∧ pasms s !! w = Some pasm ∧
    pctxs (run_round evs s) !! w =
      Some (check (pasm ++ option_list (cube_of s a)) a
              (set_max_conflicts (max_conflicts s) pctx)).
Proof.
  revert s; induction evs as [|[i a] evs IH]; intros s Hn Hf Hnd Hfd; [done|].
  rewrite run_round_cons. simpl in Hfd, Hnd. apply NoDup_cons in Hnd as [Hi Hnd].
  assert (Hcase : (∃ r', verdict_of s i a = Some (decides r')) ∨
                  ∀ r', verdict_of s i a ≠ Some (decides r')).
  { destruct (verdict_of s i a) as [[| |r'|e]|]; by eauto. }
  destruct Hcase as [[r' Hv]|Hv'].
  - rewrite Hv in Hfd. injection Hfd as Hw Hr; subst i r'.
    assert (is_Some (pctxs s !! w) ∧ is_Some (pasms s !! w)) as [[pctx Hp] [pasm Ha]].
    { unfold verdict_of in Hv. destruct (pctxs s !! w), (pasms s !! w); by eauto. }
    destruct (worker_thread_own w a s pctx pasm Hp Ha) as (pctx' & Hp' & Hb & Heq).
    rewrite Hv in Heq. subst pctx'.
    destruct (worker_thread_decides_first w a s r) as (_ & Hid & _); [done..|].
    destruct (valid_index_u32 s w a) as [Hu Hne]; [done|by rewrite Hv|].
    destruct (worker_thread_frame w a s) as (_ & _ & _ & _ & Hmc & _).
    exists a, pctx, pasm. split_and!; [by left|done..|].
    apply run_round_others; [done|congruence|done|by rewrite Hmc].
  - assert (Hfd' : first_decision s evs = Some (w, r)).
    { destruct (verdict_of s i a) as [[| |r'|e]|]; try done. by destruct (Hv' r'). }
    destruct (worker_thread_undecided i a s w Hv') as [Hf' Hw].
    destruct (worker_thread_frame i a s) as (_ & _ & Hpa & Hnr & Hmc & _ & _ & _ & _ & Hlen).
    destruct (IH (worker_thread i a s)) as (b & pctx' & pasm & Hin & Hvb & Hp & Ha & Hfin);
      [by rewrite Hlen|congruence|done|by rewrite first_decision_worker_thread|].
    assert (Hwi : w ≠ i) by (intros ->; apply Hi, list_elem_of_fmap; by exists (i, b)).
    rewrite verdict_of_worker_thread in Hvb. rewrite Hpa in Ha.
    unfold cube_of in *. rewrite Hnr, Hmc in Hfin.
    destruct (Hw Hwi) as [Hsame|Hset]; rewrite ?Hsame, ?Hset in Hp.
    + exists b, pctx', pasm. split_and!; [by right|done..].
    + destruct (pctxs s !! w) as [pctx|] eqn:Hpw; [|done]. injection Hp as <-.
      exists b, pctx, pasm. split_and!; [by right|done..].
Qed.

(** ** The parameters after a round *)

(** A worker that runs writes the budget of the round into the parameters
    of the call. *)
Lemma worker_thread_ctx i a s :
  is_Some (verdict_of s i a) →
  ctx (worker_thread i a s) = set_max_conflicts (max_conflicts s) (ctx s).
Proof. intros [v Hv]. worker_cases; done. Qed.

Lemma run_round_ctx_cases evs s :
  ctx (run_round evs s) = ctx s ∨
  ctx (run_round evs s) = set_max_conflicts (max_conflicts s) (ctx s).
Proof.
  revert s; induction evs as [|[i a] evs IH]; intros s; [by left|].
  rewrite run_round_cons.
  destruct (worker_thread_frame i a s) as (_ & _ & _ & _ & Hmc & _).
  destruct (verdict_of s i a) as [v|] eqn:Hv.
  - right. assert (Hc := worker_thread_ctx i a s). rewrite Hv in Hc.
    destruct (IH (worker_thread i a s)) as [->| ->]; rewrite ?Hmc, Hc; by eauto.
  - rewrite worker_thread_invalid by done. apply IH.
Qed.

Lemma run_round_ctx evs s :
  (∃ i a, (i, a) ∈ evs ∧ is_Some (verdict_of s i a)) →
  ctx (run_round evs s) = set_max_conflicts (max_conflicts s) (ctx s).
Proof.
  revert s; induction evs as [|[j b] evs IH]; intros s (i & a & Hin & Hv).
  { by apply elem_of_nil in Hin. }
  rewrite run_round_cons.
  destruct (worker_thread_frame j b s) as (_ & _ & _ & _ & Hmc & _).
  destruct (verdict_of s j b) as [v|] eqn:Hvj.
  - assert (Hc := worker_thread_ctx j b s). rewrite Hvj in Hc.
    destruct (run_round_ctx_cases evs (worker_thread j b s)) as [->| ->];
      rewrite ?Hmc, Hc; by eauto.
  - rewrite worker_thread_invalid by done. apply IH.
    apply elem_of_cons in Hin as [Heq|Hin]; [|by eauto].
    injection Heq as -> ->. rewrite Hvj in Hv. by destruct Hv.
Qed.

(** ** The loop *)

Lemma round_loop_stops evs sched s :
  done (run_round evs s) = true → round_loop (evs :: sched) s = Some (run_round evs s).
Proof. intros Hd. simpl. by rewrite Hd. Qed.

Lemma round_loop_goes_on evs sched s :
  done (run_round evs s) = false →
  round_loop (evs :: sched) s = round_loop sched (next_round (collect_units (run_round evs s))).
Proof. intros Hd. simpl. by rewrite Hd. Qed.

(** A call that comes back left the loop in a round it had entered. *)
Lemma round_loop_final c asms sched k0 s0 s :
  entering c asms k0 s0 → round_loop sched s0 = Some s →
  ∃ k sk evs, entering c asms (k0 + k) sk ∧ sched !! k = Some evs ∧
              s = run_round evs sk ∧ done s = true.
Proof.
  revert k0 s0; induction sched as [|evs sched IH]; intros k0 s0 Hent Hloop; [done|].
  destruct (done (run_round evs s0)) eqn:Hd.
  - rewrite round_loop_stops in Hloop by done. injection Hloop as <-.
    exists 0%nat, s0, evs. by rewrite Nat.add_0_r.
  - rewrite round_loop_goes_on in Hloop by done.
    destruct (IH (S k0) _ (enter_next c asms k0 s0 evs Hent Hd) Hloop)
      as (k & sk & evs' & Hent' & Hk & -> & Hd').
    exists (S k), sk, evs'. by rewrite <- Nat.add_succ_comm.
Qed.

(** Every state at the top of the loop is reached by a schedule, and the
    loop leaves as soon as a round sets [done]. *)
Lemma entering_schedule c asms k s :
  entering c asms k s →
  ∃ sched, length sched = k ∧
           ∀ rest, round_loop (sched ++ rest) (setup c asms) = round_loop rest s.
Proof.
  induction 1 as [|k s evs Hent (sched & Hlen & Hrun) Hd].
  - by exists [].
  - exists (sched ++ [evs]). split; [rewrite length_app; simpl; lia|].
    intros rest. rewrite <- app_assoc, Hrun. simpl. by rewrite Hd.
Qed.

Lemma parallel_call_returns c asms k s evs :
  entering c asms k s → done (run_round evs s) = true →
  ∃ sched, length sched = k ∧
           ∀ rest, parallel_call c asms (sched ++ evs :: rest) = Some (finish (run_round evs s)).
Proof.
  intros (sched & Hlen & Hrun)%entering_schedule Hd. exists sched. split; [done|].
  intros rest. unfold parallel_call. by rewrite Hrun, round_loop_stops.
Qed.

Lemma entering_threads c asms k s :
  m_threads (m_fparams c) ≤ UINT_MAX → entering c asms k s →
  Z.of_nat (length (pctxs s)) ≤ UINT_MAX.
Proof.
  intros Hn (((-> & _) & _) & _ & _ & _ & _ & _ & _ & _ & -> & _)%entering_inv.
  unfold UINT_MAX in *. lia.
Qed.

Lemma finish_outcome s :
  (finish s).2 =
  if finished_id s =? UINT_MAX then
    match ex_kind s with
    | ERROR_EX => throws_z3_error (error_code s)
    | DEFAULT_EX => throws_default_exception (ex_msg s)
    end
  else returns (result s).
Proof. unfold finish. by repeat case_match. Qed.

Lemma captured_surfaced s e :
  captured s e →
  match ex_kind s with
  | ERROR_EX => throws_z3_error (error_code s)
  | DEFAULT_EX => throws_default_exception (ex_msg s)
  end = surfaced e.
Proof. destruct e; intros [-> <-]; done. Qed.

(** How the call ends, read off its last round. *)
Lemma final_round_outcome c asms k s evs :
  m_threads (m_fparams c) ≤ UINT_MAX → entering c asms k s →
  done (run_round evs s) = true →
  match first_decision s evs with
  | Some (i, r) => (finish (run_round evs s)).2 = returns r
  | None => ∃ e, last_fault s evs = Some e ∧ (finish (run_round evs s)).2 = surfaced e
  end.
Proof.
  intros Hn Hent Hd.
  destruct (entering_inv _ _ _ _ Hent) as (_ & Hd0 & Hf0 & _).
  assert (Hlen := entering_threads _ _ _ _ Hn Hent).
  rewrite finish_outcome.
  assert (Hrace := run_round_race evs s Hlen Hf0).
  destruct (first_decision s evs) as [[i r]|] eqn:Hfd.
  - destruct Hrace as (Hid & Hr & _).
    destruct (first_decision_event _ _ _ _ Hfd) as (a & _ & Hv).
    destruct (valid_index_u32 s i a) as [_ Hne]; [done|by rewrite Hv|].
    rewrite Hid, Hr. apply Z.eqb_neq in Hne. by rewrite Hne.
  - destruct Hrace as (Hid & _). rewrite Hid. simpl.
    assert (Hcap := run_round_capture evs s).
    destruct (last_fault s evs) as [e|] eqn:Hlf.
    + exists e. split; [done|]. destruct Hcap as [Hcap _].
      by rewrite (captured_surfaced _ _ Hcap).
    + exfalso. apply (run_round_done evs s Hd0 Hf0) in Hd as (i & a & v & Hin & Hv & Hne1 & Hne2).
      destruct v as [| |r|e]; [done..| |].
      * by eapply first_decision_none.
      * by eapply last_fault_none.
Qed.

(** ** The properties of the specification *)

(** A round in which a worker decides or faults is the last one. *)
Lemma round_ends c asms k s evs :
  m_threads (m_fparams c) ≤ UINT_MAX → entering c asms k s →
  is_Some (first_decision s evs) ∨ is_Some (last_fault s evs) →
  done (run_round evs s) = true.
Proof.
  intros Hn Hent Hsome.
  destruct (entering_inv _ _ _ _ Hent) as (_ & _ & Hf0 & _).
  assert (Hlen := entering_threads _ _ _ _ Hn Hent).
  destruct Hsome as [[[i r] Hfd]|[e Hlf]].
  - assert (Hrace := run_round_race evs s Hlen Hf0). rewrite Hfd in Hrace. apply Hrace.
  - assert (Hcap := run_round_capture evs s). rewrite Hlf in Hcap. apply Hcap.
Qed.

(** C1, as amended.  A call that comes back either returns the result of
    the first worker that reached the guarded section in the last round,
    which is sat, unsat or, for a worker whose [check] gave up below its
    budget, unknown; or, when no worker reached that section, it throws
    exactly one exception, the one of the last worker of that round that
    landed in a handler: [z3_error] with its code, [default_exception] with
    its message otherwise.  And the call does come back as soon as a worker
    of a round decides or faults. *)
Theorem call_returns_or_throws c asms :
  m_threads (m_fparams c) ≤ UINT_MAX →
  (∀ sched c' out, parallel_call c asms sched = Some (c', out) →
     ∃ k s evs, entering c asms k s ∧ sched !! k = Some evs ∧
       finish (run_round evs s) = (c', out) ∧
       match first_decision s evs with
       | Some (i, r) => out = returns r
       | None => ∃ e, last_fault s evs = Some e ∧ out = surfaced e
       end) ∧
  (∀ k s evs, entering c asms k s →
     is_Some (first_decision s evs) ∨ is_Some (last_fault s evs) →
     ∃ sched, length sched = k ∧
       ∀ rest, parallel_call c asms (sched ++ evs :: rest)
               = Some (finish (run_round evs s))).
Proof.
  intros Hn. split.
  - intros sched c' out Hcall. unfold parallel_call in Hcall.
    destruct (round_loop sched (setup c asms)) as [sfin|] eqn:Hloop; [|done].
    injection Hcall as Hfin.
    destruct (round_loop_final c asms sched 0 _ sfin (enter_first c asms) Hloop)
      as (k & s & evs & Hent & Hk & -> & Hd).
    exists k, s, evs. split_and!; [done..|].
    assert (Hout := final_round_outcome c asms k s evs Hn Hent Hd).
    by rewrite Hfin in Hout.
  - intros k s evs Hent Hsome.
    by eapply parallel_call_returns, round_ends.
Qed.

(** A [check] that throws sends the worker into a handler. *)
Lemma check_throws_faults s i a e :
  is_Some (pctxs s !! i) → is_Some (pasms s !! i) →
  (0 < num_rounds s → ∃ q : option expr, lh_choose a = Ok q) →
  check_result a = Throw e →
  verdict_of s i a = Some (faults e).
Proof.
  intros [pctx Hp] [pasm Ha] Hlh Hr. unfold verdict_of. rewrite Hp, Ha, Hr.
  destruct (0 <? num_rounds s) eqn:Hn; [|done].
  apply Z.ltb_lt in Hn. destruct (Hlh Hn) as [q ->]. done.
Qed.

(** C2, as amended.  When the [check] of a worker throws, the worker writes
    the payload into the capture whatever the capture held: the kind and the
    code for a [z3_error], the kind and the message for any other
    [z3_exception], and it sets [done].  There is no test for an earlier
    capture: every later worker of the round that lands in a handler
    overwrites it, so the capture that stays is the last one written. *)
Theorem capture_is_overwritten s i a e evs :
  is_Some (pctxs s !! i) → is_Some (pasms s !! i) →
  (0 < num_rounds s → ∃ q : option expr, lh_choose a = Ok q) →
  check_result a = Throw e →
  captured (worker_thread i a s) e ∧
  done (worker_thread i a s) = true ∧
  match last_fault s evs with
  | Some e' => captured (run_round ((i, a) :: evs) s) e'
  | None => captured (run_round ((i, a) :: evs) s) e
  end.
Proof.
  intros Hp Ha Hlh Hr. assert (Hv := check_throws_faults s i a e Hp Ha Hlh Hr).
  destruct (worker_thread_faults i a s e Hv) as (_ & _ & Hd & Hcap).
  split_and!; [done..|]. rewrite run_round_cons.
  assert (Hrest := run_round_capture evs (worker_thread i a s)).
  rewrite last_fault_worker_thread in Hrest.
  destruct (last_fault s evs) as [e'|]; [by destruct Hrest|].
  destruct Hrest as (Hk & Hc & Hm). destruct e; unfold captured in *; simpl in *;
    destruct Hcap; split; congruence.
Qed.

(** C3.  In every round of every call the race has one winner: the first
    worker that finds [finished_id] unset under the mutex records its index
    and its result and sets [done]; a worker that reaches the section later
    changes neither [result], nor [finished_id], nor [done]. *)
Theorem race_has_one_winner c asms k s evs :
  m_threads (m_fparams c) ≤ UINT_MAX → entering c asms k s →
  match first_decision s evs with
  | Some (i, r) =>
      finished_id (run_round evs s) = Z.of_nat i ∧ Z.of_nat i ≠ UINT_MAX ∧
      result (run_round evs s) = r ∧ done (run_round evs s) = true
  | None => finished_id (run_round evs s) = UINT_MAX
  end ∧
  ∀ s' j b r', finished_id s' ≠ UINT_MAX → verdict_of s' j b = Some (decides r') →
    result (worker_thread j b s') = result s' ∧
    finished_id (worker_thread j b s') = finished_id s' ∧
    done (worker_thread j b s') = done s'.
Proof.
  intros Hn Hent. split.
  - destruct (entering_inv _ _ _ _ Hent) as (_ & _ & Hf0 & _).
    assert (Hlen := entering_threads _ _ _ _ Hn Hent).
    assert (Hrace := run_round_race evs s Hlen Hf0).
    destruct (first_decision s evs) as [[i r]|] eqn:Hfd; [|by destruct Hrace].
    destruct Hrace as (Hid & Hr & Hd).
    destruct (first_decision_event _ _ _ _ Hfd) as (a & _ & Hv).
    destruct (valid_index_u32 s i a) as [_ Hne]; [done|by rewrite Hv|]. done.
  - intros s' j b r' Hf Hv.
    destruct (worker_thread_decides_late j b s' r' Hv Hf) as (? & ? & ? & _). done.
Qed.

(** At the top of the loop every offset is the length of the trail. *)
Lemma entering_offsets c asms k s i :
  entering c asms k s → (i < num_threads s)%nat →
  unit_lim s !! i = Some (length (unit_trail s)).
Proof.
  induction 1 as [|k s evs Hent IH Hd]; intros Hi.
  - simpl in *. by rewrite lookup_replicate_2.
  - pose proof (entering_inv _ _ _ _ Hent) as (Hinv & _).
    apply (run_round_relay_inv evs) in Hinv.
    destruct (collect_units_spec _ Hinv) as (Hsame & _ & _ & Hlim & _).
    destruct (run_round_frame evs s) as (_ & Hn & _ & _ & _ & _ & _ & Hul & _).
    destruct Hsame as (_ & Hn' & _). simpl in *.
    destruct (lookup_lt_is_Some_2 (unit_lim (run_round evs s)) i) as [lim Hl].
    { destruct Hinv as ((_ & _ & -> & _) & _). lia. }
    by eapply Hlim.
Qed.

(** What the relay does reach.  In a round without a winner the relay
    reads the base-level log of worker [i] from position [unit_lim[i]] on,
    and line 99 has left the length of the trail there.  Every fact at such
    a position is translated into the primary manager, is on the trail
    after the relay (pushed unless it was there), and is among the
    assertions of every worker when the next round begins; the relay puts
    nothing else on the trail.  Each worker is handed the trail in order,
    every fact of it once, over the whole call. *)
Lemma relay_reads_from_trail_length c asms k s evs :
  entering c asms k s → done (run_round evs s) = false →
  entering c asms (S k) (next_round (collect_units (run_round evs s))) ∧
  (∀ i pctx j lit,
     pctxs (run_round evs s) !! i = Some pctx →
     assigned_literals (pop_to_base_lvl pctx) !! j = Some lit →
     (length (unit_trail (run_round evs s)) ≤ j)%nat →
     unit_fact i (pop_to_base_lvl pctx) lit
       ∈ unit_trail (next_round (collect_units (run_round evs s))) ∧
     ∀ w pw, pctxs (next_round (collect_units (run_round evs s))) !! w = Some pw →
       translate primary (worker w) (unit_fact i (pop_to_base_lvl pctx) lit)
         ∈ m_asserted_formulas pw) ∧
  unit_trail (run_round evs s)
    `prefix_of` unit_trail (next_round (collect_units (run_round evs s))) ∧
  NoDup (unit_trail (next_round (collect_units (run_round evs s)))) ∧
  (∀ e, e ∈ unit_trail (next_round (collect_units (run_round evs s))) →
     e ∈ unit_trail (run_round evs s) ∨
     ∃ i pctx j lit,
       pctxs (run_round evs s) !! i = Some pctx ∧
       assigned_literals (pop_to_base_lvl pctx) !! j = Some lit ∧
       (length (unit_trail (run_round evs s)) ≤ j)%nat ∧
       e = unit_fact i (pop_to_base_lvl pctx) lit) ∧
  (∀ w pw, pctxs (run_round evs s) !! w = Some pw →
     relayed (next_round (collect_units (run_round evs s))) !! w
       = Some (unit_trail (next_round (collect_units (run_round evs s)))) ∧
     ∃ pw', pctxs (next_round (collect_units (run_round evs s))) !! w = Some pw' ∧
       m_asserted_formulas pw' =
       m_asserted_formulas pw ++
         (translate primary (worker w) <$>
            drop (length (unit_trail (run_round evs s)))
                 (unit_trail (next_round (collect_units (run_round evs s)))))).
Proof.
  intros Hent Hd. split; [by constructor|].
  pose proof (entering_inv _ _ _ _ Hent) as (Hinv & _).
  apply (run_round_relay_inv evs) in Hinv.
  set (s1 := run_round evs s) in *.
  destruct (collect_units_spec s1 Hinv) as (Hsame & Hinv2 & Hpre & Hlim2 & Hctx2).
  change (unit_trail (next_round (collect_units s1))) with (unit_trail (collect_units s1)).
  change (pctxs (next_round (collect_units s1))) with (pctxs (collect_units s1)).
  change (relayed (next_round (collect_units s1))) with (relayed (collect_units s1)).
  assert (Hoff : ∀ i pctx, pctxs s1 !! i = Some pctx →
                   unit_lim s1 !! i = Some (length (unit_trail s1))).
  { intros i pctx Hp. subst s1.
    destruct (run_round_frame evs s) as (_ & Hn & _ & _ & _ & _ & -> & -> & _ & Hlen).
    apply (entering_offsets c asms k); [done|].
    apply lookup_lt_Some in Hp. destruct (entering_inv _ _ _ _ Hent) as (((<- & _) & _) & _).
    lia. }
  assert (Hall : ∀ w pw, pctxs (collect_units s1) !! w = Some pw → ∀ e,
            e ∈ unit_trail (collect_units s1) →
            translate primary (worker w) e ∈ m_asserted_formulas pw).
  { intros w pw Hw e He.
    destruct Hsame as (_ & _ & _ & _ & _ & _ & _ & _ & _ & _ & _ & Hlen).
    destruct (lookup_lt_is_Some_2 (pctxs s1) w) as [pw0 Hw0].
    { rewrite <- Hlen. by eapply lookup_lt_Some. }
    destruct Hinv2 as (_ & _ & Hrel).
    destruct (Hrel w _ (Hlim2 w _ (Hoff w pw0 Hw0))) as (_ & _ & Hass).
    apply (Hass pw e Hw). by rewrite firstn_all. }
  split_and!.
  - intros i pctx j lit Hp Hlit Hj.
    destruct (Hctx2 i pctx _ Hp (Hoff i pctx Hp)) as [_ Hcov].
    assert (Hin : unit_fact i (pop_to_base_lvl pctx) lit ∈ unit_trail (collect_units s1)).
    { apply Hcov. apply list_elem_of_lookup. exists (j - length (unit_trail s1))%nat.
      rewrite lookup_drop, <- Hlit. f_equal. lia. }
    split; [done|]. intros w pw Hw. by eapply Hall.
  - done.
  - apply Hinv2.
  - intros e He.
    destruct (collect_units_origin s1 e Hinv He)
      as [?|(i & pctx & lim & lit & Hp & Hl & Hlit & ->)]; [by left|].
    right. rewrite (Hoff i pctx Hp) in Hl. injection Hl as <-.
    apply list_elem_of_lookup in Hlit as [j Hj]. rewrite lookup_drop in Hj.
    exists i, pctx, (length (unit_trail s1) + j)%nat, lit.
    split_and!; [done..|lia|done].
  - intros w pw Hw. destruct Hinv2 as (_ & _ & Hrel).
    destruct (Hrel w _ (Hlim2 w _ (Hoff w pw Hw))) as (_ & Hr & _).
    rewrite firstn_all in Hr. split; [done|].
    destruct (Hctx2 w pw _ Hw (Hoff w pw Hw)) as [Hp' _].
    eexists. split; [done|]. by rewrite assert_batch_formulas.
Qed.

(** C7.  The trail is kept as a set: at the top of every round and after
    every relay it holds each fact once.  A relay that finds no new fact,
    every literal it reads having its fact on the trail already, leaves the
    trail as it is; this is the case of a second relay run right after a
    relay, which leaves the trail, hence its length, unchanged. *)
Theorem trail_is_a_set c asms k s evs :
  entering c asms k s →
  NoDup (unit_trail s) ∧
  NoDup (unit_trail (collect_units (run_round evs s))) ∧
  ((∀ i pctx lim lit,
      pctxs (run_round evs s) !! i = Some pctx →
      unit_lim (run_round evs s) !! i = Some lim →
      lit ∈ drop lim (assigned_literals (pop_to_base_lvl pctx)) →
      unit_fact i (pop_to_base_lvl pctx) lit ∈ unit_trail (run_round evs s)) →
   unit_trail (collect_units (run_round evs s)) = unit_trail (run_round evs s)) ∧
  unit_trail (collect_units (collect_units (run_round evs s)))
    = unit_trail (collect_units (run_round evs s)) ∧
  length (unit_trail (collect_units (collect_units (run_round evs s))))
    = length (unit_trail (collect_units (run_round evs s))).
Proof.
  intros Hent. pose proof (entering_inv _ _ _ _ Hent) as (Hinv & _).
  pose proof (run_round_relay_inv evs s Hinv) as Hinv1.
  destruct (collect_units_spec _ Hinv1) as (_ & Hinv2 & _).
  rewrite (collect_units_twice _ Hinv1).
  split_and!; [apply Hinv|apply Hinv2| |done..].
  by apply collect_units_no_news.
Qed.

(** The budget of the round is the one every worker of the round checks
    under. *)
Lemma worker_thread_budget i a s pctx' :
  length (pasms s) = length (pctxs s) →
  pctxs (worker_thread i a s) !! i = Some pctx' →
  m_max_conflicts (m_fparams pctx') = max_conflicts s.
Proof.
  intros Hlen Hi.
  destruct (worker_thread_frame i a s) as (_ & _ & _ & _ & _ & _ & _ & _ & _ & Hl).
  destruct (lookup_lt_is_Some_2 (pctxs s) i) as [pctx Hp].
  { rewrite <- Hl. by eapply lookup_lt_Some. }
  destruct (lookup_lt_is_Some_2 (pasms s) i) as [pasm Ha].
  { rewrite Hlen. by eapply lookup_lt_Some. }
  destruct (worker_thread_own i a s pctx pasm Hp Ha) as (p & Hp' & Hb & _). congruence.
Qed.

Lemma run_round_budget evs s i a pctx' :
  length (pasms s) = length (pctxs s) →
  (i, a) ∈ evs → pctxs (run_round evs s) !! i = Some pctx' →
  m_max_conflicts (m_fparams pctx') = max_conflicts s.
Proof.
  intros Hlen Hin.
  assert (Hgen : ∀ evs s, length (pasms s) = length (pctxs s) →
            ∀ pctx', pctxs (run_round evs s) !! i = Some pctx' →
            ((∃ a, (i, a) ∈ evs) ∨
             ∃ pctx, pctxs s !! i = Some pctx ∧
                     m_max_conflicts (m_fparams pctx) = max_conflicts s) →
            m_max_conflicts (m_fparams pctx') = max_conflicts s).
  { clear. intros evs. induction evs as [|[j b] evs IH]; intros s Hlen pctx' Hp Hor.
    - destruct Hor as [(a & Hin)|(pctx & Hq & Hb)]; [by apply elem_of_nil in Hin|].
      simpl in Hp. congruence.
    - rewrite run_round_cons in Hp.
      destruct (worker_thread_frame j b s) as (_ & _ & Hpa & _ & Hmc & _ & _ & _ & _ & Hl).
      rewrite <- Hmc. apply (IH (worker_thread j b s)); [congruence|done|].
      destruct (decide (j = i)) as [->|Hne].
      + right. destruct (lookup_lt_is_Some_2 (pctxs (worker_thread i b s)) i) as [p Hq].
        { rewrite Hl. destruct Hor as [(a & Hin)|(pctx & Hq & _)].
          - apply lookup_lt_Some in Hp. destruct (run_round_frame evs (worker_thread i b s))
              as (_ & _ & _ & _ & _ & _ & _ & _ & _ & Hl'). lia.
          - by eapply lookup_lt_Some. }
        exists p. split; [done|]. rewrite Hmc.
        by eapply worker_thread_budget.
      + destruct Hor as [(a & Hin)|(pctx & Hq & Hb)].
        * left. exists a. apply elem_of_cons in Hin as [?|?]; [congruence|done].
        * right. destruct (verdict_of s j b) as [v|] eqn:Hv.
          2: { rewrite worker_thread_invalid by done. eauto. }
          destruct (worker_thread_others j b s i) as [Ho|(_ & _ & Ho)];
            [done|by rewrite Hv|..].
          -- exists (set_max_conflicts (max_conflicts s) pctx). rewrite Ho, Hq, Hmc. done.
          -- exists (cancel (set_max_conflicts (max_conflicts s) pctx)).
             rewrite Ho, Hq, Hmc. done. }
  intros Hp. eapply Hgen; eauto.
Qed.

(** C6, as amended.  With [b] the configured [threads_max_conflicts], the
    budget of round [k] is [b * 2^k] modulo 2^32, the arithmetic of
    [unsigned]: it is [b * 2^k] itself as long as that fits, round 0 uses
    [b], and after every round without a winner the budget is doubled once
    and the round counter incremented once, both modulo 2^32.  Every worker
    of round [k] checks under that budget. *)
Theorem budget_doubles_modulo c asms k s :
  0 ≤ m_threads_max_conflicts (m_fparams c) ≤ UINT_MAX →
  entering c asms k s →
  max_conflicts s = u32 (m_threads_max_conflicts (m_fparams c) * 2 ^ Z.of_nat k) ∧
  num_rounds s = u32 (Z.of_nat k) ∧
  (m_threads_max_conflicts (m_fparams c) * 2 ^ Z.of_nat k ≤ UINT_MAX →
   max_conflicts s = m_threads_max_conflicts (m_fparams c) * 2 ^ Z.of_nat k) ∧
  (∀ evs i a pctx', (i, a) ∈ evs → pctxs (run_round evs s) !! i = Some pctx' →
     m_max_conflicts (m_fparams pctx')
       = u32 (m_threads_max_conflicts (m_fparams c) * 2 ^ Z.of_nat k)) ∧
  (∀ evs, done (run_round evs s) = false →
     max_conflicts (next_round (collect_units (run_round evs s))) = u32 (max_conflicts s * 2) ∧
     num_rounds (next_round (collect_units (run_round evs s))) = u32 (num_rounds s + 1)).
Proof.
  intros Hb Hent.
  assert (Hmc : max_conflicts s = u32 (m_threads_max_conflicts (m_fparams c) * 2 ^ Z.of_nat k)
              ∧ num_rounds s = u32 (Z.of_nat k)).
  { destruct (entering_budget _ _ _ _ Hent) as (Hr & Hm & Hpos).
    destruct k as [|k]; [|destruct Hpos; [lia|done]].
    inversion Hent; subst. simpl. rewrite Z.mul_1_r, u32_small by done. done. }
  destruct Hmc as [Hmc Hnr]. split_and!; [done..| | |].
  - intros Hfit. rewrite Hmc. apply u32_small. split; [|done].
    apply Z.mul_nonneg_nonneg; [lia|]. apply Z.pow_nonneg. lia.
  - intros evs i a pctx' Hin Hp. rewrite <- Hmc.
    eapply run_round_budget; [|done..].
    destruct (entering_inv _ _ _ _ Hent) as (((-> & -> & _) & _) & _). done.
  - intros evs Hd.
    destruct (run_round_frame evs s) as (_ & _ & _ & Hr' & Hm' & _).
    destruct (collect_units_spec (run_round evs s)) as (Hsame & _);
      [by eapply run_round_relay_inv, entering_inv|].
    destruct Hsame as (_ & _ & _ & _ & _ & _ & _ & _ & _ & Hr'' & Hm'' & _).
    simpl. by rewrite Hr'', Hm'', Hr', Hm'.
Qed.

Lemma with_lh_choose_round0 i a s lh :
  (0 <? num_rounds s) = false →
  worker_thread i (with_lh_choose lh a) s = worker_thread i a s.
Proof.
  intros Hr. unfold worker_thread.
  change (num_rounds (write_max_conflicts (max_conflicts s) s)) with (num_rounds s).
  by rewrite Hr.
Qed.

(** C8.  The lookahead is consulted only when [num_rounds > 0], so not in
    the first round: there the worker behaves the same whatever the
    lookahead would answer.  The literal it returns is appended to the copy
    [lasms] that [check] receives in this round; [pasms] is left as it is by
    every worker, and at the top of every round it is the translation of the
    caller's assumptions made before the first round: no cube is carried
    over. *)
Theorem cube_stays_in_its_round c asms k s i a :
  entering c asms k s →
  pasms (worker_thread i a s) = pasms s ∧
  pasms s = new_pasms asms <$> seq 0 (num_threads s) ∧
  (k = 0%nat → cube_of s a = None ∧
     ∀ lh, worker_thread i (with_lh_choose lh a) s = worker_thread i a s) ∧
  (is_Some (cube_of s a) → 0 < num_rounds s ∧ (0 < k)%nat) ∧
  (∀ pasm v, pasms s !! i = Some pasm → verdict_of s i a = Some v →
     (∀ e, v ≠ faults e) →
     ∃ pctx', pctxs (worker_thread i a s) !! i = Some pctx' ∧
              m_assumptions pctx' = pasm ++ option_list (cube_of s a)).
Proof.
  intros Hent.
  destruct (entering_inv _ _ _ _ Hent) as (_ & _ & _ & _ & _ & _ & _ & _ & Hn & Hp).
  assert (H0 : k = 0%nat → (0 <? num_rounds s) = false).
  { intros ->. inversion Hent; subst. done. }
  split_and!.
  - apply worker_thread_frame.
  - by rewrite Hn.
  - intros Hk. specialize (H0 Hk). split.
    + unfold cube_of. by rewrite H0.
    + intros lh. by apply with_lh_choose_round0.
  - intros [cb Hcb]. unfold cube_of in Hcb.
    destruct (0 <? num_rounds s) eqn:Hr; [|done].
    split; [by apply Z.ltb_lt|]. destruct k; [|lia]. by specialize (H0 eq_refl).
  - intros pasm v Ha Hv Hnf.
    assert (is_Some (pctxs s !! i)) as [pctx Hi].
    { unfold verdict_of in Hv. destruct (pctxs s !! i); by eauto. }
    destruct (worker_thread_own i a s pctx pasm Hi Ha) as (pctx' & Hp' & _ & Hshape).
    exists pctx'. split; [done|]. rewrite Hv in Hshape.
    destruct v as [| |r|e]; [by subst..|by destruct (Hnf e)].
Qed.

(** ** After the loop *)

Lemma fold_statistics_fields c (cs : list context) :
  m_aux_stats (fold_statistics c cs)
    = foldl (λ st pc, collect_statistics pc st) (m_aux_stats c) cs ∧
  m_model (fold_statistics c cs) = m_model c ∧
  m_unsat_core (fold_statistics c cs) = m_unsat_core c.
Proof.
  unfold fold_statistics. revert c; induction cs as [|pc cs IH]; intros c; [done|].
  simpl. destruct (IH (set_aux_stats (collect_statistics pc (m_aux_stats c)) c))
    as (-> & -> & ->). done.
Qed.

Lemma merge_fields fid pctx r c :
  m_aux_stats (merge fid pctx r c) = m_aux_stats c ∧
  (r = l_false →
   m_unsat_core (merge fid pctx r c)
     = m_unsat_core c ++ (translate (worker fid) primary <$> unsat_core pctx)) ∧
  (r = l_true → get_model pctx = None → merge fid pctx r c = c).
Proof.
  assert (Hpush : ∀ (es : list expr) (c0 : context),
    m_aux_stats (foldl (λ c e, push_unsat_core c (translate (worker fid) primary e)) c0 es)
      = m_aux_stats c0 ∧
    m_unsat_core (foldl (λ c e, push_unsat_core c (translate (worker fid) primary e)) c0 es)
      = m_unsat_core c0 ++ (translate (worker fid) primary <$> es)).
  { induction es as [|e es IH]; intros c0; simpl; [by rewrite app_nil_r|].
    destruct (IH (push_unsat_core c0 (translate (worker fid) primary e))) as [-> ->].
    simpl. by rewrite <- app_assoc. }
  unfold merge. split_and!.
  - destruct r; [apply Hpush|done|]. by destruct (get_model pctx).
  - intros ->. apply Hpush.
  - intros -> ->. done.
Qed.

(** C9.  Whenever the call comes back, whichever way, sat, unsat, unknown
    or by an exception, the primary context has had the statistics of every
    worker context folded into [m_aux_stats], in the order of the workers;
    and the call comes back from every round that sets [done]. *)
Theorem statistics_are_always_folded c asms :
  (∀ sched c' out, parallel_call c asms sched = Some (c', out) →
     ∃ s, round_loop sched (setup c asms) = Some s ∧
          length (pctxs s) = Z.to_nat (m_threads (m_fparams c)) ∧
          m_aux_stats c'
            = foldl (λ st pc, collect_statistics pc st) (m_aux_stats c) (pctxs s)) ∧
  (∀ k s evs, entering c asms k s → done (run_round evs s) = true →
     ∃ sched, length sched = k ∧
       ∀ rest, parallel_call c asms (sched ++ evs :: rest)
               = Some (finish (run_round evs s))).
Proof.
  split; [|by apply parallel_call_returns].
  unfold parallel_call. intros sched c' out Hcall.
  destruct (round_loop sched (setup c asms)) as [sfin|] eqn:Hloop; [|done].
  injection Hcall as Hfin. exists sfin. split; [done|].
  destruct (round_loop_final c asms sched 0 _ sfin (enter_first c asms) Hloop)
    as (k & s & evs & Hent & _ & -> & _).
  destruct (entering_inv _ _ _ _ Hent) as (((Hlen & _) & _) & _ & _ & _ & _ & _ & _ & Hc & Hn & _).
  destruct (run_round_frame evs s) as (Hc' & _ & _ & _ & _ & _ & _ & _ & _ & Hl).
  split; [congruence|].
  assert (Haux : m_aux_stats (ctx (run_round evs s)) = m_aux_stats c).
  { change (m_aux_stats (set_max_conflicts 0 (ctx (run_round evs s)))
            = m_aux_stats (set_max_conflicts 0 (set_threads 1 c))).
    by rewrite Hc', Hc. }
  destruct (fold_statistics_fields (ctx (run_round evs s)) (pctxs (run_round evs s)))
    as (Hst & _).
  rewrite Haux in Hst. rewrite <- Hst. change c' with (c', out).1. rewrite <- Hfin.
  unfold finish.
  repeat case_match; simpl; try done; apply merge_fields.
Qed.

Lemma event_unique evs i a a' :
  NoDup evs.*1 → (i, a) ∈ evs → (i, a') ∈ evs → a = a'.
Proof.
  induction evs as [|[j b] evs IH]; [by intros _ ?%elem_of_nil|].
  simpl. intros [Hj Hnd]%NoDup_cons [H1|H1]%elem_of_cons [H2|H2]%elem_of_cons.
  - congruence.
  - injection H1 as Hi Ha; subst j b. destruct Hj. apply list_elem_of_fmap. by exists (i, a').
  - injection H2 as Hi Ha; subst j b. destruct Hj. apply list_elem_of_fmap. by exists (i, a).
  - by apply IH.
Qed.

Lemma verdict_decides_inv s i a r :
  verdict_of s i a = Some (decides r) →
  check_result a = Ok r ∧
  (r = l_false → ∀ cb, cube_of s a = Some cb → cb ∉ check_unsat_core a).
Proof.
  unfold verdict_of, cube_of.
  destruct (pctxs s !! i), (pasms s !! i); try done.
  destruct (0 <? num_rounds s); [destruct (lh_choose a) as [cb'|]|]; try done.
  all: destruct (check_result a) as [r0|]; try done.
  all: repeat case_match; try done; intros [= ->]; split; try done.
  all: intros -> cb ?; simplify_eq/=.
  rewrite bool_decide_eq_false in *. done.
Qed.

(** The primary context after the last round: the parameters hold the
    budget of that round. *)
Lemma final_round_ctx c asms k s evs :
  entering c asms k s → done (run_round evs s) = true →
  ctx (run_round evs s) = set_max_conflicts (max_conflicts s) (set_threads 1 c).
Proof.
  intros Hent Hd.
  destruct (entering_inv _ _ _ _ Hent) as (_ & Hd0 & Hf0 & _ & _ & _ & _ & Hc & _).
  rewrite <- Hc. apply run_round_ctx.
  apply (run_round_done evs s Hd0 Hf0) in Hd as (i & a & v & Hin & Hv & _).
  exists i, a. by rewrite Hv.
Qed.

(** The last round of a call and what the caller gets from it. *)
Lemma final_round_result c asms k s evs c' out :
  m_threads (m_fparams c) ≤ UINT_MAX → entering c asms k s → NoDup evs.*1 →
  done (run_round evs s) = true → finish (run_round evs s) = (c', out) →
  match first_decision s evs with
  | Some (w, r) =>
      out = returns r ∧
      ∃ a pctx, (w, a) ∈ evs ∧ verdict_of s w a = Some (decides r) ∧
        c' = set_threads (Z.of_nat (num_threads s))
               (merge w (check (new_pasms asms w ++ option_list (cube_of s a)) a
                           (set_max_conflicts (max_conflicts s) pctx))
                      r (fold_statistics
                           (set_max_conflicts (max_conflicts s) (set_threads 1 c))
                           (pctxs (run_round evs s))))
  | None =>
      (∃ e, last_fault s evs = Some e ∧ out = surfaced e) ∧
      c' = set_threads (Z.of_nat (num_threads s))
             (fold_statistics (set_max_conflicts (max_conflicts s) (set_threads 1 c))
                (pctxs (run_round evs s)))
  end.
Proof.
  intros Hn Hent Hnd Hd Hfin.
  destruct (entering_inv _ _ _ _ Hent) as (_ & Hd0 & Hf0 & _ & _ & _ & _ & Hc & Hnt & Hpa).
  assert (Hlen := entering_threads _ _ _ _ Hn Hent).
  assert (Hrace := run_round_race evs s Hlen Hf0).
  assert (Hout := final_round_outcome c asms k s evs Hn Hent Hd).
  destruct (run_round_frame evs s) as (_ & Hnt' & _).
  assert (Hc' := final_round_ctx c asms k s evs Hent Hd).
  rewrite Hfin in Hout.
  unfold finish in Hfin. rewrite Hc', Hnt' in Hfin.
  destruct (first_decision s evs) as [[w r]|] eqn:Hfd.
  - destruct Hrace as (Hid & Hr & _).
    destruct (run_round_winner evs s w r) as (a & pctx & pasm & Hin & Hv & Hp & Ha & Hw);
      [done..|].
    destruct (valid_index_u32 s w a) as [_ Hne]; [done|by rewrite Hv|].
    apply Z.eqb_neq in Hne. rewrite Hid, Hne, Nat2Z.id, Hw, Hr in Hfin.
    injection Hfin as <- <-. split; [done|]. exists a, pctx. split_and!; [done..|].
    rewrite Hpa, list_lookup_fmap in Ha.
    destruct (seq 0 (Z.to_nat (m_threads (m_fparams c))) !! w) as [w'|] eqn:Hs; [|done].
    apply lookup_seq in Hs as [-> _]. simpl in Ha. by injection Ha as <-.
  - destruct Hrace as (Hid & _). rewrite Hid in Hfin. simpl in Hfin.
    split; [done|]. destruct (ex_kind (run_round evs s)); by injection Hfin as <- _.
Qed.

(** The core that an unsat winner hands to the caller. *)
Lemma final_round_core c asms k s evs w a :
  m_threads (m_fparams c) ≤ UINT_MAX → entering c asms k s → NoDup evs.*1 →
  first_decision s evs = Some (w, l_false) → (w, a) ∈ evs →
  (finish (run_round evs s)).2 = returns l_false ∧
  check_result a = Ok l_false ∧
  m_unsat_core (finish (run_round evs s)).1
    = m_unsat_core c ++ (translate (worker w) primary <$> check_unsat_core a) ∧
  (∀ cb, cube_of s a = Some cb → cb ∉ check_unsat_core a) ∧
  ((∀ e, e ∈ check_unsat_core a →
         e ∈ new_pasms asms w ++ option_list (cube_of s a)) →
   ∀ e, e ∈ check_unsat_core a → e ∈ new_pasms asms w).
Proof.
  intros Hn Hent Hnd Hfd Hin.
  assert (Hd : done (run_round evs s) = true).
  { eapply round_ends; [done..|]. left. by rewrite Hfd. }
  destruct (finish (run_round evs s)) as [c' out] eqn:Hfin.
  assert (Hres := final_round_result c asms k s evs c' out Hn Hent Hnd Hd Hfin).
  rewrite Hfd in Hres. destruct Hres as (-> & a' & pctx & Hin' & Hv & ->).
  assert (a' = a) as -> by (by eapply event_unique).
  destruct (verdict_decides_inv _ _ _ _ Hv) as [Hr Hcube].
  cbn [fst snd]. split_and!; [done..| | |].
  - change (m_unsat_core (set_threads ?n ?x)) with (m_unsat_core x).
    destruct (merge_fields w (check (new_pasms asms w ++ option_list (cube_of s a)) a
                                (set_max_conflicts (max_conflicts s) pctx))
                l_false (fold_statistics
                           (set_max_conflicts (max_conflicts s) (set_threads 1 c))
                           (pctxs (run_round evs s))))
      as (_ & Hcore & _).
    rewrite Hcore by done.
    by destruct (fold_statistics_fields
                   (set_max_conflicts (max_conflicts s) (set_threads 1 c))
                   (pctxs (run_round evs s)))
      as (_ & _ & ->).
  - by apply Hcube.
  - intros Hsub e He. specialize (Hsub e He).
    apply elem_of_app in Hsub as [?|Hsub]; [done|].
    destruct (cube_of s a) as [cb|] eqn:Hcb; simpl in Hsub.
    + apply list_elem_of_singleton in Hsub as ->. by destruct (Hcube eq_refl cb).
    + by apply elem_of_nil in Hsub.
Qed.

(** C5.  A worker whose [check] returns unsat with a core that holds its
    cube literal asserts the negation of the conjunction of that core into
    its own context and returns: the assertions of that context are the
    ones it had followed by the negated core, the assertions of every other
    context, the primary one included, are the ones they had, and
    [result], [finished_id] and [done] stay as they were.  Hence a call
    returns unsat exactly from a round whose first worker to decide
    answered unsat; the core pushed on [ctx.m_unsat_core] is the translated
    core of that worker's [check], the cube of that check is not in it, and
    if the solver draws its cores from the assumptions it was given, every
    literal of the returned core is one of the caller's assumptions. *)
Theorem cube_cores_are_not_returned c asms :
  m_threads (m_fparams c) ≤ UINT_MAX →
  (∀ s i a pctx pasm cb,
     pctxs s !! i = Some pctx → pasms s !! i = Some pasm →
     check_result a = Ok l_false → cube_of s a = Some cb → cb ∈ check_unsat_core a →
     pctxs (worker_thread i a s) !! i =
       Some (assert_expr (mk_not (mk_and (check_unsat_core a)))
               (check (pasm ++ [cb]) a (set_max_conflicts (max_conflicts s) pctx))) ∧
     (∃ pctx', pctxs (worker_thread i a s) !! i = Some pctx' ∧
        m_asserted_formulas pctx'
          = m_asserted_formulas pctx ++ [mk_not (mk_and (check_unsat_core a))] ∧
        m_assumptions pctx' = pasm ++ [cb] ∧
        m_unsat_core pctx' = check_unsat_core a) ∧
     (∀ j pj', j ≠ i → pctxs (worker_thread i a s) !! j = Some pj' →
        ∃ pj, pctxs s !! j = Some pj ∧
              m_asserted_formulas pj' = m_asserted_formulas pj) ∧
     m_asserted_formulas (ctx (worker_thread i a s)) = m_asserted_formulas (ctx s) ∧
     result (worker_thread i a s) = result s ∧
     finished_id (worker_thread i a s) = finished_id s ∧
     done (worker_thread i a s) = done s) ∧
  (∀ sched c', Forall (λ evs, NoDup evs.*1) sched →
     parallel_call c asms sched = Some (c', returns l_false) →
     ∃ k s evs w a, entering c asms k s ∧ sched !! k = Some evs ∧
       finish (run_round evs s) = (c', returns l_false) ∧
       first_decision s evs = Some (w, l_false) ∧ (w, a) ∈ evs) ∧
  (∀ k s evs w a, entering c asms k s → NoDup evs.*1 →
     first_decision s evs = Some (w, l_false) → (w, a) ∈ evs →
     (∃ sched, length sched = k ∧
        ∀ rest, parallel_call c asms (sched ++ evs :: rest)
                = Some (finish (run_round evs s))) ∧
     (finish (run_round evs s)).2 = returns l_false ∧
     check_result a = Ok l_false ∧
     m_unsat_core (finish (run_round evs s)).1
       = m_unsat_core c ++ (translate (worker w) primary <$> check_unsat_core a) ∧
     (∀ cb, cube_of s a = Some cb → cb ∉ check_unsat_core a) ∧
     ((∀ e, e ∈ check_unsat_core a →
            e ∈ new_pasms asms w ++ option_list (cube_of s a)) →
      ∀ e, e ∈ check_unsat_core a → e ∈ new_pasms asms w)).
Proof.
  intros Hn. split_and!.
  - intros s i a pctx pasm cb Hp Ha Hr Hcb Hin.
    assert (Hv : verdict_of s i a = Some cube_refuted).
    { unfold verdict_of, cube_of in *. rewrite Hp, Ha, Hr.
      destruct (0 <? num_rounds s); [|done].
      destruct (lh_choose a) as [cb'|]; [|done]. subst cb'. simpl.
      by rewrite bool_decide_true. }
    destruct (worker_thread_own i a s pctx pasm Hp Ha) as (pctx' & Hp' & _ & Hshape).
    rewrite Hv, Hcb in Hshape. simpl in Hshape. subst pctx'.
    destruct (worker_thread_silent i a s) as (? & ? & ? & _); [by right|].
    split_and!; [done| | | |done..].
    + eexists. split; [exact Hp'|]. done.
    + intros j pj' Hne Hj.
      destruct (worker_thread_others i a s j Hne) as [Ho|(_ & [r Hr'] & _)];
        [by rewrite Hv| |congruence].
      rewrite Ho in Hj. destruct (pctxs s !! j) as [pj|]; simplify_eq/=. by exists pj.
    + rewrite worker_thread_ctx by (by rewrite Hv). done.
  - intros sched c' Hnd Hcall. unfold parallel_call in Hcall.
    destruct (round_loop sched (setup c asms)) as [sfin|] eqn:Hloop; [|done].
    injection Hcall as Hfin.
    destruct (round_loop_final c asms sched 0 _ sfin (enter_first c asms) Hloop)
      as (k & s & evs & Hent & Hk & -> & Hd).
    assert (Hnd' : NoDup evs.*1) by (by eapply Forall_lookup_1 in Hnd).
    assert (Hres := final_round_result c asms k s evs c' _ Hn Hent Hnd' Hd Hfin).
    destruct (first_decision s evs) as [[w r]|] eqn:Hfd.
    2: { destruct Hres as [(e & _ & He) _]. by destruct e. }
    destruct Hres as ([= <-] & a & pctx & Hin & _).
    exists k, s, evs, w, a. done.
  - intros k s evs w a Hent Hnd Hfd Hin. split.
    + eapply parallel_call_returns; [done|]. eapply round_ends; [done..|].
      left. by rewrite Hfd.
    + by eapply final_round_core.
Qed.

(** C10.  When the winner's result is sat and its context has no model
    ([get_model] leaves the reference null), the call returns sat and
    [ctx.m_model] is what it was before the call. *)
Theorem sat_without_model c asms k s evs w a :
  m_threads (m_fparams c) ≤ UINT_MAX → entering c asms k s → NoDup evs.*1 →
  first_decision s evs = Some (w, l_true) → (w, a) ∈ evs → check_model a = None →
  (∃ sched, length sched = k ∧
     ∀ rest, parallel_call c asms (sched ++ evs :: rest)
             = Some (finish (run_round evs s))) ∧
  (finish (run_round evs s)).2 = returns l_true ∧
  m_model (finish (run_round evs s)).1 = m_model c.
Proof.
  intros Hn Hent Hnd Hfd Hin Hmdl.
  assert (Hd : done (run_round evs s) = true).
  { eapply round_ends; [done..|]. left. by rewrite Hfd. }
  split; [by eapply parallel_call_returns|].
  destruct (finish (run_round evs s)) as [c' out] eqn:Hfin.
  assert (Hres := final_round_result c asms k s evs c' out Hn Hent Hnd Hd Hfin).
  rewrite Hfd in Hres. destruct Hres as (-> & a' & pctx & Hin' & _ & ->).
  assert (a' = a) as -> by (by eapply event_unique).
  split; [done|]. cbn [fst snd].
  change (m_model (set_threads ?n ?x)) with (m_model x).
  destruct (merge_fields w (check (new_pasms asms w ++ option_list (cube_of s a)) a
                              (set_max_conflicts (max_conflicts s) pctx))
              l_true (fold_statistics
                        (set_max_conflicts (max_conflicts s) (set_threads 1 c))
                        (pctxs (run_round evs s))))
    as (_ & _ & Hkeep).
  rewrite Hkeep by done.
  by destruct (fold_statistics_fields
                 (set_max_conflicts (max_conflicts s) (set_threads 1 c))
                 (pctxs (run_round evs s)))
    as (_ & -> & _).
Qed.

End Call.

(** ** More on the call *)

Section More.
Context {expr model statistics : Type} `{Countable expr}.
Context `{!Collaborators expr model statistics}.

Local Abbreviation context := (context expr model statistics).
Local Abbreviation answer := (answer expr model).
Local Abbreviation state := (state expr model statistics).

Implicit Types (s : state) (c pctx : context) (a : answer) (i j k : nat)
  (evs : list (nat * answer)) (asms : list expr).

Lemma run_round_no_workers evs s : pctxs s = [] → run_round evs s = s.
Proof.
  intros Hp. induction evs as [|[i a] evs IH]; [done|].
  rewrite run_round_cons. unfold worker_thread. by rewrite Hp, lookup_nil.
Qed.

Lemma collect_units_no_workers s : num_threads s = 0%nat → collect_units s = s.
Proof. intros Hn. unfold collect_units. rewrite Hn. simpl. by rewrite Hn. Qed.

Lemma round_loop_no_workers sched s :
  pctxs s = [] → num_threads s = 0%nat → done s = false → round_loop sched s = None.
Proof.
  revert s. induction sched as [|evs sched IH]; intros s Hp Hn Hd; [done|].
  simpl. rewrite (run_round_no_workers evs s Hp), Hd.
  rewrite (collect_units_no_workers s Hn). by apply IH.
Qed.

(** X1: with no thread configured the loop starts no worker, so no round
    sets [done] and the call never comes back. *)
Theorem no_workers_no_answer c asms sched :
  m_threads (m_fparams c) = 0 → parallel_call c asms sched = None.
Proof.
  intros Hn. unfold parallel_call.
  rewrite round_loop_no_workers; [done| | |done]; unfold setup; by rewrite Hn.
Qed.

Lemma setup_pctx c asms i pi :
  pctxs (setup c asms) !! i = Some pi →
  (i < Z.to_nat (m_threads (m_fparams c)))%nat ∧
  pi = new_pctx (set_threads 1 c) i.
Proof.
  unfold setup; simpl. rewrite list_lookup_fmap.
  destruct (seq 0 (Z.to_nat (m_threads (m_fparams c))) !! i) as [i'|] eqn:Hi; [|done].
  apply lookup_seq in Hi as [-> ?]. simpl. by intros [= <-].
Qed.

(** X2: worker [i] is seeded with [i] plus the seed of the parameters,
    modulo 2^32, and no two workers of a call get the same seed. *)
Theorem workers_get_distinct_seeds c asms i j pi pj :
  m_threads (m_fparams c) ≤ UINT_MAX →
  pctxs (setup c asms) !! i = Some pi → pctxs (setup c asms) !! j = Some pj →
  m_random pi = u32 (Z.of_nat i + m_random_seed (m_fparams c)) ∧
  (m_random pi = m_random pj → i = j).
Proof.
  intros Hn [Hi ->]%setup_pctx [Hj ->]%setup_pctx. unfold new_pctx; simpl.
  split; [done|]. unfold u32, UINT_MAX in *. intros Heq.
  set (M := 2 ^ 32) in *.
  assert (HM : M = 4294967296) by done.
  pose proof (Z.div_mod (Z.of_nat i + m_random_seed (m_fparams c)) M ltac:(lia)) as H1.
  pose proof (Z.div_mod (Z.of_nat j + m_random_seed (m_fparams c)) M ltac:(lia)) as H2.
  rewrite Heq in H1.
  assert (Hd : Z.of_nat i - Z.of_nat j =
               M * ((Z.of_nat i + m_random_seed (m_fparams c)) / M
                    - (Z.of_nat j + m_random_seed (m_fparams c)) / M)) by lia.
  assert (- M < Z.of_nat i - Z.of_nat j < M) by lia.
  assert ((Z.of_nat i + m_random_seed (m_fparams c)) / M
          - (Z.of_nat j + m_random_seed (m_fparams c)) / M = 0) by nia.
  lia.
Qed.

Lemma worker_thread_cancel i a s j :
  m_cancel <$> pctxs (worker_thread i a s) !! j =
  match verdict_of s i a with
  | Some (decides _) =>
    if decide (j ≠ i ∧ finished_id s = UINT_MAX)
    then (λ _, true) <$> pctxs s !! j else m_cancel <$> pctxs s !! j
  | _ => m_cancel <$> pctxs s !! j
  end.
Proof.
  assert (Hmap : m_cancel <$> (set_max_conflicts (max_conflicts s) <$> pctxs s) !! j
                 = m_cancel <$> pctxs s !! j).
  { rewrite list_lookup_fmap. by destruct (pctxs s !! j). }
  assert (Hins : ∀ c0 c1, pctxs s !! i = Some c0 → m_cancel c1 = m_cancel c0 →
            m_cancel <$> <[i:=c1]> (set_max_conflicts (max_conflicts s) <$> pctxs s) !! j
            = m_cancel <$> pctxs s !! j).
  { intros c0 c1 H0 Hc. destruct (decide (i = j)) as [->|Hne].
    - rewrite list_lookup_insert_eq by (rewrite length_fmap; by eapply lookup_lt_Some).
      by rewrite H0; simpl; rewrite Hc.
    - by rewrite list_lookup_insert_ne. }
  unfold worker_thread, verdict_of, set_pctx, cancel_others, cube.
  destruct (pctxs s !! i) as [c0|] eqn:H0; [|done].
  destruct (pasms s !! i) as [pasm|]; [|done].
  change (num_rounds (write_max_conflicts (max_conflicts s) s)) with (num_rounds s).
  repeat case_match; simplify_eq/=;
    repeat match goal with
           | e : raised |- _ => destruct e; simpl in *
           | H : (_ =? _) = true |- _ => apply Z.eqb_eq in H
           | H : (_ =? _) = false |- _ => apply Z.eqb_neq in H
           end;
    rewrite ?list_insert_insert_eq; try congruence;
    try (by erewrite Hins); try (by destruct_and?).
  all: rewrite list_lookup_imap.
  all: destruct (decide (j = i)) as [->|Hne];
    [rewrite list_lookup_insert_eq by (rewrite length_fmap; by eapply lookup_lt_Some);
     simpl; rewrite ?decide_True by done; rewrite ?H0; simpl
    |rewrite list_lookup_insert_ne, list_lookup_fmap by done;
     destruct (pctxs s !! j); simpl; [|done];
     rewrite ?decide_False by done; simpl];
    first [done | by destruct_and? | exfalso; by eauto].
Qed.

Lemma run_round_cancel evs s j :
  Z.of_nat (length (pctxs s)) ≤ UINT_MAX →
  m_cancel <$> pctxs (run_round evs s) !! j =
  if decide (finished_id s = UINT_MAX) then
    match first_decision s evs with
    | Some (w, _) =>
      if decide (j = w) then m_cancel <$> pctxs s !! j
      else (λ _, true) <$> pctxs s !! j
    | None => m_cancel <$> pctxs s !! j
    end
  else m_cancel <$> pctxs s !! j.
Proof.
  revert s. induction evs as [|[i a] evs IH]; intros s Hlen.
  { simpl. by case_decide. }
  rewrite run_round_cons.
  destruct (worker_thread_frame i a s) as (_ & _ & _ & _ & _ & _ & _ & _ & _ & Hl).
  rewrite IH by (by rewrite Hl). clear IH.
  pose proof (worker_thread_cancel i a s j) as Hc.
  assert (Hfd : first_decision s ((i, a) :: evs) =
                match verdict_of s i a with
                | Some (decides r) => Some (i, r)
                | _ => first_decision s evs
                end) by done.
  rewrite Hfd. clear Hfd.
  destruct (decide (finished_id s = UINT_MAX)) as [Hf|Hf].
  - destruct (verdict_of s i a) as [v|] eqn:Hv.
    2: { rewrite (worker_thread_invalid i a s Hv). by rewrite decide_True. }
    assert (Hcases : (∃ r, v = decides r) ∨ ∀ r, v ≠ decides r).
    { destruct v; eauto. }
    destruct Hcases as [[r ->]|Hnd].
    + destruct (worker_thread_decides_first i a s r Hv Hf) as (_ & Hid & _).
      destruct (valid_index_u32 s i a Hlen) as [Hu Hne]; [by rewrite Hv|].
      rewrite decide_False by congruence. rewrite Hc.
      destruct (decide (j = i)) as [->|Hji].
      * rewrite decide_False; [done|]. by intros [? _].
      * by rewrite decide_True.
    + destruct (worker_thread_undecided i a s j) as [Hid _].
      { intros r Hr. rewrite Hv in Hr. injection Hr as ->. by eapply Hnd. }
      rewrite decide_True by congruence. rewrite first_decision_worker_thread.
      assert (Hsame : m_cancel <$> pctxs (worker_thread i a s) !! j
                      = m_cancel <$> pctxs s !! j).
      { rewrite Hc. destruct v; try done. by exfalso; eapply Hnd. }
      assert (Htrue : (λ _ : context, true) <$> pctxs (worker_thread i a s) !! j
                      = (λ _, true) <$> pctxs s !! j).
      { by destruct (pctxs (worker_thread i a s) !! j), (pctxs s !! j). }
      rewrite Hsame, Htrue. destruct v; try done. by exfalso; eapply Hnd.
  - destruct (worker_thread_race_kept i a s Hf) as [Hid _].
    rewrite decide_False by congruence. rewrite Hc.
    destruct (verdict_of s i a) as [[]|]; try done.
    rewrite decide_False; [done|]. by intros [_ ?].
Qed.

(** X3: the worker that wins the race cancels the manager of every other
    worker, whatever that worker does in the rest of the round, and not
    its own. *)
Theorem winner_cancels_the_others c asms k s evs w r :
  m_threads (m_fparams c) ≤ UINT_MAX → entering c asms k s →
  first_decision s evs = Some (w, r) →
  (∀ j pj, j ≠ w → pctxs (run_round evs s) !! j = Some pj → m_cancel pj = true) ∧
  (∀ pw pw', pctxs s !! w = Some pw → pctxs (run_round evs s) !! w = Some pw' →
     m_cancel pw' = m_cancel pw).
Proof.
  intros Hn Hent Hfd.
  assert (Hlen := entering_threads _ _ _ _ Hn Hent).
  destruct (entering_inv _ _ _ _ Hent) as (_ & _ & Hf & _).
  split.
  - intros j pj Hj Hpj. pose proof (run_round_cancel evs s j Hlen) as Hc.
    rewrite decide_True, Hfd, decide_False, Hpj in Hc by done. simpl in Hc.
    destruct (pctxs s !! j); simpl in Hc; congruence.
  - intros pw pw' Hpw Hpw'. pose proof (run_round_cancel evs s w Hlen) as Hc.
    rewrite decide_True, Hfd, decide_True, Hpw, Hpw' in Hc by done. simpl in Hc.
    congruence.
Qed.

(** X4: a round in which no worker reaches the guarded section cancels no
    manager; so a fault ends the call without any worker being told to
    stop. *)
Theorem fault_cancels_nobody c asms k s evs :
  m_threads (m_fparams c) ≤ UINT_MAX → entering c asms k s →
  first_decision s evs = None →
  (∀ j pj pj', pctxs s !! j = Some pj → pctxs (run_round evs s) !! j = Some pj' →
     m_cancel pj' = m_cancel pj) ∧
  (∀ e, last_fault s evs = Some e →
     done (run_round evs s) = true ∧ (finish (run_round evs s)).2 = surfaced e).
Proof.
  intros Hn Hent Hfd.
  assert (Hlen := entering_threads _ _ _ _ Hn Hent).
  destruct (entering_inv _ _ _ _ Hent) as (_ & _ & Hf & _).
  split.
  - intros j pj pj' Hpj Hpj'. pose proof (run_round_cancel evs s j Hlen) as Hc.
    rewrite decide_True, Hfd, Hpj, Hpj' in Hc by done. simpl in Hc. congruence.
  - intros e He.
    assert (Hd : done (run_round evs s) = true).
    { eapply round_ends; [done..|]. right. by rewrite He. }
    split; [done|].
    pose proof (final_round_outcome c asms k s evs Hn Hent Hd) as Hout.
    rewrite Hfd in Hout. destruct Hout as (e' & He' & ->). congruence.
Qed.

Lemma fold_statistics_frame c (cs : list context) :
  m_fparams (fold_statistics c cs) = m_fparams c ∧
  m_random (fold_statistics c cs) = m_random c ∧
  m_asserted_formulas (fold_statistics c cs) = m_asserted_formulas c ∧
  m_cancel (fold_statistics c cs) = m_cancel c.
Proof.
  unfold fold_statistics. revert c. induction cs as [|pc cs IH]; intros c; [done|].
  simpl. destruct (IH (set_aux_stats (collect_statistics pc (m_aux_stats c)) c))
    as (-> & -> & -> & ->). done.
Qed.

Lemma merge_frame fid pctx r c :
  m_fparams (merge fid pctx r c) = m_fparams c ∧
  m_random (merge fid pctx r c) = m_random c ∧
  m_asserted_formulas (merge fid pctx r c) = m_asserted_formulas c ∧
  m_cancel (merge fid pctx r c) = m_cancel c ∧
  (r ≠ l_true → m_model (merge fid pctx r c) = m_model c) ∧
  (r ≠ l_false → m_unsat_core (merge fid pctx r c) = m_unsat_core c).
Proof.
  unfold merge. destruct r.
  - generalize (unsat_core pctx). intros core. revert c.
    induction core as [|e core IH]; intros c; [done|]. simpl.
    destruct (IH (push_unsat_core c (translate (worker fid) primary e)))
      as (-> & -> & -> & -> & Hm & _). split_and!; try done;
      intros ?; by rewrite Hm.
  - done.
  - by destruct (get_model pctx).
Qed.

Lemma finish_frame s :
  m_fparams (finish s).1
    = m_fparams (set_threads (Z.of_nat (num_threads s)) (ctx s)) ∧
  m_random (finish s).1 = m_random (ctx s) ∧
  m_asserted_formulas (finish s).1 = m_asserted_formulas (ctx s) ∧
  m_cancel (finish s).1 = m_cancel (ctx s) ∧
  ((finish s).2 ≠ returns l_true → m_model (finish s).1 = m_model (ctx s)) ∧
  ((finish s).2 ≠ returns l_false → m_unsat_core (finish s).1 = m_unsat_core (ctx s)).
Proof.
  destruct (fold_statistics_frame (ctx s) (pctxs s)) as (Hp & Hr & Ha & Hc).
  destruct (fold_statistics_fields (ctx s) (pctxs s)) as (_ & Hm & Hu).
  unfold finish. repeat case_match; simpl;
    try match goal with
        | |- context [merge ?fid ?p ?r ?x] =>
          destruct (merge_frame fid p r x) as (Hp' & Hr' & Ha' & Hc' & Hm' & Hu');
          rewrite ?Hp', ?Hr', ?Ha', ?Hc'
        end;
    rewrite ?Hp, ?Hr, ?Ha, ?Hc; split_and!; try done;
    intros Hne; rewrite ?Hm', ?Hu' by congruence; done.
Qed.

Lemma parallel_call_final c asms sched c' out :
  parallel_call c asms sched = Some (c', out) →
  ∃ k sk evs, entering c asms k sk ∧ sched !! k = Some evs ∧
    done (run_round evs sk) = true ∧ finish (run_round evs sk) = (c', out) ∧
    ctx (run_round evs sk) = set_max_conflicts (max_conflicts sk) (set_threads 1 c) ∧
    num_threads (run_round evs sk) = Z.to_nat (m_threads (m_fparams c)).
Proof.
  unfold parallel_call. intros Hcall.
  destruct (round_loop sched (setup c asms)) as [s|] eqn:Hloop; [|done].
  injection Hcall as Hfin.
  destruct (round_loop_final c asms sched 0 (setup c asms) s (enter_first c asms) Hloop)
    as (k & sk & evs & Hent & Hk & -> & Hd).
  destruct (entering_inv _ _ _ _ Hent) as (_ & _ & _ & _ & _ & _ & _ & _ & Hnt & _).
  destruct (run_round_frame evs sk) as (_ & Hnt' & _).
  exists k, sk, evs. split_and!; [done..|by eapply final_round_ctx|congruence].
Qed.

(** The workers and [ctx] show the same parameters, whatever the workers
    and the relay do. *)
Lemma worker_thread_shared i a s :
  shared_fparams s → shared_fparams (worker_thread i a s).
Proof.
  intros Hsh. destruct (verdict_of s i a) as [v|] eqn:Hv;
    [|by rewrite worker_thread_invalid].
  intros j pj Hj. rewrite worker_thread_ctx by (by rewrite Hv).
  destruct (decide (j = i)) as [->|Hne].
  - assert (is_Some (pctxs s !! i) ∧ is_Some (pasms s !! i)) as [[pctx Hp] [pasm Ha]].
    { unfold verdict_of in Hv. destruct (pctxs s !! i), (pasms s !! i); by eauto. }
    destruct (worker_thread_own i a s pctx pasm Hp Ha) as (p & Hp' & _ & Hshape).
    rewrite Hv in Hshape. assert (p = pj) as -> by congruence.
    assert (Heq : m_fparams pj = m_fparams (set_max_conflicts (max_conflicts s) pctx)).
    { destruct v as [| |r|e]; [by subst..|by destruct Hshape; subst]. }
    rewrite Heq. simpl. by rewrite (Hsh i pctx Hp).
  - assert (Heq : ∃ p, pctxs s !! j = Some p ∧
              m_fparams pj = m_fparams (set_max_conflicts (max_conflicts s) p)).
    { destruct (worker_thread_others i a s j Hne) as [Ho|(_ & _ & Ho)];
        [by rewrite Hv|..]; rewrite Ho in Hj;
        destruct (pctxs s !! j) as [p|]; simplify_eq/=; by eauto. }
    destruct Heq as (p & Hp & ->). simpl. by rewrite (Hsh j p Hp).
Qed.

Lemma run_round_shared evs s :
  shared_fparams s → shared_fparams (run_round evs s).
Proof.
  revert s; induction evs as [|[i a] evs IH]; intros s Hsh; [done|].
  rewrite run_round_cons. by apply IH, worker_thread_shared.
Qed.

Lemma assert_batch_fparams (f : expr → expr) pctx (batch : list expr) :
  m_fparams (foldl (λ p e, assert_expr (f e) p) pctx batch) = m_fparams pctx.
Proof.
  revert pctx; induction batch as [|e batch IH]; intros pctx; [done|].
  simpl. by rewrite IH.
Qed.

Lemma collect_units_shared s :
  relay_inv s → shared_fparams s → shared_fparams (collect_units s).
Proof.
  intros Hinv Hsh i pi Hi.
  destruct (collect_units_spec s Hinv) as (Hsame & _ & _ & _ & Hctx).
  destruct Hsame as (-> & _ & _ & _ & _ & _ & _ & _ & _ & _ & _ & Hlen).
  destruct Hinv as ((Hs1 & _ & Hs3 & _) & _).
  assert (Hlt : (i < length (pctxs s))%nat).
  { rewrite <- Hlen. by eapply lookup_lt_Some. }
  destruct (lookup_lt_is_Some_2 (pctxs s) i Hlt) as [p Hp].
  destruct (lookup_lt_is_Some_2 (unit_lim s) i) as [lim Hlim]; [by rewrite Hs3, <- Hs1|].
  destruct (Hctx i p lim Hp Hlim) as [Hnew _]. rewrite Hnew in Hi. injection Hi as <-.
  rewrite assert_batch_fparams. simpl. by apply (Hsh i).
Qed.

Lemma entering_shared c asms k s : entering c asms k s → shared_fparams s.
Proof.
  induction 1 as [|k s evs Hent IH Hd].
  - intros i pi [_ ->]%setup_pctx. done.
  - intros i pi Hi. simpl in *.
    refine (collect_units_shared (run_round evs s) _ _ i pi Hi);
      [by eapply run_round_relay_inv, entering_inv|by apply run_round_shared].
Qed.

(** X5: the workers are built on the parameters of the primary context
    and write their budget into them, so a call that comes back from its
    round [k] leaves the budget of that round in [m_max_conflicts]; the
    other parameters, [m_threads] among them, the seed, the assertions and
    the cancel flag of the primary context are as they were.  While the
    rounds run every context of the call shows the same parameters, with
    [m_threads] at 1. *)
Theorem call_restores_threads c asms sched c' out :
  0 ≤ m_threads (m_fparams c) →
  0 ≤ m_threads_max_conflicts (m_fparams c) ≤ UINT_MAX →
  parallel_call c asms sched = Some (c', out) →
  m_threads (m_fparams c') = m_threads (m_fparams c) ∧
  m_threads_max_conflicts (m_fparams c') = m_threads_max_conflicts (m_fparams c) ∧
  m_random_seed (m_fparams c') = m_random_seed (m_fparams c) ∧
  (∃ k s evs, entering c asms k s ∧ sched !! k = Some evs ∧
     finish (run_round evs s) = (c', out) ∧
     m_max_conflicts (m_fparams c')
       = u32 (m_threads_max_conflicts (m_fparams c) * 2 ^ Z.of_nat k)) ∧
  m_random c' = m_random c ∧
  m_asserted_formulas c' = m_asserted_formulas c ∧ m_cancel c' = m_cancel c ∧
  ∀ k s, entering c asms k s →
    m_threads (m_fparams (ctx s)) = 1 ∧
    ∀ i pctx, pctxs s !! i = Some pctx → m_fparams pctx = m_fparams (ctx s).
Proof.
  intros Hn Hb (k & sk & evs & Hent & Hk & _ & Hfin & Hc & Hnt)%parallel_call_final.
  destruct (finish_frame (run_round evs sk)) as (Hp & Hr & Ha & Hca & _).
  rewrite Hfin, Hc, Hnt in *. simpl in *. rewrite Hp. simpl.
  split_and!; try done.
  - by rewrite Z2Nat.id.
  - exists k, sk, evs. split_and!; [done..|].
    destruct (entering_budget _ _ _ _ Hent) as (_ & _ & Hpos).
    destruct k as [|k]; [|by destruct Hpos; [lia|]].
    inversion Hent; subst. simpl. by rewrite Z.mul_1_r, u32_small.
  - intros k' s' Hent'. split; [|by eapply entering_shared].
    destruct (entering_inv _ _ _ _ Hent') as (_ & _ & _ & _ & _ & _ & _ & Hc' & _).
    change (m_threads (m_fparams (set_max_conflicts 0 (ctx s'))) = 1).
    by rewrite Hc'.
Qed.

(** X6: the model of the primary context changes only when the call
    returns sat, and its unsat core only when the call returns unsat; a
    call that throws or returns unknown leaves both. *)
Theorem only_an_answer_is_merged c asms sched c' out :
  parallel_call c asms sched = Some (c', out) →
  (out ≠ returns l_true → m_model c' = m_model c) ∧
  (out ≠ returns l_false → m_unsat_core c' = m_unsat_core c).
Proof.
  intros (k & sk & evs & Hent & _ & _ & Hfin & Hc & Hnt)%parallel_call_final.
  destruct (finish_frame (run_round evs sk)) as (_ & _ & _ & _ & Hm & Hu).
  rewrite Hfin, Hc in *. simpl in *. done.
Qed.

(** X7: when the winner answers sat and has a model, the primary context
    gets that model, translated from the winner's manager. *)
Theorem sat_model_is_the_winners c asms k s evs w a mdl :
  m_threads (m_fparams c) ≤ UINT_MAX → entering c asms k s → NoDup evs.*1 →
  first_decision s evs = Some (w, l_true) → (w, a) ∈ evs → check_model a = Some mdl →
  (∃ sched, length sched = k ∧
     ∀ rest, parallel_call c asms (sched ++ evs :: rest)
             = Some (finish (run_round evs s))) ∧
  (finish (run_round evs s)).2 = returns l_true ∧
  m_model (finish (run_round evs s)).1 = Some (translate_model (worker w) primary mdl).
Proof.
  intros Hn Hent Hnd Hfd Hin Hmdl.
  assert (Hd : done (run_round evs s) = true).
  { eapply round_ends; [done..|]. left. by rewrite Hfd. }
  split; [by eapply parallel_call_returns|].
  destruct (finish (run_round evs s)) as [c' out] eqn:Hfin.
  assert (Hres := final_round_result c asms k s evs c' out Hn Hent Hnd Hd Hfin).
  rewrite Hfd in Hres. destruct Hres as (-> & a' & pctx & Hin' & _ & ->).
  assert (a' = a) as -> by (by eapply event_unique).
  split; [done|]. cbn [fst snd]. unfold merge, get_model, check; simpl.
  by rewrite Hmdl.
Qed.

Lemma run_round_formulas evs s j pctx' :
  pctxs (run_round evs s) !! j = Some pctx' →
  ∃ pctx, pctxs s !! j = Some pctx ∧
          m_asserted_formulas pctx `prefix_of` m_asserted_formulas pctx'.
Proof.
  revert s. induction evs as [|[i a] evs IH]; intros s Hj; [by eauto|].
  rewrite run_round_cons in Hj. destruct (IH _ Hj) as (p1 & Hp1 & Hpre1).
  destruct (worker_thread_formulas i a s j p1 Hp1) as (p0 & Hp0 & Hpre0).
  exists p0. split; [done|]. by etrans.
Qed.

(** X8: what has been asserted into a worker stays asserted: over a round
    and the relay after it the assertions of a worker only get longer. *)
Theorem assertions_only_grow c asms k s evs i pctx :
  entering c asms k s → done (run_round evs s) = false →
  pctxs s !! i = Some pctx →
  ∃ pctx', pctxs (next_round (collect_units (run_round evs s))) !! i = Some pctx' ∧
           m_asserted_formulas pctx `prefix_of` m_asserted_formulas pctx'.
Proof.
  intros Hent Hd Hi.
  destruct (entering_inv _ _ _ _ Hent) as (Hinv & _).
  pose proof (run_round_relay_inv evs s Hinv) as Hinv1.
  destruct (run_round_frame evs s) as (_ & _ & _ & _ & _ & _ & _ & _ & _ & Hl).
  assert (Hlt : (i < length (pctxs (run_round evs s)))%nat).
  { rewrite Hl. by eapply lookup_lt_Some. }
  destruct (lookup_lt_is_Some_2 _ _ Hlt) as [p1 Hp1].
  destruct (run_round_formulas evs s i p1 Hp1) as (p0 & Hp0 & Hpre).
  assert (p0 = pctx) as -> by congruence.
  pose proof Hinv1 as ((Hs1 & _ & Hs3 & _) & _).
  assert (Hlim : is_Some (unit_lim (run_round evs s) !! i)).
  { apply lookup_lt_is_Some_2. rewrite Hs3, <- Hs1. done. }
  destruct Hlim as [lim Hlim].
  destruct (collect_units_spec _ Hinv1) as (_ & _ & _ & _ & Hctx).
  destruct (Hctx i p1 lim Hp1 Hlim) as [Hnew _].
  eexists. split; [exact Hnew|].
  rewrite assert_batch_formulas. simpl. etrans; [exact Hpre|]. by apply prefix_app_r.
Qed.

End More.

(** * The properties at concrete calls *)

Import Demo.

(** C1, witness: the call of [round0] and [round1_unsat] returns unsat. *)
Lemma call_returns_or_throws_witness :
  ∃ k s evs, entering c2 ["p"%string] k s ∧ [round0; round1_unsat] !! k = Some evs ∧
    finish (run_round evs s)
      = (call_ctx c2 ["p"%string] [round0; round1_unsat], returns l_false) ∧
    match first_decision s evs with
    | Some (i, r) => returns l_false = returns r
    | None => ∃ e, last_fault s evs = Some e ∧ returns l_false = surfaced e
    end.
Proof.
  assert (Hn : m_threads (m_fparams c2) ≤ UINT_MAX) by (by vm_compute).
  apply (proj1 (call_returns_or_throws c2 ["p"%string] Hn) [round0; round1_unsat]).
  by vm_compute.
Defined.

(** C1, counterexample: a worker whose [check] gives up after 5 of its 100
    conflicts wins the race, and the call returns unknown without an
    exception; and of two faults the call throws the second. *)
Lemma call_returns_unknown :
  call_out (ctx0 1 100) [] [round_gives_up] = Some (returns l_undef) ∧
  call_out c2 [] [round_two_faults] = Some (throws_default_exception "boom").
Proof. split; vm_compute; reflexivity. Qed.

(** C2, witness: worker 0 faults first in [round_two_faults], worker 1 after
    it. *)
Lemma capture_is_overwritten_witness :
  captured (worker_thread 0 (failing (z3_error 7)) (setup c2 [])) (z3_error 7) ∧
  done (worker_thread 0 (failing (z3_error 7)) (setup c2 [])) = true ∧
  captured (run_round round_two_faults (setup c2 [])) (z3_exception "boom").
Proof.
  apply (capture_is_overwritten (setup c2 []) 0 (failing (z3_error 7)) (z3_error 7)
           [(1%nat, failing (z3_exception "boom"))]).
  - vm_compute. by eexists.
  - vm_compute. by eexists.
  - intros _. by exists None.
  - reflexivity.
Defined.

(** C2, counterexample: after [round_two_faults] the capture holds the
    second fault, kind and message, and no longer the first. *)
Lemma first_capture_is_lost :
  captured (worker_thread 0 (failing (z3_error 7)) (setup c2 [])) (z3_error 7) ∧
  ex_kind (run_round round_two_faults (setup c2 [])) = DEFAULT_EX ∧
  ex_msg (run_round round_two_faults (setup c2 [])) = "boom"%string ∧
  ¬ captured (run_round round_two_faults (setup c2 [])) (z3_error 7).
Proof.
  split_and!; [by vm_compute|by vm_compute|by vm_compute|].
  intros [Hk _]. vm_compute in Hk. discriminate.
Qed.

(** C3, witness: three workers answer sat in the same round; worker 1, the
    first to take the mutex, is recorded. *)
Lemma race_has_one_winner_witness :
  finished_id (run_round round_sat3 (setup c3 [])) = Z.of_nat 1 ∧
  Z.of_nat 1 ≠ UINT_MAX ∧
  result (run_round round_sat3 (setup c3 [])) = l_true ∧
  done (run_round round_sat3 (setup c3 [])) = true.
Proof.
  assert (Hn : m_threads (m_fparams c3) ≤ UINT_MAX) by (by vm_compute).
  exact (proj1 (race_has_one_winner c3 [] 0 (setup c3 []) round_sat3 Hn (enter_first c3 []))).
Defined.

Lemma entering_s1 : entering c2 ["p"%string] 1 s1.
Proof.
  apply (enter_next c2 ["p"%string] 0 (setup c2 ["p"%string]) round0 (enter_first _ _)).
  by vm_compute.
Defined.

(** The relay of round 0: worker 1 has [d] at position 2 of its log; after
    the relay [d] is on the trail and among the assertions of both workers. *)
Lemma relay_reads_from_trail_length_witness :
  ("d" : string) ∈ unit_trail s1 ∧
  (∀ w pw, pctxs s1 !! w = Some pw → ("d" : string) ∈ m_asserted_formulas pw) ∧
  NoDup (unit_trail s1).
Proof.
  destruct (relay_reads_from_trail_length c2 ["p"%string] 0 (setup c2 ["p"%string]) round0)
    as (_ & Hread & _ & Hnd & _); [apply enter_first|by vm_compute|].
  destruct (Hread 1%nat (pctx_of (run_round round0 (setup c2 ["p"%string])) 1) 2%nat
              (mk_literal 3 false)) as [Hin Hass];
    [by vm_compute|by vm_compute|vm_compute; lia|].
  split_and!; [exact Hin|exact Hass|exact Hnd].
Defined.

(** C4, the relay at a failing input.  [unit_lim[i]] is read at line 78
    as a position in the log of worker [i] and at line 94 as a position in
    the trail, and line 99 stores the length of the trail in it.  Two
    workers, no winner in rounds 0 and 1: in round 1 worker 0 derives [e];
    its log, [a] at the end of round 0, is [a; e] at the end of round 1.
    The trail has four facts by then, so the relay reads the log of worker
    0 from position 4 on: the new fact [e] is not put on the trail and is
    asserted into no worker. *)
Lemma relay_misses_new_fact :
  done (run_round round1 s1) = false ∧
  assigned_literals (pop_to_base_lvl (pctx_of (run_round round0 (setup c2 ["p"%string])) 0))
    = [mk_literal 0 false] ∧
  assigned_literals (pop_to_base_lvl (pctx_of (run_round round1 s1) 0))
    = [mk_literal 0 false; mk_literal 4 false] ∧
  unit_fact 0 (pop_to_base_lvl (pctx_of (run_round round1 s1) 0)) (mk_literal 4 false)
    = "e"%string ∧
  unit_lim (run_round round1 s1) = [4%nat; 4%nat] ∧
  (("e" : string) ∉ unit_trail s2) ∧
  Forall (λ pw, ("e" : string) ∉ m_asserted_formulas pw) (pctxs s2).
Proof.
  split_and!; try (by vm_compute).
  - apply (bool_decide_unpack _). by vm_compute.
  - apply (bool_decide_unpack _). by vm_compute.
Qed.

(** C5, witness: in round 1 worker 0 refutes its cube [q] and blocks it,
    worker 1 wins with the core [p]; the call returns that core. *)
Lemma cube_cores_are_not_returned_witness :
  (pctxs (worker_thread 0 (refuted "q" ["p"; "q"]%string) s1) !! 0%nat =
     Some (assert_expr (mk_not (mk_and ["p"; "q"]%string))
             (check (["p"%string] ++ ["q"%string]) (refuted "q" ["p"; "q"]%string)
                (set_max_conflicts (max_conflicts s1) (pctx_of s1 0)))) ∧
   m_asserted_formulas (pctx_of (worker_thread 0 (refuted "q" ["p"; "q"]%string) s1) 0)
     = m_asserted_formulas (pctx_of s1 0) ++ ["(not (and p q))"%string] ∧
   m_asserted_formulas (pctx_of (worker_thread 0 (refuted "q" ["p"; "q"]%string) s1) 1)
     = m_asserted_formulas (pctx_of s1 1) ∧
   result (worker_thread 0 (refuted "q" ["p"; "q"]%string) s1) = result s1 ∧
   finished_id (worker_thread 0 (refuted "q" ["p"; "q"]%string) s1) = finished_id s1 ∧
   done (worker_thread 0 (refuted "q" ["p"; "q"]%string) s1) = done s1) ∧
  (finish (run_round round1_unsat s1)).2 = returns l_false ∧
  m_unsat_core (finish (run_round round1_unsat s1)).1
    = m_unsat_core c2 ++ (translate (worker 1) primary <$> ["p"%string]) ∧
  (∀ cb, cube_of s1 (refuted "r" ["p"%string]) = Some cb → cb ∉ ["p"%string]).
Proof.
  destruct (cube_cores_are_not_returned c2 ["p"%string]) as (Hworker & _ & Hcall);
    [by vm_compute|].
  split.
  - assert (Hin : ("q" : string) ∈ check_unsat_core (refuted "q" ["p"; "q"]%string)).
    { apply (bool_decide_unpack _). by vm_compute. }
    assert (Hp : pctxs s1 !! 0%nat = Some (pctx_of s1 0)) by (by vm_compute).
    assert (Ha : pasms s1 !! 0%nat = Some ["p"%string]) by (by vm_compute).
    assert (Hcb : cube_of s1 (refuted "q" ["p"; "q"]%string) = Some "q"%string)
      by (by vm_compute).
    destruct (Hworker s1 0%nat (refuted "q" ["p"; "q"]%string) (pctx_of s1 0)
                ["p"%string] "q"%string Hp Ha eq_refl Hcb Hin)
      as (Hown & (p0 & Hp0 & Hnew & _) & Hrest & _ & Hr & Hf & Hd).
    destruct (Hrest 1%nat (pctx_of (worker_thread 0 (refuted "q" ["p"; "q"]%string) s1) 1))
      as (p1 & Hp1 & Hsame); [done|by vm_compute|].
    split_and!; [exact Hown| | |exact Hr|exact Hf|exact Hd].
    + unfold pctx_of at 1. rewrite Hp0. exact Hnew.
    + rewrite Hsame. unfold pctx_of. by rewrite Hp1.
  - destruct (Hcall 1%nat s1 round1_unsat 1%nat (refuted "r" ["p"%string]))
      as (_ & Hout & _ & Hcore & Hcube & _).
    + apply entering_s1.
    + apply (bool_decide_unpack _). by vm_compute.
    + by vm_compute.
    + right. by left.
    + split_and!; [exact Hout|exact Hcore|exact Hcube].
Defined.

(** C6, witness: budget 100, round 1. *)
Lemma budget_doubles_modulo_witness :
  max_conflicts s1 = u32 (100 * 2 ^ 1) ∧ num_rounds s1 = u32 1.
Proof.
  destruct (budget_doubles_modulo c2 ["p"%string] 1 s1) as (Hm & Hr & _);
    [by vm_compute|apply entering_s1|].
  split; [exact Hm|exact Hr].
Defined.

(** C6, counterexample: with a budget of 2^31 conflicts the budget of
    round 1 is 0, not 2^32, and that is the limit the worker checks under. *)
Lemma budget_wraps_to_zero :
  entering c_big [] 1 s_big ∧
  m_threads_max_conflicts (m_fparams c_big) * 2 ^ 1 = 4294967296 ∧
  max_conflicts s_big = 0 ∧
  m_max_conflicts (m_fparams (pctx_of (run_round [(0%nat, busy [])] s_big) 0)) = 0.
Proof.
  split_and!; try (by vm_compute).
  apply (enter_next c_big [] 0 (setup c_big []) [(0%nat, busy [])] (enter_first _ _)).
  by vm_compute.
Qed.

(** C7, witness: the relay after round 0, and the relay once more. *)
Lemma trail_is_a_set_witness :
  NoDup (unit_trail (setup c2 ["p"%string])) ∧
  NoDup (unit_trail (collect_units (run_round round0 (setup c2 ["p"%string])))) ∧
  unit_trail (collect_units (collect_units (run_round round0 (setup c2 ["p"%string]))))
    = unit_trail (collect_units (run_round round0 (setup c2 ["p"%string]))) ∧
  length (unit_trail (collect_units (collect_units (run_round round0 (setup c2 ["p"%string])))))
    = length (unit_trail (collect_units (run_round round0 (setup c2 ["p"%string])))).
Proof.
  destruct (trail_is_a_set c2 ["p"%string] 0 (setup c2 ["p"%string]) round0)
    as (H1 & H2 & _ & H3 & H4); [apply enter_first|].
  split_and!; [exact H1|exact H2|exact H3|exact H4].
Defined.

(** C8, witness: worker 0 takes the cube [q] in round 1; [pasms] is still
    the translation of the caller's [p]. *)
Lemma cube_stays_in_its_round_witness :
  pasms (worker_thread 0 (refuted "q" ["p"; "q"]%string) s1) = pasms s1 ∧
  pasms s1 = new_pasms ["p"%string] <$> seq 0 (num_threads s1) ∧
  (is_Some (cube_of s1 (refuted "q" ["p"; "q"]%string)) → 0 < num_rounds s1 ∧ (0 < 1)%nat).
Proof.
  destruct (cube_stays_in_its_round c2 ["p"%string] 1 s1 0 (refuted "q" ["p"; "q"]%string))
    as (H1 & H2 & _ & H4 & _); [apply entering_s1|].
  split_and!; [exact H1|exact H2|exact H4].
Defined.

(** C9, witness: the call that returns unsat in round 1. *)
Lemma statistics_are_always_folded_witness :
  ∃ s, round_loop [round0; round1_unsat] (setup c2 ["p"%string]) = Some s ∧
       length (pctxs s) = Z.to_nat (m_threads (m_fparams c2)) ∧
       m_aux_stats (call_ctx c2 ["p"%string] [round0; round1_unsat])
         = foldl (λ st pc, collect_statistics pc st) (m_aux_stats c2) (pctxs s).
Proof.
  apply (proj1 (statistics_are_always_folded c2 ["p"%string]) [round0; round1_unsat]
           (call_ctx c2 ["p"%string] [round0; round1_unsat]) (returns l_false)).
  by vm_compute.
Defined.

(** C10, witness: worker 1 wins round 0 with sat and no model; the call
    returns sat and the primary context has the model it had, none. *)
Lemma sat_without_model_witness :
  (∃ sched, length sched = 0%nat ∧
     ∀ rest, parallel_call c2 [] (sched ++ round_sat_no_model :: rest)
             = Some (finish (run_round round_sat_no_model (setup c2 [])))) ∧
  (finish (run_round round_sat_no_model (setup c2 []))).2 = returns l_true ∧
  m_model (finish (run_round round_sat_no_model (setup c2 []))).1 = m_model c2.
Proof.
  apply (sat_without_model c2 [] 0 (setup c2 []) round_sat_no_model 1 (solved None)).
  - by vm_compute.
  - apply enter_first.
  - apply (bool_decide_unpack _). by vm_compute.
  - by vm_compute.
  - by left.
  - reflexivity.
Defined.


(** X1, witness: no thread, one round on offer. *)
Lemma no_workers_no_answer_witness :
  parallel_call (ctx0 0 100) ["p"%string] [round0] = None.
Proof. apply no_workers_no_answer. reflexivity. Defined.

(** X2, witness: workers 1 and 2 of three. *)
Lemma workers_get_distinct_seeds_witness :
  m_random (pctx_of (setup c3 []) 1) = u32 (Z.of_nat 1 + m_random_seed (m_fparams c3)) ∧
  (m_random (pctx_of (setup c3 []) 1) = m_random (pctx_of (setup c3 []) 2) → 1%nat = 2%nat).
Proof.
  apply (workers_get_distinct_seeds c3 [] 1 2); by vm_compute.
Defined.

(** X3, witness: three workers answer sat, worker 1 first: the managers of
    workers 0 and 2 are cancelled, the one of worker 1 is not. *)
Lemma winner_cancels_the_others_witness :
  m_cancel (pctx_of (run_round round_sat3 (setup c3 [])) 0) = true ∧
  m_cancel (pctx_of (run_round round_sat3 (setup c3 [])) 2) = true ∧
  m_cancel (pctx_of (run_round round_sat3 (setup c3 [])) 1)
    = m_cancel (pctx_of (setup c3 []) 1).
Proof.
  destruct (winner_cancels_the_others c3 [] 0 (setup c3 []) round_sat3 1 l_true)
    as [Hothers Hown]; [by vm_compute|apply enter_first|by vm_compute|].
  split_and!.
  - apply (Hothers 0%nat); [done|by vm_compute].
  - apply (Hothers 2%nat); [done|by vm_compute].
  - apply Hown; by vm_compute.
Defined.

(** X4, witness: both workers fault; nobody is cancelled and the call throws
    the second fault. *)
Lemma fault_cancels_nobody_witness :
  m_cancel (pctx_of (run_round round_two_faults (setup c2 [])) 0)
    = m_cancel (pctx_of (setup c2 []) 0) ∧
  done (run_round round_two_faults (setup c2 [])) = true ∧
  (finish (run_round round_two_faults (setup c2 []))).2 = surfaced (z3_exception "boom").
Proof.
  destruct (fault_cancels_nobody c2 [] 0 (setup c2 []) round_two_faults)
    as [Hkeep Hend]; [by vm_compute|apply enter_first|by vm_compute|].
  split.
  - apply (Hkeep 0%nat); by vm_compute.
  - apply Hend. by vm_compute.
Defined.

(** X5, witness: the call that returns unsat in round 1 hands the caller
    its parameters back with two threads and with the budget of round 1,
    200 conflicts, where the caller had 0. *)
Lemma call_restores_threads_witness :
  m_threads (m_fparams (call_ctx c2 ["p"%string] [round0; round1_unsat])) = 2 ∧
  m_max_conflicts (m_fparams (call_ctx c2 ["p"%string] [round0; round1_unsat])) = 200 ∧
  m_max_conflicts (m_fparams c2) = 0 ∧
  m_asserted_formulas (call_ctx c2 ["p"%string] [round0; round1_unsat])
    = m_asserted_formulas c2 ∧
  m_threads (m_fparams (ctx s1)) = 1 ∧
  m_fparams (pctx_of s1 0) = m_fparams (ctx s1).
Proof.
  destruct (call_restores_threads c2 ["p"%string] [round0; round1_unsat]
              (call_ctx c2 ["p"%string] [round0; round1_unsat]) (returns l_false))
    as (Ht & _ & _ & (k & s & evs & Hent & Hk & Hfin & Hb) & _ & Ha & _ & Hone);
    [by vm_compute..|].
  destruct (Hone 1%nat s1 entering_s1) as [H1 Hsh].
  split_and!; [exact Ht| |reflexivity|exact Ha|exact H1|apply (Hsh 0%nat); by vm_compute].
  rewrite Hb. destruct k as [|[|k]]; [|reflexivity|by destruct k].
  exfalso. inversion Hent; subst. simpl in Hk. injection Hk as <-.
  vm_compute in Hfin. discriminate Hfin.
Defined.

(** X6, witness: the call that throws keeps the model and the core. *)
Lemma only_an_answer_is_merged_witness :
  m_model (call_ctx c2 [] [round_two_faults]) = m_model c2 ∧
  m_unsat_core (call_ctx c2 [] [round_two_faults]) = m_unsat_core c2.
Proof.
  destruct (only_an_answer_is_merged c2 [] [round_two_faults]
              (call_ctx c2 [] [round_two_faults]) (throws_default_exception "boom"))
    as [Hm Hu]; [by vm_compute|].
  split; [by apply Hm|by apply Hu].
Defined.

(** X7, witness: worker 1 wins with the model [m1]. *)
Lemma sat_model_is_the_winners_witness :
  (finish (run_round round_sat3 (setup c3 []))).2 = returns l_true ∧
  m_model (finish (run_round round_sat3 (setup c3 []))).1
    = Some (translate_model (worker 1) primary "m1"%string).
Proof.
  destruct (sat_model_is_the_winners c3 [] 0 (setup c3 []) round_sat3 1
              (solved (Some "m1"%string)) "m1"%string) as (_ & Hout & Hm).
  - by vm_compute.
  - apply enter_first.
  - apply (bool_decide_unpack _). by vm_compute.
  - by vm_compute.
  - by left.
  - reflexivity.
  - split; [exact Hout|exact Hm].
Defined.

(** X8, witness: worker 0 over round 0 and the relay. *)
Lemma assertions_only_grow_witness :
  ∃ pctx', pctxs s1 !! 0%nat = Some pctx' ∧
    m_asserted_formulas (pctx_of (setup c2 ["p"%string]) 0)
      `prefix_of` m_asserted_formulas pctx'.
Proof.
  apply (assertions_only_grow c2 ["p"%string] 0 (setup c2 ["p"%string]) round0 0).
  - apply enter_first.
  - by vm_compute.
  - by vm_compute.
Defined.

(** * The NPN3 finder: properties *)

(** Rearranging a short list. *)
Ltac perm :=
  lazymatch goal with
  | |- [] ≡ₚ [] => reflexivity
  | |- ?a :: ?l ≡ₚ ?r =>
    first
      [ apply perm_skip; perm
      | lazymatch r with
        | ?b :: a :: ?r2 => apply (Permutation_cons_app [b] r2 a); simpl; perm
        end
      | lazymatch r with
        | ?b :: ?c :: a :: ?r2 => apply (Permutation_cons_app [b; c] r2 a); simpl; perm
        end
      | lazymatch r with
        | ?b :: ?c :: ?d :: a :: ?r2 =>
          apply (Permutation_cons_app [b; c; d] r2 a); simpl; perm
        end ]
  end.

Section Entries.
Import Npn3.
Context {literal : Type} `{!Literal literal}.

Implicit Types (x y z w u : literal).

#[local] Instance index_le_trans : Transitive index_le.
Proof. unfold index_le. intros x y z ? ?. lia. Qed.

#[local] Instance index_le_antisymm : AntiSymm (=) index_le.
Proof. unfold index_le. intros x y ? ?. apply index_inj. lia. Qed.

Lemma mk_binary_fields x y ul :
  index_le (b_x (mk_binary x y ul)) (b_y (mk_binary x y ul)) ∧
  [b_x (mk_binary x y ul); b_y (mk_binary x y ul)] ≡ₚ [x; y] ∧
  use_list (mk_binary x y ul) = ul.
Proof.
  unfold mk_binary, index_le.
  destruct (index y <? index x)%N eqn:Hc; simpl;
    [apply N.ltb_lt in Hc|apply N.ltb_ge in Hc]; split_and!; try lia; try done; perm.
Qed.

Lemma mk_ternary_fields x y z c :
  index_le (t_x (mk_ternary x y z c)) (t_y (mk_ternary x y z c)) ∧
  index_le (t_y (mk_ternary x y z c)) (t_z (mk_ternary x y z c)) ∧
  [t_x (mk_ternary x y z c); t_y (mk_ternary x y z c); t_z (mk_ternary x y z c)]
    ≡ₚ [x; y; z] ∧
  t_orig (mk_ternary x y z c) = c.
Proof.
  unfold mk_ternary, index_le.
  repeat (match goal with
          | |- context [(?a <? ?b)%N] =>
            let Hc := fresh "Hc" in
            destruct (a <? b)%N eqn:Hc; [apply N.ltb_lt in Hc|apply N.ltb_ge in Hc]
          end; simpl);
    split_and!; try lia; try done; perm.
Qed.

Lemma mk_quaternary_fields w x y z c :
  index_le (q_w (mk_quaternary w x y z c)) (q_x (mk_quaternary w x y z c)) ∧
  index_le (q_x (mk_quaternary w x y z c)) (q_y (mk_quaternary w x y z c)) ∧
  index_le (q_y (mk_quaternary w x y z c)) (q_z (mk_quaternary w x y z c)) ∧
  [q_w (mk_quaternary w x y z c); q_x (mk_quaternary w x y z c);
   q_y (mk_quaternary w x y z c); q_z (mk_quaternary w x y z c)] ≡ₚ [w; x; y; z] ∧
  q_orig (mk_quaternary w x y z c) = c.
Proof.
  unfold mk_quaternary, index_le.
  repeat (match goal with
          | |- context [(?a <? ?b)%N] =>
            let Hc := fresh "Hc" in
            destruct (a <? b)%N eqn:Hc; [apply N.ltb_lt in Hc|apply N.ltb_ge in Hc]
          end; simpl);
    split_and!; try lia; try done; perm.
Qed.

Lemma sorted_perm_eq (l1 l2 : list literal) :
  Sorted index_le l1 → Sorted index_le l2 → l1 ≡ₚ l2 → l1 = l2.
Proof. apply Sorted_unique; apply _. Qed.

Lemma ternary_key_perm x y z c x' y' z' c' :
  [x; y; z] ≡ₚ [x'; y'; z'] →
  ternary_key (mk_ternary x y z c) = ternary_key (mk_ternary x' y' z' c').
Proof.
  intros Hp.
  destruct (mk_ternary_fields x y z c) as (H1 & H2 & H3 & _).
  destruct (mk_ternary_fields x' y' z' c') as (H1' & H2' & H3' & _).
  assert (Heq : [t_x (mk_ternary x y z c); t_y (mk_ternary x y z c); t_z (mk_ternary x y z c)]
          = [t_x (mk_ternary x' y' z' c'); t_y (mk_ternary x' y' z' c');
             t_z (mk_ternary x' y' z' c')]).
  { apply sorted_perm_eq.
    - repeat constructor; done.
    - repeat constructor; done.
    - by rewrite H3, H3'. }
  unfold ternary_key. congruence.
Qed.

Lemma binary_key_perm x y ul x' y' ul' :
  [x; y] ≡ₚ [x'; y'] →
  binary_key (mk_binary x y ul) = binary_key (mk_binary x' y' ul').
Proof.
  intros Hp.
  destruct (mk_binary_fields x y ul) as (H1 & H3 & _).
  destruct (mk_binary_fields x' y' ul') as (H1' & H3' & _).
  assert (Heq : [b_x (mk_binary x y ul); b_y (mk_binary x y ul)]
          = [b_x (mk_binary x' y' ul'); b_y (mk_binary x' y' ul')]).
  { apply sorted_perm_eq.
    - repeat constructor; done.
    - repeat constructor; done.
    - by rewrite H3, H3'. }
  unfold binary_key. congruence.
Qed.

Lemma quaternary_key_perm w x y z c w' x' y' z' c' :
  [w; x; y; z] ≡ₚ [w'; x'; y'; z'] →
  quaternary_key (mk_quaternary w x y z c) = quaternary_key (mk_quaternary w' x' y' z' c').
Proof.
  intros Hp.
  destruct (mk_quaternary_fields w x y z c) as (H1 & H2 & H3 & H4 & _).
  destruct (mk_quaternary_fields w' x' y' z' c') as (H1' & H2' & H3' & H4' & _).
  assert (Heq : [q_w (mk_quaternary w x y z c); q_x (mk_quaternary w x y z c);
                 q_y (mk_quaternary w x y z c); q_z (mk_quaternary w x y z c)]
          = [q_w (mk_quaternary w' x' y' z' c'); q_x (mk_quaternary w' x' y' z' c');
             q_y (mk_quaternary w' x' y' z' c'); q_z (mk_quaternary w' x' y' z' c')]).
  { apply sorted_perm_eq.
    - repeat constructor; done.
    - repeat constructor; done.
    - by rewrite H4, H4'. }
  unfold quaternary_key. congruence.
Qed.

End Entries.

Section Tables.
Import Npn3.
Context {literal : Type} `{!Literal literal}.

Implicit Types (x y z w u : literal) (st : store literal) (f : npn3_finder literal).
Implicit Types (ν : literal → bool) (src : list nat).

(** *** Marks *)

Lemma lits_at_mark_used p st q : lits_at (mark_used p st) q = lits_at st q.
Proof.
  unfold lits_at, mark_used; simpl. destruct (decide (p = q)) as [->|Hne].
  - rewrite list_lookup_alter_eq. by destruct (objs st !! q).
  - by rewrite list_lookup_alter_ne.
Qed.

Lemma lits_at_unmark_used p st q : lits_at (unmark_used p st) q = lits_at st q.
Proof.
  unfold lits_at, unmark_used; simpl. destruct (decide (p = q)) as [->|Hne].
  - rewrite list_lookup_alter_eq. by destruct (objs st !! q).
  - by rewrite list_lookup_alter_ne.
Qed.

Lemma not_used_mark_used p st q :
  not_used (mark_used p st) q = if decide (p = q) then negb (bool_decide (is_Some (objs st !! q)))
                               else not_used st q.
Proof.
  unfold not_used, mark_used; simpl. destruct (decide (p = q)) as [->|Hne].
  - rewrite list_lookup_alter_eq. by destruct (objs st !! q).
  - by rewrite list_lookup_alter_ne.
Qed.

Lemma not_used_unmark_used p st q :
  not_used (unmark_used p st) q = if decide (p = q) then true else not_used st q.
Proof.
  unfold not_used, unmark_used; simpl. destruct (decide (p = q)) as [->|Hne].
  - rewrite list_lookup_alter_eq. by destruct (objs st !! q).
  - by rewrite list_lookup_alter_ne.
Qed.

Lemma grows_refl st : grows st st.
Proof. by split. Qed.

Lemma grows_trans st1 st2 st3 : grows st1 st2 → grows st2 st3 → grows st1 st3.
Proof.
  intros [Hl1 Hu1] [Hl2 Hu2]. split.
  - intros p. by rewrite Hl2.
  - auto.
Qed.

Lemma grows_mark_used p st : grows st (mark_used p st).
Proof.
  split; [apply lits_at_mark_used|].
  intros q Hq. rewrite not_used_mark_used. case_decide; [subst|done].
  unfold not_used in Hq. by destruct (objs st !! q).
Qed.

Lemma grows_mark_if c st : grows st (mark_if c st).
Proof. destruct c; [apply grows_mark_used|apply grows_refl]. Qed.

Lemma grows_call g st : grows st (call g st).
Proof. by split. Qed.

Lemma calls_mark_if c st : calls (mark_if c st) = calls st.
Proof. by destruct c. Qed.

Lemma marked_stays p st st' :
  is_Some (objs st !! p) → grows (mark_used p st) st' → not_used st' p = false.
Proof.
  intros [c Hc] [_ Hu]. apply Hu. rewrite not_used_mark_used, decide_True by done.
  rewrite Hc. by rewrite bool_decide_eq_true_2.
Qed.

(** Lines 84 and 115: the loop that clears the marks. *)
Lemma unmark_all cs st :
  (∀ p, lits_at (foldl (λ st cp, unmark_used cp st) st cs) p = lits_at st p) ∧
  calls (foldl (λ st cp, unmark_used cp st) st cs) = calls st ∧
  (∀ p, p ∈ cs → not_used (foldl (λ st cp, unmark_used cp st) st cs) p = true) ∧
  (∀ p, not_used st p = true → not_used (foldl (λ st cp, unmark_used cp st) st cs) p = true).
Proof.
  revert st. induction cs as [|cp cs IH]; intros st; simpl.
  - split_and!; try done. intros p Hp. by apply elem_of_nil in Hp.
  - destruct (IH (unmark_used cp st)) as (Hl & Hc & Hin & Hkeep). split_and!.
    + intros p. by rewrite Hl, lits_at_unmark_used.
    + by rewrite Hc.
    + intros p [->|Hp]%elem_of_cons; [|by apply Hin].
      apply Hkeep. by rewrite not_used_unmark_used, decide_True.
    + intros p Hp. apply Hkeep. rewrite not_used_unmark_used. by case_decide.
Qed.

(** *** Clauses under an assignment *)

Lemma holds_perm ν (l1 l2 : list literal) : l1 ≡ₚ l2 → holds ν l1 → holds ν l2.
Proof. intros Hp (l & Hl & Hv). exists l. by rewrite <- Hp. Qed.

Lemma holds_3 ν x y z : holds ν [x; y; z] ↔ ν x || ν y || ν z = true.
Proof.
  split.
  - intros (l & Hl & Hv). set_unfold. destruct Hl as [->|[->|[->|[]]]]; rewrite Hv;
      by rewrite ?orb_true_r.
  - intros Hv. repeat (apply orb_true_iff in Hv as [Hv|Hv]);
      [exists x|exists y|exists z]; (split; [|done]); repeat constructor.
Qed.

Lemma holds_4 ν w x y z : holds ν [w; x; y; z] ↔ ν w || ν x || ν y || ν z = true.
Proof.
  split.
  - intros (l & Hl & Hv). set_unfold. destruct Hl as [->|[->|[->|[->|[]]]]]; rewrite Hv;
      by rewrite ?orb_true_r.
  - intros Hv. repeat (apply orb_true_iff in Hv as [Hv|Hv]);
      [exists w|exists x|exists y|exists z]; (split; [|done]); repeat constructor.
Qed.

(** *** The tables *)

Lemma tables_ok_grows st st' src :
  (∀ p, lits_at st' p = lits_at st p) →
  (∀ bs, binaries_ok st src bs → binaries_ok st' src bs) ∧
  (∀ ts, ternaries_ok st src ts → ternaries_ok st' src ts) ∧
  (∀ qs, quaternaries_ok st src qs → quaternaries_ok st' src qs).
Proof.
  intros Hl. split_and!.
  - intros bs Hok k b Hk. destruct (Hok k b Hk) as [-> Hul]. split; [done|].
    intros u c2 Hin. destruct (Hul u c2 Hin) as (p & ls & ? & ? & ? & ?).
    exists p, ls. by rewrite Hl.
  - intros ts Hok k t Hk. destruct (Hok k t Hk) as [-> (p & ls & ? & ? & ? & ?)].
    split; [done|]. exists p, ls. by rewrite Hl.
  - intros qs Hok k q Hk. destruct (Hok k q Hk) as [-> (p & ls & ? & ? & ? & ?)].
    split; [done|]. exists p, ls. by rewrite Hl.
Qed.

Lemma tables_ok_mono st src src' :
  src ⊆ src' →
  (∀ bs, binaries_ok st src bs → binaries_ok st src' bs) ∧
  (∀ ts, ternaries_ok st src ts → ternaries_ok st src' ts) ∧
  (∀ qs, quaternaries_ok st src qs → quaternaries_ok st src' qs).
Proof.
  intros Hsub. split_and!.
  - intros bs Hok k b Hk. destruct (Hok k b Hk) as [-> Hul]. split; [done|].
    intros u c2 Hin. destruct (Hul u c2 Hin) as (p & ls & ? & ? & ? & ?).
    exists p, ls. split_and!; auto.
  - intros ts Hok k t Hk. destruct (Hok k t Hk) as [-> (p & ls & ? & ? & ? & ?)].
    split; [done|]. exists p, ls. split_and!; auto.
  - intros qs Hok k q Hk. destruct (Hok k q Hk) as [-> (p & ls & ? & ? & ? & ?)].
    split; [done|]. exists p, ls. split_and!; auto.
Qed.

Lemma insert_binary_ok st src bs x y z p ls :
  binaries_ok st src bs → p ∈ src → lits_at st p = Some ls → ls ≡ₚ [x; y; z] →
  binaries_ok st src (insert_binary x y z p bs).
Proof.
  intros Hok Hp Hls Hperm k b. unfold insert_binary in *.
  destruct (mk_binary_fields x y None) as (_ & Hxy & _).
  set (b0 := mk_binary x y None) in *.
  destruct (decide (k = binary_key b0)) as [->|Hne].
  2: { rewrite lookup_insert_ne by done. apply Hok. }
  rewrite lookup_insert_eq. intros [= <-]. simpl.
  assert (He : binary_key (default b0 (bs !! binary_key b0)) = binary_key b0 ∧
               ∀ u c2, (u, c2) ∈ default [] (use_list (default b0 (bs !! binary_key b0))) →
                 ∃ p ls, c2 = Some p ∧ p ∈ src ∧ lits_at st p = Some ls ∧
                   ls ≡ₚ [b_x (default b0 (bs !! binary_key b0));
                          b_y (default b0 (bs !! binary_key b0)); u]).
  { destruct (bs !! binary_key b0) as [e|] eqn:Hb; simpl.
    - destruct (Hok _ _ Hb) as [Hk Hul]. done.
    - split; [done|]. unfold b0 at 1. rewrite (proj2 (proj2 (mk_binary_fields x y None))).
      simpl. intros u c2 Hin. by apply elem_of_nil in Hin. }
  destruct He as [Hkey Hul]. split.
  - symmetry. exact Hkey.
  - simpl. intros u c2 [Hin|Hin]%elem_of_app; [by apply Hul|].
    apply list_elem_of_singleton in Hin as [= -> ->].
    exists p, ls. split_and!; try done.
    rewrite Hperm.
    assert (Hx : b_x (default b0 (bs !! binary_key b0)) = b_x b0) by (by injection Hkey).
    assert (Hy : b_y (default b0 (bs !! binary_key b0)) = b_y b0) by (by injection Hkey).
    rewrite Hx, Hy.
    change ([x; y] ++ [z] ≡ₚ [b_x b0; b_y b0] ++ [z]). by rewrite Hxy.
Qed.

Lemma insert_ternary_ok st src tabs cp :
  binaries_ok st src tabs.1 → ternaries_ok st src tabs.2 → cp ∈ src →
  binaries_ok st src (insert_ternary st tabs cp).1 ∧
  ternaries_ok st src (insert_ternary st tabs cp).2.
Proof.
  intros Hb Ht Hcp. unfold insert_ternary in *.
  destruct (objs st !! cp) as [c|] eqn:Hc; [|done].
  destruct (c_lits c) as [|c0 [|c1 [|c2 [|? ?]]]] eqn:Hl; try done.
  assert (Hat : lits_at st cp = Some [c0; c1; c2]).
  { unfold lits_at. by rewrite Hc; simpl; rewrite Hl. }
  simpl. split.
  - repeat (eapply insert_binary_ok; [|done|exact Hat|perm]). done.
  - intros k t. destruct (decide (k = ternary_key (mk_ternary c0 c1 c2 (Some cp)))) as [->|Hne].
    2: { rewrite lookup_insert_ne by done. apply Ht. }
    rewrite lookup_insert_eq. intros [= <-]. split; [done|].
    destruct (mk_ternary_fields c0 c1 c2 (Some cp)) as (_ & _ & Hperm & Ho).
    exists cp, [c0; c1; c2]. by rewrite Hperm.
Qed.

Lemma insert_ternary_loop st src tabs (ps : list nat) :
  binaries_ok st src tabs.1 → ternaries_ok st src tabs.2 → ps ⊆ src →
  binaries_ok st src (foldl (insert_ternary st) tabs ps).1 ∧
  ternaries_ok st src (foldl (insert_ternary st) tabs ps).2.
Proof.
  revert tabs. induction ps as [|p ps IH]; intros tabs Hb Ht Hsub; simpl; [done|].
  destruct (insert_ternary_ok st src tabs p Hb Ht) as [Hb' Ht']; [apply Hsub; by left|].
  apply IH; [done|done|]. intros q Hq. apply Hsub. by right.
Qed.

Lemma binaries_ok_empty st src : binaries_ok st src ∅.
Proof. intros k b Hk. by rewrite lookup_empty in Hk. Qed.

Lemma ternaries_ok_empty st src : ternaries_ok st src ∅.
Proof. intros k b Hk. by rewrite lookup_empty in Hk. Qed.

Lemma quaternaries_ok_empty st src : quaternaries_ok st src ∅.
Proof. intros k b Hk. by rewrite lookup_empty in Hk. Qed.

Lemma process_clauses_ok f cs st bs ts st' :
  process_clauses f cs st = (bs, ts, st') →
  binaries_ok st' (learned (s f) ++ clauses (s f)) bs ∧
  ternaries_ok st' (learned (s f) ++ clauses (s f)) ts ∧
  (∀ p, lits_at st' p = lits_at st p) ∧ calls st' = calls st ∧
  (∀ p, p ∈ cs → not_used st' p = true).
Proof.
  unfold process_clauses. intros [= Htabs <-].
  destruct (unmark_all cs st) as (Hl & Hc & Hin & _).
  set (st' := foldl (λ st cp, unmark_used cp st) st cs) in *.
  set (src := learned (s f) ++ clauses (s f)).
  destruct (insert_ternary_loop st' src (∅, ∅) (learned (s f))) as [Hb1 Ht1];
    [apply binaries_ok_empty|apply ternaries_ok_empty|set_solver|].
  destruct (insert_ternary_loop st' src _ (clauses (s f)) Hb1 Ht1) as [Hb2 Ht2];
    [set_solver|].
  rewrite Htabs in Hb2, Ht2. by split_and!.
Qed.

Lemma insert_ok st src tabs cp :
  binaries_ok st src tabs.1.1 → ternaries_ok st src tabs.1.2 →
  quaternaries_ok st src tabs.2 → cp ∈ src →
  binaries_ok st src (insert st tabs cp).1.1 ∧
  ternaries_ok st src (insert st tabs cp).1.2 ∧
  quaternaries_ok st src (insert st tabs cp).2.
Proof.
  intros Hb Ht Hq Hcp. unfold insert in *.
  destruct (objs st !! cp) as [c|] eqn:Hc; [|done].
  destruct (c_lits c) as [|c0 [|c1 [|c2 [|c3 [|? ?]]]]] eqn:Hl; try done.
  - assert (Hat : lits_at st cp = Some [c0; c1; c2]).
    { unfold lits_at. by rewrite Hc; simpl; rewrite Hl. }
    simpl. split_and!; [|clear Hq|done].
    + repeat (eapply insert_binary_ok; [|done|exact Hat|perm]). done.
    + intros k t.
      destruct (decide (k = ternary_key (mk_ternary c0 c1 c2 (Some cp)))) as [->|Hne].
      2: { rewrite lookup_insert_ne by done. apply Ht. }
      rewrite lookup_insert_eq. intros [= <-]. split; [done|].
      destruct (mk_ternary_fields c0 c1 c2 (Some cp)) as (_ & _ & Hperm & Ho).
      exists cp, [c0; c1; c2]. by rewrite Hperm.
  - assert (Hat : lits_at st cp = Some [c0; c1; c2; c3]).
    { unfold lits_at. by rewrite Hc; simpl; rewrite Hl. }
    simpl. split_and!; [done|done|].
    intros k q.
    destruct (decide (k = quaternary_key (mk_quaternary c0 c1 c2 c3 (Some cp)))) as [->|Hne].
    2: { rewrite lookup_insert_ne by done. apply Hq. }
    rewrite lookup_insert_eq. intros [= <-]. split; [done|].
    destruct (mk_quaternary_fields c0 c1 c2 c3 (Some cp)) as (_ & _ & _ & Hperm & Ho).
    exists cp, [c0; c1; c2; c3]. by rewrite Hperm.
Qed.

Lemma insert_loop st src tabs (ps : list nat) :
  binaries_ok st src tabs.1.1 → ternaries_ok st src tabs.1.2 →
  quaternaries_ok st src tabs.2 → ps ⊆ src →
  binaries_ok st src (foldl (insert st) tabs ps).1.1 ∧
  ternaries_ok st src (foldl (insert st) tabs ps).1.2 ∧
  quaternaries_ok st src (foldl (insert st) tabs ps).2.
Proof.
  revert tabs. induction ps as [|p ps IH]; intros tabs Hb Ht Hq Hsub; simpl; [done|].
  destruct (insert_ok st src tabs p Hb Ht Hq) as (Hb' & Ht' & Hq'); [apply Hsub; by left|].
  apply IH; [done|done|done|]. intros r Hr. apply Hsub. by right.
Qed.

Lemma process_more_clauses_ok f cs st bs ts qs st' :
  process_more_clauses f cs st = (bs, ts, qs, st') →
  binaries_ok st' (learned (s f) ++ clauses (s f)) bs ∧
  ternaries_ok st' (learned (s f) ++ clauses (s f)) ts ∧
  quaternaries_ok st' (learned (s f) ++ clauses (s f)) qs ∧
  (∀ p, lits_at st' p = lits_at st p) ∧ calls st' = calls st ∧
  (∀ p, p ∈ cs → not_used st' p = true).
Proof.
  unfold process_more_clauses. intros [= Htabs <-].
  destruct (unmark_all cs st) as (Hl & Hc & Hin & _).
  set (st' := foldl (λ st cp, unmark_used cp st) st cs) in *.
  set (src := learned (s f) ++ clauses (s f)).
  destruct (insert_loop st' src (∅, ∅, ∅) (learned (s f))) as (Hb1 & Ht1 & Hq1);
    [apply binaries_ok_empty|apply ternaries_ok_empty|apply quaternaries_ok_empty
    |set_solver|].
  destruct (insert_loop st' src _ (clauses (s f)) Hb1 Ht1 Hq1) as (Hb2 & Ht2 & Hq2);
    [set_solver|].
  rewrite Htabs in Hb2, Ht2, Hq2. by split_and!.
Qed.

End Tables.

(** Case analysis on the values of the literals. *)
Ltac bools ν :=
  repeat match goal with
         | |- context [ν ?l] =>
           let b := fresh "b" in set (b := ν l) in *; clearbody b; destruct b
         | H : context [ν ?l] |- _ =>
           let b := fresh "b" in set (b := ν l) in *; clearbody b; destruct b
         end;
  simpl in *; try done; auto.

Section Gates.
Import Npn3.
Context {literal : Type} `{!Literal literal}.

Implicit Types (x y z w u : literal) (st : store literal) (f : npn3_finder literal).
Implicit Types (ν : literal → bool) (ps : list nat) (g : gate literal).

Lemma clause_holds f ν ps st p ls :
  model_of f ν ps st → p ∈ ps → lits_at st p = Some ls → holds ν ls.
Proof.
  intros (_ & _ & Hsat) Hp Hat. unfold lits_at in Hat.
  destruct (objs st !! p) as [c|] eqn:Hc; [|done]. injection Hat as <-. eauto.
Qed.

Lemma implies_sound f ν ps st a b :
  model_of f ν ps st → implies f (neg a) b = true → ν a || ν b = true.
Proof.
  intros (Hneg & Himp & _) Hi. pose proof (Himp _ _ Hi) as Hv. rewrite Hneg in Hv.
  bools ν.
Qed.

Lemma has_ternary_sound f ν ps st ts x y z c :
  ternaries_ok st ps ts → model_of f ν ps st →
  has_ternary f ts x y z = Some c → ν x || ν y || ν z = true.
Proof.
  intros Hok Hm. unfold has_ternary.
  destruct (ts !! ternary_key (mk_ternary x y z None)) as [t|] eqn:Ht.
  - intros _. destruct (Hok _ _ Ht) as [Hk (p & ls & _ & Hp & Hat & Hperm)].
    apply holds_3. destruct (mk_ternary_fields x y z None) as (_ & _ & Hf & _).
    eapply holds_perm; [|exact (clause_holds f ν ps st p ls Hm Hp Hat)].
    rewrite Hperm, <- Hf. unfold ternary_key in Hk. by injection Hk as -> -> ->.
  - destruct (implies f (neg y) z) eqn:H1; simpl.
    { intros _. pose proof (implies_sound f ν ps st _ _ Hm H1). bools ν. }
    destruct (implies f (neg x) y) eqn:H2; simpl.
    { intros _. pose proof (implies_sound f ν ps st _ _ Hm H2). bools ν. }
    destruct (implies f (neg x) z) eqn:H3; simpl; [|done].
    intros _. pose proof (implies_sound f ν ps st _ _ Hm H3). bools ν.
Qed.

Lemma has_quaternary_sound f ν ps st qs ts w x y z c :
  quaternaries_ok st ps qs → ternaries_ok st ps ts → model_of f ν ps st →
  has_quaternary f qs ts w x y z = Some c → ν w || ν x || ν y || ν z = true.
Proof.
  intros Hq Hok Hm. unfold has_quaternary.
  destruct (qs !! quaternary_key (mk_quaternary w x y z None)) as [q|] eqn:Hl.
  - intros _. destruct (Hq _ _ Hl) as [Hk (p & ls & _ & Hp & Hat & Hperm)].
    apply holds_4. destruct (mk_quaternary_fields w x y z None) as (_ & _ & _ & Hf & _).
    eapply holds_perm; [|exact (clause_holds f ν ps st p ls Hm Hp Hat)].
    rewrite Hperm, <- Hf. unfold quaternary_key in Hk. by injection Hk as -> -> -> ->.
  - destruct (has_ternary f ts w x y) eqn:H1.
    { intros _. pose proof (has_ternary_sound _ _ _ _ _ _ _ _ _ Hok Hm H1). bools ν. }
    destruct (has_ternary f ts w x z) eqn:H2.
    { intros _. pose proof (has_ternary_sound _ _ _ _ _ _ _ _ _ Hok Hm H2). bools ν. }
    destruct (has_ternary f ts w y z) eqn:H3.
    { intros _. pose proof (has_ternary_sound _ _ _ _ _ _ _ _ _ Hok Hm H3). bools ν. }
    intros H4. pose proof (has_ternary_sound _ _ _ _ _ _ _ _ _ Hok Hm H4). bools ν.
Qed.

Lemma use_list_sound f ν ps st bs a b e u c2 :
  binaries_ok st ps bs → model_of f ν ps st →
  bs !! binary_key (mk_binary a b None) = Some e →
  (u, c2) ∈ default [] (use_list e) → ν a || ν b || ν u = true.
Proof.
  intros Hok Hm He Hin. destruct (Hok _ _ He) as [Hk Hul].
  destruct (Hul u c2 Hin) as (p & ls & _ & Hp & Hat & Hperm).
  apply holds_3. destruct (mk_binary_fields a b None) as (_ & Hf & _).
  eapply holds_perm; [|exact (clause_holds f ν ps st p ls Hm Hp Hat)].
  rewrite Hperm. change ([b_x e; b_y e] ++ [u] ≡ₚ [a; b] ++ [u]).
  rewrite <- Hf. unfold binary_key in Hk. by injection Hk as -> ->.
Qed.

(** *** Attempts *)

Lemma attempt_mono (Q Q' : gate literal → Prop) cp st r :
  (∀ g, Q g → Q' g) → attempt Q cp st r → attempt Q' cp st r.
Proof.
  unfold attempt. intros HQ. destruct r.1; [|done].
  intros (g & ? & ? & ? & ?). exists g. auto.
Qed.

Lemma attempt_success (Q : gate literal → Prop) cp st st1 g :
  calls st1 = calls st → grows (mark_used cp st) st1 → Q g →
  attempt Q cp st (true, call g st1).
Proof.
  intros Hc Hg HQ. unfold attempt; simpl. exists g. split_and!.
  - by rewrite Hc.
  - done.
  - eapply grows_trans; [apply grows_mark_used|]. eapply grows_trans; [exact Hg|].
    apply grows_call.
  - intros Hv. eapply marked_stays; [exact Hv|].
    eapply grows_trans; [exact Hg|]. apply grows_call.
Qed.

(** The store of a successful attempt. *)
Ltac marks :=
  apply attempt_success;
  [ by rewrite ?calls_mark_if
  | repeat (eapply grows_trans; [|apply grows_mark_if]); apply grows_refl
  | ].

Lemma try_ite_loop_attempt f ν ps ts x y z cp c1 (ul : use_list_t literal) st :
  attempt (λ g, is_mux g = true ∧
             (ternaries_ok st ps ts → model_of f ν ps st →
              ν x || ν y || ν z = true → ν y || ν (neg z) || ν (neg x) = true →
              (∀ u c2, (u, c2) ∈ ul → ν (neg y) || ν x || ν u = true) →
              gate_true ν g))
          cp st (try_ite_loop f ts x y z cp c1 ul st).
Proof.
  induction ul as [|[u c2] ul IH]; simpl; [done|].
  destruct (has_ternary f ts (neg u) (neg x) (neg y)) as [c3|] eqn:H3.
  - marks. split; [done|]. intros Hok Hm Hc H1 Hul. simpl.
    pose proof (has_ternary_sound _ _ _ _ _ _ _ _ _ Hok Hm H3) as Hc3.
    pose proof (Hul u c2 ltac:(by left)) as Hc2.
    destruct Hm as (Hneg & _). rewrite !Hneg in *. bools ν.
  - eapply attempt_mono; [|exact IH]. intros g [? Hg]. split; [done|].
    intros Hok Hm Hc H1 Hul. apply Hg; try done.
    intros u' c2' Hin. apply (Hul u' c2'). by right.
Qed.

Lemma try_ite_attempt f ν ps bs ts x y z cp st :
  attempt (λ g, is_mux g = true ∧
             (binaries_ok st ps bs → ternaries_ok st ps ts → model_of f ν ps st →
              ν x || ν y || ν z = true → gate_true ν g))
          cp st (try_ite f bs ts x y z cp st).
Proof.
  unfold try_ite.
  destruct (has_ternary f ts y (neg z) (neg x)) as [c1|] eqn:H1; [|done].
  destruct (bs !! binary_key (mk_binary (neg y) x None)) as [b|] eqn:Hb; [|done].
  eapply attempt_mono; [|apply (try_ite_loop_attempt f ν ps)].
  intros g [? Hg]. split; [done|]. intros Hbs Hok Hm Hc. apply Hg; try done.
  - exact (has_ternary_sound _ _ _ _ _ _ _ _ _ Hok Hm H1).
  - intros u c2 Hin. exact (use_list_sound _ _ _ _ _ _ _ _ _ _ Hbs Hm Hb Hin).
Qed.

Lemma try_maj_loop_attempt f ν ps ts x y z cp c1 (ul : use_list_t literal) st :
  attempt (λ g, is_maj g = true ∧
             (ternaries_ok st ps ts → model_of f ν ps st →
              ν x || ν y || ν z = true → ν (neg x) || ν (neg y) || ν (neg z) = true →
              gate_true ν g))
          cp st (try_maj_loop f ts x y z cp c1 ul st).
Proof.
  induction ul as [|[u c2] ul IH]; simpl; [done|].
  case_bool_decide; [done|].
  destruct (has_ternary f ts x y u) as [c3|] eqn:H3; [|done].
  destruct (has_ternary f ts (neg x) (neg y) (neg u)) as [c4|] eqn:H4; [|done].
  destruct (has_ternary f ts x z u) as [c5|] eqn:H5; [|done].
  destruct (has_ternary f ts (neg x) (neg z) (neg u)) as [c6|] eqn:H6; [|done].
  marks. split; [done|]. intros Hok Hm Hc H1. simpl.
  pose proof (has_ternary_sound _ _ _ _ _ _ _ _ _ Hok Hm H3).
  pose proof (has_ternary_sound _ _ _ _ _ _ _ _ _ Hok Hm H4).
  pose proof (has_ternary_sound _ _ _ _ _ _ _ _ _ Hok Hm H5).
  pose proof (has_ternary_sound _ _ _ _ _ _ _ _ _ Hok Hm H6).
  destruct Hm as (Hneg & _). rewrite !Hneg in *. bools ν.
Qed.

Lemma try_maj_attempt f ν ps bs ts x y z cp st :
  attempt (λ g, is_maj g = true ∧
             (binaries_ok st ps bs → ternaries_ok st ps ts → model_of f ν ps st →
              ν x || ν y || ν z = true → gate_true ν g))
          cp st (try_maj f bs ts x y z cp st).
Proof.
  unfold try_maj.
  destruct (has_ternary f ts (neg x) (neg y) (neg z)) as [c1|] eqn:H1; [|done].
  destruct (bs !! binary_key (mk_binary x y None)) as [b|] eqn:Hb; [|done].
  eapply attempt_mono; [|apply (try_maj_loop_attempt f ν ps)].
  intros g [? Hg]. split; [done|]. intros Hbs Hok Hm Hc. apply Hg; try done.
  exact (has_ternary_sound _ _ _ _ _ _ _ _ _ Hok Hm H1).
Qed.

Lemma try_orand_loop_attempt f ν ps ts x y z cp (ul : use_list_t literal) st :
  attempt (λ g, is_orand g = true ∧
             (ternaries_ok st ps ts → model_of f ν ps st →
              ν x || ν y || ν z = true → ν (neg x) || ν (neg y) = true →
              (∀ u c2, (u, c2) ∈ ul → ν x || ν y || ν u = true) →
              gate_true ν g))
          cp st (try_orand_loop f ts x y z cp ul st).
Proof.
  induction ul as [|[u c1] ul IH]; simpl; [done|].
  assert (Hnext : attempt (λ g, is_orand g = true ∧
             (ternaries_ok st ps ts → model_of f ν ps st →
              ν x || ν y || ν z = true → ν (neg x) || ν (neg y) = true →
              (∀ u' c2, (u', c2) ∈ (u, c1) :: ul → ν x || ν y || ν u' = true) →
              gate_true ν g))
          cp st (try_orand_loop f ts x y z cp ul st)).
  { eapply attempt_mono; [|exact IH]. intros g [? Hg]. split; [done|].
    intros Hok Hm Hc H1 Hul. apply Hg; try done.
    intros u' c2' Hin. apply (Hul u' c2'). by right. }
  case_bool_decide; [done|].
  destruct (has_ternary f ts (neg z) (neg u) (neg x)) as [c2|] eqn:H2; [|done].
  marks. split; [done|]. intros Hok Hm Hc H1 Hul. simpl.
  pose proof (has_ternary_sound _ _ _ _ _ _ _ _ _ Hok Hm H2) as Hc2.
  pose proof (Hul u c1 ltac:(by left)) as Hc1.
  destruct Hm as (Hneg & _). rewrite !Hneg in *. bools ν.
Qed.

Lemma try_orand_attempt f ν ps bs ts x y z cp st :
  attempt (λ g, is_orand g = true ∧
             (binaries_ok st ps bs → ternaries_ok st ps ts → model_of f ν ps st →
              ν x || ν y || ν z = true → gate_true ν g))
          cp st (try_orand f bs ts x y z cp st).
Proof.
  unfold try_orand.
  destruct (implies f x (neg y)) eqn:H1; simpl; [|done].
  destruct (bs !! binary_key (mk_binary x y None)) as [b|] eqn:Hb; [|done].
  eapply attempt_mono; [|apply (try_orand_loop_attempt f ν ps)].
  intros g [? Hg]. split; [done|]. intros Hbs Hok Hm Hc. apply Hg; try done.
  - pose proof Hm as (Hneg & Himp & _). pose proof (Himp _ _ H1) as Hv.
    rewrite !Hneg in *. bools ν.
  - intros u c2 Hin. exact (use_list_sound _ _ _ _ _ _ _ _ _ _ Hbs Hm Hb Hin).
Qed.

Lemma try_gamble_attempt f ν ps qs ts cp w x y z st :
  attempt (λ g, is_gamble g = true ∧
             (quaternaries_ok st ps qs → ternaries_ok st ps ts → model_of f ν ps st →
              ν w || ν x || ν y || ν z = true → gate_true ν g))
          cp st (try_gamble f qs ts cp (w, x, y, z) st).
Proof.
  unfold try_gamble.
  destruct (has_quaternary f qs ts (neg x) (neg y) (neg z) w) as [c1|] eqn:H1; [|done].
  destruct (has_ternary f ts (neg x) y (neg w)) as [c2|] eqn:H2; [|done].
  destruct (has_ternary f ts (neg y) z (neg w)) as [c3|] eqn:H3; [|done].
  destruct (has_ternary f ts x (neg z) (neg w)) as [c4|] eqn:H4; [|done].
  marks. split; [done|]. intros Hq Hok Hm Hc. simpl.
  pose proof (has_quaternary_sound _ _ _ _ _ _ _ _ _ _ _ Hq Hok Hm H1).
  pose proof (has_ternary_sound _ _ _ _ _ _ _ _ _ Hok Hm H2).
  pose proof (has_ternary_sound _ _ _ _ _ _ _ _ _ Hok Hm H3).
  pose proof (has_ternary_sound _ _ _ _ _ _ _ _ _ Hok Hm H4).
  destruct Hm as (Hneg & _). rewrite !Hneg in *. bools ν.
Qed.

Lemma try_andxor_attempt f ν ps qs ts cp w x y z st :
  attempt (λ g, is_andxor g = true ∧
             (quaternaries_ok st ps qs → ternaries_ok st ps ts → model_of f ν ps st →
              ν w || ν x || ν y || ν z = true → gate_true ν g))
          cp st (try_andxor f qs ts cp (w, x, y, z) st).
Proof.
  unfold try_andxor.
  destruct (has_quaternary f qs ts (neg x) y z (neg w)) as [c1|] eqn:H1; [|done].
  destruct (has_ternary f ts (neg x) (neg y) w) as [c2|] eqn:H2; [|done].
  destruct (has_ternary f ts (neg x) (neg z) w) as [c3|] eqn:H3; [|done].
  destruct (has_ternary f ts x (neg y) (neg w)) as [c4|] eqn:H4; [|done].
  destruct (has_ternary f ts x (neg z) (neg w)) as [c5|] eqn:H5; [|done].
  marks. split; [done|]. intros Hq Hok Hm Hc. simpl.
  pose proof (has_quaternary_sound _ _ _ _ _ _ _ _ _ _ _ Hq Hok Hm H1).
  pose proof (has_ternary_sound _ _ _ _ _ _ _ _ _ Hok Hm H2).
  pose proof (has_ternary_sound _ _ _ _ _ _ _ _ _ Hok Hm H3).
  pose proof (has_ternary_sound _ _ _ _ _ _ _ _ _ Hok Hm H4).
  pose proof (has_ternary_sound _ _ _ _ _ _ _ _ _ Hok Hm H5).
  destruct Hm as (Hneg & _). rewrite !Hneg in *. bools ν.
Qed.

End Gates.

Section Scans.
Import Npn3.
Context {literal : Type} `{!Literal literal}.

Implicit Types (x y z w u : literal) (st : store literal) (f : npn3_finder literal).
Implicit Types (ν : literal → bool) (ps cs : list nat) (g : gate literal).

Lemma model_of_grows f ν ps st st' :
  (∀ p, lits_at st' p = lits_at st p) → model_of f ν ps st → model_of f ν ps st'.
Proof.
  intros Hl (Hneg & Himp & Hsat). split_and!; [done|done|].
  intros p c' Hp Hc'. pose proof (Hl p) as Hlp. unfold lits_at in Hlp. rewrite Hc' in Hlp.
  destruct (objs st !! p) as [c|] eqn:Hc; [|done]. injection Hlp as ->. eauto.
Qed.

Lemma model_of_mono f ν ps ps' st : ps' ⊆ ps → model_of f ν ps st → model_of f ν ps' st.
Proof. intros Hsub (Hneg & Himp & Hsat). split_and!; eauto. Qed.

Lemma used_count_cons st p ps :
  used_count st (p :: ps) =
  if not_used st p then used_count st ps else S (used_count st ps).
Proof.
  unfold used_count. destruct (not_used st p) eqn:Hp.
  - by rewrite filter_cons_False by (by rewrite Hp).
  - by rewrite filter_cons_True.
Qed.

Lemma used_count_kept st ps :
  (length (filter (λ p, not_used st p = true) ps) + used_count st ps = length ps)%nat.
Proof.
  induction ps as [|p ps IH]; [done|]. rewrite used_count_cons.
  destruct (not_used st p) eqn:Hp.
  - rewrite filter_cons_True by done. simpl. lia.
  - rewrite filter_cons_False by (by rewrite Hp). simpl. lia.
Qed.

Lemma filter_all_kept st ps :
  (∀ p, p ∈ ps → not_used st p = true) → filter (λ p, not_used st p = true) ps = ps.
Proof.
  induction ps as [|p ps IH]; intros Hall; [done|].
  rewrite filter_cons_True by (apply Hall; by left). f_equal. apply IH.
  intros q Hq. apply Hall. by right.
Qed.

Lemma first_of_attempt (Q : gate literal → Prop) cp
    (tries : list (store literal → bool * store literal)) st :
  is_Some (objs st !! cp) →
  Forall (λ t, attempt Q cp st (t st)) tries →
  first_of tries st = st ∨
  ∃ g, calls (first_of tries st) = calls st ++ [g] ∧ Q g ∧
       grows st (first_of tries st) ∧ not_used (first_of tries st) cp = false.
Proof.
  intros Hv. induction 1 as [|t tries Ht _ IH]; simpl; [by left|].
  unfold attempt in Ht. destruct (t st) as [ok st1]; simpl in *. destruct ok.
  - right. destruct Ht as (g & ? & ? & ? & Hu). exists g. auto.
  - by subst.
Qed.

(** A loop over the clauses whose body leaves the store as it is or makes
    one call and uses the clause at hand. *)
Lemma scan_spec (Q : gate literal → Prop) (step : store literal → nat → store literal)
    cs0 st0 cs st :
  (∀ st cp, cp ∈ cs0 → grows st0 st →
     step st cp = st ∨
     ∃ g, calls (step st cp) = calls st ++ [g] ∧ Q g ∧
          grows st (step st cp) ∧ not_used (step st cp) cp = false) →
  cs ⊆ cs0 → grows st0 st →
  ∃ new, calls (foldl step st cs) = calls st ++ new ∧ Forall Q new ∧
         grows st (foldl step st cs) ∧
         (length new ≤ used_count (foldl step st cs) cs)%nat ∧
         (new = [] → foldl step st cs = st).
Proof.
  intros Hstep. revert st. induction cs as [|cp cs IH]; intros st Hsub Hg; simpl.
  - exists []. split_and!;
      [by rewrite app_nil_r|done|apply grows_refl|unfold used_count; simpl; lia|done].
  - assert (Hsub' : cs ⊆ cs0) by (intros q Hq; apply Hsub; by right).
    destruct (Hstep st cp) as [Heq|(g & Hc & HQ & Hg1 & Hu)]; [apply Hsub; by left|done| |].
    + rewrite Heq. destruct (IH st Hsub' Hg) as (new & ? & ? & ? & Hlen & ?).
      exists new. split_and!; try done. rewrite used_count_cons.
      destruct (not_used _ cp); lia.
    + destruct (IH (step st cp) Hsub') as (new & Hc' & HQ' & Hg' & Hlen & _).
      { by eapply grows_trans. }
      exists (g :: new). split_and!.
      * rewrite Hc', Hc. by rewrite <- app_assoc.
      * by constructor.
      * by eapply grows_trans.
      * rewrite used_count_cons. destruct Hg' as [_ Hkeep]. rewrite (Hkeep cp Hu).
        simpl. lia.
      * done.
Qed.

End Scans.

Section Finders.
Import Npn3.
Context {literal : Type} `{!Literal literal}.

Implicit Types (x y z w u : literal) (st : store literal) (f : npn3_finder literal).
Implicit Types (ν : literal → bool) (ps cs : list nat) (g : gate literal).

Lemma reported_nothing f ν (kind : gate literal → bool) cs st : reported f ν kind cs st (cs, st).
Proof.
  exists []. simpl. split_and!; try done; [by rewrite app_nil_r|lia].
Qed.

(** The loop of a finder and its [filter_update], after the tables are
    made. *)
Lemma loop_reported f ν (kind : gate literal → bool) cs st st_u (step : store literal → nat → store literal) :
  (∀ p, lits_at st_u p = lits_at st p) → calls st_u = calls st →
  (∀ p, p ∈ cs → not_used st_u p = true) →
  (∀ st_i cp, cp ∈ cs → grows st_u st_i →
     step st_i cp = st_i ∨
     ∃ g, calls (step st_i cp) = calls st_i ++ [g] ∧
          (kind g = true ∧
           (model_of f ν (learned (s f) ++ clauses (s f) ++ cs) st → gate_true ν g)) ∧
          grows st_i (step st_i cp) ∧ not_used (step st_i cp) cp = false) →
  reported f ν kind cs st
    (filter (λ cp, not_used (foldl step st_u cs) cp = true) cs, foldl step st_u cs).
Proof.
  intros Hl Hc Hun Hstep.
  destruct (scan_spec _ step cs st_u cs st_u Hstep) as (new & Hc' & HQ & Hg & Hlen & Hnone);
    [done|apply grows_refl|].
  exists new. simpl. split_and!.
  - by rewrite Hc', Hc.
  - eapply Forall_impl; [exact HQ|]. by intros g [? _].
  - intros Hm. eapply Forall_impl; [exact HQ|]. intros g [_ Hg']. by apply Hg'.
  - intros p. destruct Hg as [Hl' _]. by rewrite Hl'.
  - apply sublist_filter.
  - pose proof (used_count_kept (foldl step st_u cs) cs). lia.
  - intros Hn. rewrite (Hnone Hn). by apply filter_all_kept.
Qed.

Lemma find_npn3_reported f ν (kind : gate literal → bool) on (checker : checker_t) cs st :
  (∀ bs ts x y z cp st ps,
     attempt (λ g, kind g = true ∧
                (binaries_ok st ps bs → ternaries_ok st ps ts → model_of f ν ps st →
                 ν x || ν y || ν z = true → gate_true ν g))
             cp st (checker bs ts x y z cp st)) →
  reported f ν kind cs st (find_npn3 f on checker cs st).
Proof.
  intros Hchk. unfold find_npn3. destruct on; cbn [negb]; [|apply reported_nothing].
  destruct (process_clauses f cs st) as [[bs ts] st_u] eqn:Hpc. cbv beta iota zeta.
  destruct (process_clauses_ok f cs st bs ts st_u Hpc) as (Hb & Ht & Hl & Hc & Hun).
  set (ps := learned (s f) ++ clauses (s f) ++ cs).
  assert (Hsub : learned (s f) ++ clauses (s f) ⊆ ps).
  { intros r Hr. unfold ps. rewrite app_assoc. apply elem_of_app. by left. }
  apply (loop_reported f ν kind cs st st_u); try done.
  intros st_i cp Hcp [Hli _].
  destruct (objs st_i !! cp) as [c|] eqn:Hobj; [|by left].
  destruct (c_lits c) as [|x [|y [|z [|? ?]]]] eqn:Hlits; try (by left).
  destruct (c_used c); [by left|].
  assert (Hok : model_of f ν ps st →
                binaries_ok st_i ps bs ∧ ternaries_ok st_i ps ts ∧ model_of f ν ps st_i ∧
                ν x || ν y || ν z = true).
  { intros Hm.
    assert (Hm' : model_of f ν ps st_i).
    { eapply model_of_grows; [|exact Hm]. intros p. by rewrite Hli. }
    split_and!; [| |done|].
    - apply (tables_ok_grows st_u st_i ps Hli), (tables_ok_mono st_u _ ps Hsub), Hb.
    - apply (tables_ok_grows st_u st_i ps Hli), (tables_ok_mono st_u _ ps Hsub), Ht.
    - apply holds_3. rewrite <- Hlits. destruct Hm' as (_ & _ & Hsat).
      apply (Hsat cp c); [|done]. unfold ps. rewrite !elem_of_app. auto. }
  apply first_of_attempt; [by eexists|].
  repeat constructor;
    (eapply attempt_mono; [|apply (Hchk _ _ _ _ _ _ _ ps)]; intros g [? Hg]; split; [done|];
     intros Hm; destruct (Hok Hm) as (? & ? & ? & Hv); apply Hg; try done;
     clear -Hv; bools ν).
Qed.

Lemma find_mux_reported f ν cs st : reported f ν is_mux cs st (find_mux f cs st).
Proof. apply find_npn3_reported. intros. apply try_ite_attempt. Qed.

Lemma find_maj_reported f ν cs st : reported f ν is_maj cs st (find_maj f cs st).
Proof. apply find_npn3_reported. intros. apply try_maj_attempt. Qed.

Lemma find_orand_reported f ν cs st : reported f ν is_orand cs st (find_orand f cs st).
Proof. apply find_npn3_reported. intros. apply try_orand_attempt. Qed.

(** The loops of [find_gamble] and [find_andxor]. *)
Lemma orders_reported f ν (kind : gate literal → bool)
    (try4 : quaternary_hash_table_t literal → ternary_hash_table_t literal → nat →
            literal * literal * literal * literal → store literal → bool * store literal)
    cs st bs ts qs st_u :
  (∀ qs ts cp w x y z st ps,
     attempt (λ g, kind g = true ∧
                (quaternaries_ok st ps qs → ternaries_ok st ps ts → model_of f ν ps st →
                 ν w || ν x || ν y || ν z = true → gate_true ν g))
             cp st (try4 qs ts cp (w, x, y, z) st)) →
  process_more_clauses f cs st = (bs, ts, qs, st_u) →
  reported f ν kind cs st
    (filter (λ cp, not_used
       (foldl (λ st cp,
          match objs st !! cp with
          | Some c =>
            match c_lits c with
            | [w; x; y; z] =>
              if c_used c then st
              else first_of (try4 qs ts cp <$> orders w x y z) st
            | _ => st
            end
          | None => st
          end) st_u cs) cp = true) cs,
     foldl (λ st cp,
          match objs st !! cp with
          | Some c =>
            match c_lits c with
            | [w; x; y; z] =>
              if c_used c then st
              else first_of (try4 qs ts cp <$> orders w x y z) st
            | _ => st
            end
          | None => st
          end) st_u cs).
Proof.
  intros Htry Hpc.
  destruct (process_more_clauses_ok f cs st bs ts qs st_u Hpc)
    as (Hb & Ht & Hq & Hl & Hc & Hun).
  set (ps := learned (s f) ++ clauses (s f) ++ cs).
  assert (Hsub : learned (s f) ++ clauses (s f) ⊆ ps).
  { intros r Hr. unfold ps. rewrite app_assoc. apply elem_of_app. by left. }
  apply (loop_reported f ν kind cs st st_u); try done.
  intros st_i cp Hcp [Hli _].
  destruct (objs st_i !! cp) as [c|] eqn:Hobj; [|by left].
  destruct (c_lits c) as [|w [|x [|y [|z [|? ?]]]]] eqn:Hlits; try (by left).
  destruct (c_used c); [by left|].
  assert (Hok : model_of f ν ps st →
                quaternaries_ok st_i ps qs ∧ ternaries_ok st_i ps ts ∧
                model_of f ν ps st_i ∧ ν w || ν x || ν y || ν z = true).
  { intros Hm.
    assert (Hm' : model_of f ν ps st_i).
    { eapply model_of_grows; [|exact Hm]. intros p. by rewrite Hli. }
    split_and!; [| |done|].
    - apply (tables_ok_grows st_u st_i ps Hli), (tables_ok_mono st_u _ ps Hsub), Hq.
    - apply (tables_ok_grows st_u st_i ps Hli), (tables_ok_mono st_u _ ps Hsub), Ht.
    - apply holds_4. rewrite <- Hlits. destruct Hm' as (_ & _ & Hsat).
      apply (Hsat cp c); [|done]. unfold ps. rewrite !elem_of_app. auto. }
  apply first_of_attempt; [by eexists|].
  apply Forall_fmap. unfold orders.
  repeat constructor; simpl;
    (eapply attempt_mono; [|apply (Htry _ _ _ _ _ _ _ _ ps)]; intros g [? Hg]; split; [done|];
     intros Hm; destruct (Hok Hm) as (? & ? & ? & Hv); apply Hg; try done;
     clear -Hv; bools ν).
Qed.

Lemma find_gamble_reported f ν cs st : reported f ν is_gamble cs st (find_gamble f cs st).
Proof.
  unfold find_gamble. destruct (m_on_gamble f); cbn [negb]; [|apply reported_nothing].
  destruct (process_more_clauses f cs st) as [[[bs ts] qs] st_u] eqn:Hpc.
  cbv beta iota zeta.
  apply (orders_reported f ν is_gamble (try_gamble f) cs st bs ts qs st_u); [|done].
  intros. apply try_gamble_attempt.
Qed.

Lemma find_andxor_reported f ν cs st : reported f ν is_andxor cs st (find_andxor f cs st).
Proof.
  unfold find_andxor. destruct (m_on_andxor f); cbn [negb]; [|apply reported_nothing].
  destruct (process_more_clauses f cs st) as [[[bs ts] qs] st_u] eqn:Hpc.
  cbv beta iota zeta.
  apply (orders_reported f ν is_andxor (try_andxor f) cs st bs ts qs st_u); [|done].
  intros. apply try_andxor_attempt.
Qed.

End Finders.

Section Lookups.
Import Npn3.
Context {literal : Type} `{!Literal literal}.

Implicit Types (x y z w u : literal) (st : store literal) (f : npn3_finder literal).
Implicit Types (ν : literal → bool) (ps cs : list nat) (g : gate literal) (p cp : nat).

Lemma perm3_cases (x y z a b c : literal) :
  [x; y; z] ≡ₚ [a; b; c] →
  (x, y, z) = (a, b, c) ∨ (x, y, z) = (a, c, b) ∨ (x, y, z) = (b, a, c) ∨
  (x, y, z) = (b, c, a) ∨ (x, y, z) = (c, a, b) ∨ (x, y, z) = (c, b, a).
Proof.
  intros (k1 & k2 & Hk & Hp)%Permutation_cons_inv_l.
  destruct k1 as [|? [|? [|? k1]]]; simplify_eq/=.
  - apply Permutation_length_2 in Hp as [[-> ->]|[-> ->]]; auto.
  - apply Permutation_length_2 in Hp as [[-> ->]|[-> ->]]; auto 10.
  - apply Permutation_length_2 in Hp as [[-> ->]|[-> ->]]; auto 10.
  - by destruct k1.
Qed.

Lemma insert_binary_entry x y z p (bs : binary_hash_table_t literal) :
  in_use_list (insert_binary x y z p bs) x y z p.
Proof.
  unfold in_use_list, insert_binary. rewrite lookup_insert_eq. eexists. split; [done|].
  simpl. apply elem_of_app. right. by left.
Qed.

Lemma insert_binary_keeps x y z p (bs : binary_hash_table_t literal) x' y' z' p' :
  in_use_list bs x' y' z' p' → in_use_list (insert_binary x y z p bs) x' y' z' p'.
Proof.
  unfold in_use_list, insert_binary. intros (e & He & Hin).
  destruct (decide (binary_key (mk_binary x y None) = binary_key (mk_binary x' y' None)))
    as [Heq|Hne].
  - rewrite Heq, lookup_insert_eq. eexists. split; [done|].
    rewrite He. simpl. apply elem_of_app. by left.
  - rewrite lookup_insert_ne by done. eauto.
Qed.

Lemma insert_ternary_keeps st tabs cp c0 c1 c2 p :
  entered tabs c0 c1 c2 p → entered (insert_ternary st tabs cp) c0 c1 c2 p.
Proof.
  intros (Ht & H1 & H2 & H3). unfold insert_ternary.
  destruct (objs st !! cp) as [c|]; [|done].
  destruct (c_lits c) as [|d0 [|d1 [|d2 [|? ?]]]]; try done.
  split_and!; simpl; try (by repeat apply insert_binary_keeps).
  destruct (decide (ternary_key (mk_ternary d0 d1 d2 (Some cp))
                    = ternary_key (mk_ternary c0 c1 c2 None))) as [Heq|Hne].
  - rewrite Heq, lookup_insert_eq. by eexists.
  - by rewrite lookup_insert_ne.
Qed.

Lemma insert_ternary_enters st tabs cp c c0 c1 c2 :
  objs st !! cp = Some c → c_lits c = [c0; c1; c2] →
  entered (insert_ternary st tabs cp) c0 c1 c2 cp.
Proof.
  intros Hc Hl. unfold insert_ternary. rewrite Hc, Hl. split_and!; simpl.
  - rewrite (ternary_key_perm c0 c1 c2 (Some cp) c0 c1 c2 None) by done.
    rewrite lookup_insert_eq. by eexists.
  - do 2 apply insert_binary_keeps. apply insert_binary_entry.
  - apply insert_binary_keeps. apply insert_binary_entry.
  - apply insert_binary_entry.
Qed.

Lemma insert_ternary_loop_enters st tabs ps p c c0 c1 c2 :
  objs st !! p = Some c → c_lits c = [c0; c1; c2] →
  p ∈ ps ∨ entered tabs c0 c1 c2 p →
  entered (foldl (insert_ternary st) tabs ps) c0 c1 c2 p.
Proof.
  intros Hc Hl. revert tabs. induction ps as [|q ps IH]; intros tabs Hin; simpl.
  - destruct Hin as [Hin|?]; [|done]. by apply elem_of_nil in Hin.
  - apply IH. destruct Hin as [[->|Hin]%elem_of_cons|Hin]; [right|by left|right].
    + by eapply insert_ternary_enters.
    + by apply insert_ternary_keeps.
Qed.

Lemma process_clauses_enters f cs st bs ts st' p c0 c1 c2 :
  process_clauses f cs st = (bs, ts, st') →
  p ∈ learned (s f) ++ clauses (s f) → lits_at st p = Some [c0; c1; c2] →
  entered (bs, ts) c0 c1 c2 p.
Proof.
  unfold process_clauses. intros [= Htabs <-] Hp Hat. rewrite <- Htabs.
  destruct (unmark_all cs st) as (Hl & _).
  set (st' := foldl (λ st cp, unmark_used cp st) st cs) in *.
  rewrite <- Hl in Hat. unfold lits_at in Hat.
  destruct (objs st' !! p) as [c|] eqn:Hc; [|done]. injection Hat as Hlits.
  apply elem_of_app in Hp as [Hp|Hp].
  - eapply insert_ternary_loop_enters; [done|done|]. right.
    eapply insert_ternary_loop_enters; [done|done|]. by left.
  - eapply insert_ternary_loop_enters; [done|done|]. by left.
Qed.

End Lookups.

Section Reports.
Import Npn3.
Context {literal : Type} `{!Literal literal}.

Implicit Types (x y z w u : literal) (st : store literal) (f : npn3_finder literal).
Implicit Types (ν : literal → bool) (ps cs : list nat) (g : gate literal) (p cp : nat).

Lemma model_by_evaluation f ν ps st :
  (∀ l, ν (neg l) = negb (ν l)) →
  (∀ a b, implies f a b = true → ν a = true → ν b = true) →
  forallb (λ c, existsb ν (c_lits c)) (objs st) = true →
  model_of f ν ps st.
Proof.
  intros Hneg Himp Hall. split_and!; [done|done|].
  intros p c _ Hc. rewrite forallb_forall in Hall.
  assert (Hex : existsb ν (c_lits c) = true).
  { apply Hall. apply list_elem_of_In. by eapply list_elem_of_lookup_2. }
  apply existsb_exists in Hex as (l & Hl & Hv). exists l. split; [|done].
  by apply list_elem_of_In.
Qed.

Lemma reported_any f ν (kind : gate literal → bool) cs st r :
  reported f ν kind cs st r → reported f ν (λ _, true) cs st r.
Proof.
  intros (new & ? & ? & ? & ? & ? & ? & ?). exists new. split_and!; try done.
  by apply Forall_true.
Qed.

Lemma reported_then f ν cs st r1 r2 :
  reported f ν (λ _, true) cs st r1 → reported f ν (λ _, true) r1.1 r1.2 r2 →
  reported f ν (λ _, true) cs st r2.
Proof.
  intros (n1 & Hc1 & _ & Hm1 & Hl1 & Hs1 & Hn1 & He1)
         (n2 & Hc2 & _ & Hm2 & Hl2 & Hs2 & Hn2 & He2).
  exists (n1 ++ n2). split_and!.
  - by rewrite Hc2, Hc1, app_assoc.
  - by apply Forall_true.
  - intros Hm. apply Forall_app. split; [by apply Hm1|]. apply Hm2.
    eapply model_of_grows; [exact Hl1|]. eapply model_of_mono; [|exact Hm].
    intros q. rewrite !elem_of_app. intros [?|[?|Hq]]; auto.
    right. right. by eapply sublist_subseteq.
  - intros p. by rewrite Hl2.
  - by etrans.
  - rewrite length_app. pose proof (sublist_length _ _ Hs1). lia.
  - intros [-> ->]%app_eq_nil. rewrite He2 by done. by apply He1.
Qed.

Lemma find_all_reported f ν cs st : reported f ν (λ _, true) cs st (find_all f cs st).
Proof.
  unfold find_all.
  pose proof (reported_any _ _ _ _ _ _ (find_mux_reported f ν cs st)) as H1.
  destruct (find_mux f cs st) as [cs1 st1].
  pose proof (reported_any _ _ _ _ _ _ (find_maj_reported f ν cs1 st1)) as H2.
  pose proof (reported_then _ _ _ _ _ _ H1 H2) as H12. clear H1 H2.
  destruct (find_maj f cs1 st1) as [cs2 st2].
  pose proof (reported_any _ _ _ _ _ _ (find_orand_reported f ν cs2 st2)) as H3.
  pose proof (reported_then _ _ _ _ _ _ H12 H3) as H13. clear H12 H3.
  destruct (find_orand f cs2 st2) as [cs3 st3].
  pose proof (reported_any _ _ _ _ _ _ (find_andxor_reported f ν cs3 st3)) as H4.
  pose proof (reported_then _ _ _ _ _ _ H13 H4) as H14. clear H13 H4.
  destruct (find_andxor f cs3 st3) as [cs4 st4].
  pose proof (reported_any _ _ _ _ _ _ (find_gamble_reported f ν cs4 st4)) as H5.
  exact (reported_then _ _ _ _ _ _ H14 H5).
Qed.

Lemma reported_sound f ν (kind : gate literal → bool) cs st r :
  reported f ν kind cs st r →
  model_of f ν (learned (s f) ++ clauses (s f) ++ cs) st →
  ∃ new, calls r.2 = calls st ++ new ∧ Forall (λ g, kind g = true ∧ gate_true ν g) new.
Proof.
  intros (new & Hc & Hk & Hm & _) Hmod. exists new. split; [done|].
  apply Forall_and. auto.
Qed.

(** X9: the pair of a [binary] is ordered by index, it is the pair it was
    made of, and the order of the arguments makes no difference to [eq]. *)
Theorem binary_is_canonical x y (ul ul' : option (use_list_t literal)) :
  (index (b_x (mk_binary x y ul)) ≤ index (b_y (mk_binary x y ul)))%N ∧
  [b_x (mk_binary x y ul); b_y (mk_binary x y ul)] ≡ₚ [x; y] ∧
  binary_eq (mk_binary x y ul) (mk_binary y x ul') = true.
Proof.
  destruct (mk_binary_fields x y ul) as (Hle & Hp & _). split_and!; [done|done|].
  assert (Hk : binary_key (mk_binary x y ul) = binary_key (mk_binary y x ul')).
  { apply binary_key_perm. perm. }
  unfold binary_key in Hk. injection Hk as Hx Hy. unfold binary_eq.
  by rewrite !bool_decide_eq_true_2.
Qed.

(** X10: the three swaps of [ternary] sort the literals by index and keep
    them and the clause. *)
Theorem ternary_is_sorted x y z (c : clause_ptr) :
  (index (t_x (mk_ternary x y z c)) ≤ index (t_y (mk_ternary x y z c)))%N ∧
  (index (t_y (mk_ternary x y z c)) ≤ index (t_z (mk_ternary x y z c)))%N ∧
  [t_x (mk_ternary x y z c); t_y (mk_ternary x y z c); t_z (mk_ternary x y z c)]
    ≡ₚ [x; y; z] ∧
  t_orig (mk_ternary x y z c) = c.
Proof. apply mk_ternary_fields. Qed.

(** X11: in whatever order three literals are given, the [ternary] made of
    them is the same for [eq]. *)
Theorem ternary_is_canonical x y z (c : clause_ptr) x' y' z' (c' : clause_ptr) :
  [x; y; z] ≡ₚ [x'; y'; z'] →
  ternary_eq (mk_ternary x y z c) (mk_ternary x' y' z' c') = true.
Proof.
  intros Hp. pose proof (ternary_key_perm x y z c x' y' z' c' Hp) as Hk.
  unfold ternary_key in Hk. injection Hk as Hx Hy Hz. unfold ternary_eq.
  by rewrite !bool_decide_eq_true_2.
Qed.

(** X12: the five swaps of [quaternary] sort the four literals by index and
    keep them and the clause. *)
Theorem quaternary_is_sorted w x y z (c : clause_ptr) :
  (index (q_w (mk_quaternary w x y z c)) ≤ index (q_x (mk_quaternary w x y z c)))%N ∧
  (index (q_x (mk_quaternary w x y z c)) ≤ index (q_y (mk_quaternary w x y z c)))%N ∧
  (index (q_y (mk_quaternary w x y z c)) ≤ index (q_z (mk_quaternary w x y z c)))%N ∧
  [q_w (mk_quaternary w x y z c); q_x (mk_quaternary w x y z c);
   q_y (mk_quaternary w x y z c); q_z (mk_quaternary w x y z c)] ≡ₚ [w; x; y; z] ∧
  q_orig (mk_quaternary w x y z c) = c.
Proof. apply mk_quaternary_fields. Qed.

(** X13: in whatever order four literals are given, the [quaternary] made of
    them is the same for [eq]. *)
Theorem quaternary_is_canonical w x y z (c : clause_ptr) w' x' y' z' (c' : clause_ptr) :
  [w; x; y; z] ≡ₚ [w'; x'; y'; z'] →
  quaternary_eq (mk_quaternary w x y z c) (mk_quaternary w' x' y' z' c') = true.
Proof.
  intros Hp. pose proof (quaternary_key_perm w x y z c w' x' y' z' c' Hp) as Hk.
  unfold quaternary_key in Hk. injection Hk as Hw Hx Hy Hz. unfold quaternary_eq.
  by rewrite !bool_decide_eq_true_2.
Qed.

(** X14: after [process_clauses], [has_ternary] finds every clause of three
    literals of the solver, in whatever order the literals are asked for,
    and hands back a clause of the solver with these literals. *)
Theorem has_ternary_finds f cs st bs ts st' p a b c x y z :
  process_clauses f cs st = (bs, ts, st') →
  p ∈ learned (s f) ++ clauses (s f) → lits_at st p = Some [a; b; c] →
  [x; y; z] ≡ₚ [a; b; c] →
  ∃ q ls, has_ternary f ts x y z = Some (Some q) ∧
          q ∈ learned (s f) ++ clauses (s f) ∧ lits_at st q = Some ls ∧
          ls ≡ₚ [x; y; z].
Proof.
  intros Hpc Hp Hat Hperm.
  destruct (process_clauses_enters f cs st bs ts st' p a b c Hpc Hp Hat) as ([t Ht] & _).
  destruct (process_clauses_ok f cs st bs ts st' Hpc) as (_ & Hok & Hl & _).
  simpl in Ht. rewrite <- (ternary_key_perm x y z None a b c None Hperm) in Ht.
  destruct (Hok _ _ Ht) as [Hk (q & ls & Ho & Hq & Hls & Hp')].
  exists q, ls. unfold has_ternary. rewrite Ht, Ho. split_and!; [done|done|by rewrite <- Hl|].
  rewrite Hp'. destruct (mk_ternary_fields x y z None) as (_ & _ & Hf & _).
  rewrite <- Hf. unfold ternary_key in Hk. by injection Hk as -> -> ->.
Qed.

(** X15: after [process_clauses] the use list of a pair holds, for every
    clause of three literals of the solver with the pair, the third literal
    and the clause; and whatever is on the use list is such a clause. *)
Theorem use_lists_are_exact f cs st bs ts st' p a b c x y z :
  process_clauses f cs st = (bs, ts, st') →
  p ∈ learned (s f) ++ clauses (s f) → lits_at st p = Some [a; b; c] →
  [x; y; z] ≡ₚ [a; b; c] →
  in_use_list bs x y z p ∧
  ∀ e u q, bs !! binary_key (mk_binary x y None) = Some e →
    (u, q) ∈ default [] (use_list e) →
    ∃ r ls, q = Some r ∧ r ∈ learned (s f) ++ clauses (s f) ∧
            lits_at st r = Some ls ∧ ls ≡ₚ [x; y; u].
Proof.
  intros Hpc Hp Hat Hperm.
  destruct (process_clauses_enters f cs st bs ts st' p a b c Hpc Hp Hat)
    as (_ & H1 & H2 & H3).
  destruct (process_clauses_ok f cs st bs ts st' Hpc) as (Hok & _ & Hl & _).
  simpl in *. split.
  - unfold in_use_list in *.
    destruct (perm3_cases _ _ _ _ _ _ Hperm) as [Heq|[Heq|[Heq|[Heq|[Heq|Heq]]]]];
      injection Heq as -> -> ->; try done.
    + by rewrite (binary_key_perm b a None a b None) by perm.
    + by rewrite (binary_key_perm b c None c b None) by perm.
    + by rewrite (binary_key_perm c a None a c None) by perm.
  - intros e u q He Hin. destruct (Hok _ _ He) as [Hk Hul].
    destruct (Hul u q Hin) as (r & ls & -> & Hr & Hls & Hp').
    exists r, ls. split_and!; [done|done|by rewrite <- Hl|].
    rewrite Hp'. destruct (mk_binary_fields x y None) as (_ & Hf & _).
    change ([b_x e; b_y e] ++ [u] ≡ₚ [x; y] ++ [u]).
    rewrite <- Hf. unfold binary_key in Hk. by injection Hk as -> ->.
Qed.

(** X16: after [process_clauses], [has_ternary] says yes only when the clause
    of the three literals holds in every model of the clauses of the
    solver. *)
Theorem has_ternary_entails f ν cs st bs ts st' x y z (c : clause_ptr) :
  process_clauses f cs st = (bs, ts, st') →
  model_of f ν (learned (s f) ++ clauses (s f)) st →
  has_ternary f ts x y z = Some c →
  ν x || ν y || ν z = true.
Proof.
  intros Hpc Hm Hc.
  destruct (process_clauses_ok f cs st bs ts st' Hpc) as (_ & Hok & Hl & _).
  eapply has_ternary_sound; [exact Hok| |exact Hc].
  eapply model_of_grows; [exact Hl|exact Hm].
Qed.

(** X17: after [process_more_clauses], [has_quaternary] says yes only when the
    clause of the four literals holds in every model of the clauses of the
    solver. *)
Theorem has_quaternary_entails f ν cs st bs ts qs st' w x y z (c : clause_ptr) :
  process_more_clauses f cs st = (bs, ts, qs, st') →
  model_of f ν (learned (s f) ++ clauses (s f)) st →
  has_quaternary f qs ts w x y z = Some c →
  ν w || ν x || ν y || ν z = true.
Proof.
  intros Hpc Hm Hc.
  destruct (process_more_clauses_ok f cs st bs ts qs st' Hpc) as (_ & Hok & Hq & Hl & _).
  eapply has_quaternary_sound; [exact Hq|exact Hok| |exact Hc].
  eapply model_of_grows; [exact Hl|exact Hm].
Qed.

(** X18: [find_mux] calls [m_on_mux] only, and in every model of the clauses
    each call [(head, c, t, e)] has [head] equal to [t] when [c] is true and
    to [e] when it is false. *)
Theorem find_mux_sound f ν cs st :
  model_of f ν (learned (s f) ++ clauses (s f) ++ cs) st →
  ∃ new, calls (find_mux f cs st).2 = calls st ++ new ∧
         Forall (λ g, is_mux g = true ∧ gate_true ν g) new.
Proof. apply reported_sound, find_mux_reported. Qed.

(** X19: [find_maj] calls [m_on_maj] only, and in every model of the clauses
    each call [(head, a, b, c)] has [head] equal to the majority of [a], [b]
    and [c]. *)
Theorem find_maj_sound f ν cs st :
  model_of f ν (learned (s f) ++ clauses (s f) ++ cs) st →
  ∃ new, calls (find_maj f cs st).2 = calls st ++ new ∧
         Forall (λ g, is_maj g = true ∧ gate_true ν g) new.
Proof. apply reported_sound, find_maj_reported. Qed.

(** X20: [find_orand] calls [m_on_orand] only, and in every model of the
    clauses each call [(head, a, b, c)] has [head] equal to [a ∧ (b ∨ c)]. *)
Theorem find_orand_sound f ν cs st :
  model_of f ν (learned (s f) ++ clauses (s f) ++ cs) st →
  ∃ new, calls (find_orand f cs st).2 = calls st ++ new ∧
         Forall (λ g, is_orand g = true ∧ gate_true ν g) new.
Proof. apply reported_sound, find_orand_reported. Qed.

(** X21: [find_gamble] calls [m_on_gamble] only, and in every model of the
    clauses each call [(head, a, b, c)] has [head] true exactly when [a],
    [b] and [c] are all true or all false. *)
Theorem find_gamble_sound f ν cs st :
  model_of f ν (learned (s f) ++ clauses (s f) ++ cs) st →
  ∃ new, calls (find_gamble f cs st).2 = calls st ++ new ∧
         Forall (λ g, is_gamble g = true ∧ gate_true ν g) new.
Proof. apply reported_sound, find_gamble_reported. Qed.

(** X22: [find_andxor] calls [m_on_andxor] only, and in every model of the
    clauses each call [(head, a, b, c)] has [head] equal to [a] when [b] and
    [c] are both true and to the complement of [a] otherwise. *)
Theorem find_andxor_sound f ν cs st :
  model_of f ν (learned (s f) ++ clauses (s f) ++ cs) st →
  ∃ new, calls (find_andxor f cs st).2 = calls st ++ new ∧
         Forall (λ g, is_andxor g = true ∧ gate_true ν g) new.
Proof. apply reported_sound, find_andxor_reported. Qed.

(** X23: every call that [operator()] makes is true in every model of the
    clauses of the solver and of the clauses it was given. *)
Theorem find_all_sound f ν cs st :
  model_of f ν (learned (s f) ++ clauses (s f) ++ cs) st →
  ∃ new, calls (find_all f cs st).2 = calls st ++ new ∧ Forall (gate_true ν) new.
Proof.
  intros Hm. destruct (reported_sound _ _ _ _ _ _ (find_all_reported f ν cs st) Hm)
    as (new & Hc & Hall).
  exists new. split; [done|]. eapply Forall_impl; [exact Hall|]. by intros g [_ ?].
Qed.

(** X24: [operator()] only drops clauses from the vector it was given, one at
    least for every call it makes and none when it makes no call; the
    literals of the clause objects stay as they are. *)
Theorem find_all_consumes f cs st :
  ∃ new, calls (find_all f cs st).2 = calls st ++ new ∧
    (find_all f cs st).1 `sublist_of` cs ∧
    (length (find_all f cs st).1 + length new ≤ length cs)%nat ∧
    (new = [] → (find_all f cs st).1 = cs) ∧
    (∀ p, lits_at (find_all f cs st).2 p = lits_at st p).
Proof.
  destruct (find_all_reported f (λ _, true) cs st) as (new & ? & _ & _ & ? & ? & ? & ?).
  exists new. by split_and!.
Qed.

(** X25: the calls of [operator()] come grouped: the multiplexers first, then
    the majorities, the or-ands, the and-xors and the gambles. *)
Theorem find_all_order f cs st :
  ∃ n1 n2 n3 n4 n5,
    calls (find_all f cs st).2 = calls st ++ n1 ++ n2 ++ n3 ++ n4 ++ n5 ∧
    Forall (λ g, is_mux g = true) n1 ∧ Forall (λ g, is_maj g = true) n2 ∧
    Forall (λ g, is_orand g = true) n3 ∧ Forall (λ g, is_andxor g = true) n4 ∧
    Forall (λ g, is_gamble g = true) n5.
Proof.
  unfold find_all.
  destruct (find_mux_reported f (λ _, true) cs st) as (n1 & Hc1 & Hk1 & _).
  destruct (find_mux f cs st) as [cs1 st1].
  destruct (find_maj_reported f (λ _, true) cs1 st1) as (n2 & Hc2 & Hk2 & _).
  destruct (find_maj f cs1 st1) as [cs2 st2].
  destruct (find_orand_reported f (λ _, true) cs2 st2) as (n3 & Hc3 & Hk3 & _).
  destruct (find_orand f cs2 st2) as [cs3 st3].
  destruct (find_andxor_reported f (λ _, true) cs3 st3) as (n4 & Hc4 & Hk4 & _).
  destruct (find_andxor f cs3 st3) as [cs4 st4].
  destruct (find_gamble_reported f (λ _, true) cs4 st4) as (n5 & Hc5 & Hk5 & _).
  exists n1, n2, n3, n4, n5. simpl in *. split_and!; try done.
  rewrite Hc5, Hc4, Hc3, Hc2, Hc1. by rewrite <- !app_assoc.
Qed.

End Reports.

Section Exhaustive.
Import Npn3.
Context {literal : Type} `{!Literal literal}.

Implicit Types (x y z w u : literal) (st : store literal) (f : npn3_finder literal).
Implicit Types (ps cs : list nat) (g : gate literal) (p cp : nat).

(** *** When a checker says yes *)

Lemma try_ite_loop_iff f ts x y z cp (c1 : clause_ptr) (ul : use_list_t literal) st :
  (try_ite_loop f ts x y z cp c1 ul st).1 = true ↔
  ∃ u c2, (u, c2) ∈ ul ∧ is_Some (has_ternary f ts (neg u) (neg x) (neg y)).
Proof.
  induction ul as [|[u c2] ul IH]; simpl.
  - split; [done|]. intros (u & c2 & Hin & _). by apply elem_of_nil in Hin.
  - destruct (has_ternary f ts (neg u) (neg x) (neg y)) as [c3|] eqn:H3; simpl.
    + split; [|done]. intros _. exists u, c2. split; [by left|]. by rewrite H3.
    + rewrite IH. split.
      * intros (u' & c2' & Hin & Hs). exists u', c2'. split; [by right|done].
      * intros (u' & c2' & [Heq|Hin]%elem_of_cons & Hs); [|by eauto].
        injection Heq as -> ->. rewrite H3 in Hs. by destruct Hs.
Qed.

Lemma try_ite_iff f bs ts x y z cp st :
  (try_ite f bs ts x y z cp st).1 = true ↔ mux_at f bs ts x y z.
Proof.
  unfold try_ite, mux_at.
  destruct (has_ternary f ts y (neg z) (neg x)) as [c1|] eqn:H1.
  2: { split; [done|]. by intros [[? ?] _]. }
  destruct (bs !! binary_key (mk_binary (neg y) x None)) as [b|] eqn:Hb.
  2: { split; [done|]. by intros (_ & b & u & c2 & ? & _). }
  rewrite try_ite_loop_iff. split.
  - intros (u & c2 & Hin & Hs). split; [by eexists|]. by exists b, u, c2.
  - intros (_ & b' & u & c2 & Hb' & Hin & Hs). simplify_eq. eauto.
Qed.

Lemma try_maj_loop_iff f ts x y z cp (c1 : clause_ptr) (ul : use_list_t literal) st :
  (try_maj_loop f ts x y z cp c1 ul st).1 = true ↔
  ∃ u c2, (u, c2) ∈ ul ∧ u ≠ z ∧
    is_Some (has_ternary f ts x y u) ∧
    is_Some (has_ternary f ts (neg x) (neg y) (neg u)) ∧
    is_Some (has_ternary f ts x z u) ∧
    is_Some (has_ternary f ts (neg x) (neg z) (neg u)).
Proof.
  induction ul as [|[u c2] ul IH]; simpl.
  - split; [done|]. intros (u & c2 & Hin & _). by apply elem_of_nil in Hin.
  - assert (Hskip : ¬ (u ≠ z ∧
        is_Some (has_ternary f ts x y u) ∧
        is_Some (has_ternary f ts (neg x) (neg y) (neg u)) ∧
        is_Some (has_ternary f ts x z u) ∧
        is_Some (has_ternary f ts (neg x) (neg z) (neg u))) →
      ((try_maj_loop f ts x y z cp c1 ul st).1 = true ↔
       ∃ u' c2', (u', c2') ∈ (u, c2) :: ul ∧ u' ≠ z ∧
         is_Some (has_ternary f ts x y u') ∧
         is_Some (has_ternary f ts (neg x) (neg y) (neg u')) ∧
         is_Some (has_ternary f ts x z u') ∧
         is_Some (has_ternary f ts (neg x) (neg z) (neg u')))).
    { intros Hno. rewrite IH. split.
      - intros (u' & c2' & Hin & Hs). exists u', c2'. split; [by right|done].
      - intros (u' & c2' & [Heq|Hin]%elem_of_cons & Hs); [|by eauto].
        injection Heq as -> ->. done. }
    case_bool_decide as Hz; [apply Hskip; by intros [? _]|].
    destruct (has_ternary f ts x y u) as [c3|] eqn:H3;
      [|apply Hskip; by intros (_ & [? ?] & _)].
    destruct (has_ternary f ts (neg x) (neg y) (neg u)) as [c4|] eqn:H4;
      [|apply Hskip; by intros (_ & _ & [? ?] & _)].
    destruct (has_ternary f ts x z u) as [c5|] eqn:H5;
      [|apply Hskip; by intros (_ & _ & _ & [? ?] & _)].
    destruct (has_ternary f ts (neg x) (neg z) (neg u)) as [c6|] eqn:H6;
      [|apply Hskip; by intros (_ & _ & _ & _ & [? ?])].
    simpl. split; [|done]. intros _. exists u, c2.
    rewrite H3, H4, H5, H6. split_and!; first [by left | by eexists | done].
Qed.

Lemma try_maj_iff f bs ts x y z cp st :
  (try_maj f bs ts x y z cp st).1 = true ↔ maj_at f bs ts x y z.
Proof.
  unfold try_maj, maj_at.
  destruct (has_ternary f ts (neg x) (neg y) (neg z)) as [c1|] eqn:H1.
  2: { split; [done|]. by intros [[? ?] _]. }
  destruct (bs !! binary_key (mk_binary x y None)) as [b|] eqn:Hb.
  2: { split; [done|]. by intros (_ & b & u & c2 & ? & _). }
  rewrite try_maj_loop_iff. split.
  - intros (u & c2 & Hin & Hs). split; [by eexists|]. by exists b, u, c2.
  - intros (_ & b' & u & c2 & Hb' & Hin & Hs). simplify_eq. eauto.
Qed.

Lemma try_orand_loop_iff f ts x y z cp (ul : use_list_t literal) st :
  (try_orand_loop f ts x y z cp ul st).1 = true ↔
  ∃ u c1, (u, c1) ∈ ul ∧ u ≠ z ∧
    is_Some (has_ternary f ts (neg z) (neg u) (neg x)).
Proof.
  induction ul as [|[u c1] ul IH]; simpl.
  - split; [done|]. intros (u & c1 & Hin & _). by apply elem_of_nil in Hin.
  - assert (Hskip : ¬ (u ≠ z ∧ is_Some (has_ternary f ts (neg z) (neg u) (neg x))) →
      ((try_orand_loop f ts x y z cp ul st).1 = true ↔
       ∃ u' c1', (u', c1') ∈ (u, c1) :: ul ∧ u' ≠ z ∧
         is_Some (has_ternary f ts (neg z) (neg u') (neg x)))).
    { intros Hno. rewrite IH. split.
      - intros (u' & c1' & Hin & Hs). exists u', c1'. split; [by right|done].
      - intros (u' & c1' & [Heq|Hin]%elem_of_cons & Hs); [|by eauto].
        injection Heq as -> ->. done. }
    case_bool_decide as Hz; [apply Hskip; by intros [? _]|].
    destruct (has_ternary f ts (neg z) (neg u) (neg x)) as [c2|] eqn:H2;
      [|apply Hskip; by intros (_ & [? ?])].
    simpl. split; [|done]. intros _. exists u, c1.
    rewrite H2. split_and!; first [by left | by eexists | done].
Qed.

Lemma try_orand_iff f bs ts x y z cp st :
  (try_orand f bs ts x y z cp st).1 = true ↔ orand_at f bs ts x y z.
Proof.
  unfold try_orand, orand_at.
  destruct (implies f x (neg y)) eqn:H1; simpl.
  2: { split; [done|]. by intros [? _]. }
  destruct (bs !! binary_key (mk_binary x y None)) as [b|] eqn:Hb.
  2: { split; [done|]. by intros (_ & b & u & c2 & ? & _). }
  rewrite try_orand_loop_iff. split.
  - intros (u & c2 & Hin & Hs). split; [done|]. by exists b, u, c2.
  - intros (_ & b' & u & c2 & Hb' & Hin & Hs). simplify_eq. eauto.
Qed.

Lemma try_gamble_iff f qs ts cp w x y z st :
  (try_gamble f qs ts cp (w, x, y, z) st).1 = true ↔ gamble_at f qs ts w x y z.
Proof.
  unfold try_gamble, gamble_at.
  destruct (has_quaternary f qs ts (neg x) (neg y) (neg z) w) as [c1|];
    [|split; [done|]; by intros ([? ?] & _)].
  destruct (has_ternary f ts (neg x) y (neg w)) as [c2|];
    [|split; [done|]; by intros (_ & [? ?] & _)].
  destruct (has_ternary f ts (neg y) z (neg w)) as [c3|];
    [|split; [done|]; by intros (_ & _ & [? ?] & _)].
  destruct (has_ternary f ts x (neg z) (neg w)) as [c4|];
    [|split; [done|]; by intros (_ & _ & _ & [? ?])].
  simpl. split; [|done]. intros _. split_and!; by eexists.
Qed.

Lemma try_andxor_iff f qs ts cp w x y z st :
  (try_andxor f qs ts cp (w, x, y, z) st).1 = true ↔ andxor_at f qs ts w x y z.
Proof.
  unfold try_andxor, andxor_at.
  destruct (has_quaternary f qs ts (neg x) y z (neg w)) as [c1|];
    [|split; [done|]; by intros ([? ?] & _)].
  destruct (has_ternary f ts (neg x) (neg y) w) as [c2|];
    [|split; [done|]; by intros (_ & [? ?] & _)].
  destruct (has_ternary f ts (neg x) (neg z) w) as [c3|];
    [|split; [done|]; by intros (_ & _ & [? ?] & _)].
  destruct (has_ternary f ts x (neg y) (neg w)) as [c4|];
    [|split; [done|]; by intros (_ & _ & _ & [? ?] & _)].
  destruct (has_ternary f ts x (neg z) (neg w)) as [c5|];
    [|split; [done|]; by intros (_ & _ & _ & _ & [? ?])].
  simpl. split; [|done]. intros _. split_and!; by eexists.
Qed.

(** *** What is left in the vector *)

Lemma first_of_fails (Q : gate literal → Prop) cp
    (tries : list (store literal → bool * store literal)) st :
  is_Some (objs st !! cp) →
  Forall (λ t, attempt Q cp st (t st)) tries →
  not_used (first_of tries st) cp = true →
  Forall (λ t, (t st).1 = false) tries.
Proof.
  intros Hv. induction 1 as [|t tries Ht _ IH]; simpl; [done|].
  unfold attempt in Ht. destruct (t st) as [ok st1] eqn:Ht0; simpl in *. destruct ok.
  - destruct Ht as (g & _ & _ & _ & Hu). rewrite (Hu Hv). done.
  - subst. intros Hn. constructor; [by rewrite Ht0|by apply IH].
Qed.

Lemma scan_grows (step : store literal → nat → store literal) st0 cs st :
  (∀ st cp, grows st0 st → grows st (step st cp)) →
  grows st0 st → grows st (foldl step st cs).
Proof.
  intros Hstep. revert st. induction cs as [|cp cs IH]; intros st Hg; simpl.
  - apply grows_refl.
  - eapply grows_trans; [by apply Hstep|]. apply IH.
    eapply grows_trans; [exact Hg|by apply Hstep].
Qed.

(** A clause that the loop leaves unused was unused after its own turn. *)
Lemma scan_exhaustive (P : nat → Prop) (step : store literal → nat → store literal)
    cs0 st0 cs st :
  (∀ st cp, grows st0 st → grows st (step st cp)) →
  (∀ st cp, cp ∈ cs0 → grows st0 st → not_used (step st cp) cp = true → P cp) →
  cs ⊆ cs0 → grows st0 st →
  ∀ cp, cp ∈ cs → not_used (foldl step st cs) cp = true → P cp.
Proof.
  intros Hg Hturn. revert st. induction cs as [|q cs IH]; intros st Hsub Hst cp Hin Hn.
  { by apply elem_of_nil in Hin. }
  simpl in Hn.
  assert (Hst1 : grows st0 (step st q)).
  { eapply grows_trans; [exact Hst|by apply Hg]. }
  apply elem_of_cons in Hin as [->|Hin].
  - apply (Hturn st q); [apply Hsub; by left|done|].
    destruct (scan_grows step st0 cs (step st q) Hg Hst1) as [_ Hkeep].
    destruct (not_used (step st q) q) eqn:Hq; [done|].
    by rewrite (Hkeep q Hq) in Hn.
  - apply (IH (step st q)); try done. intros r Hr. apply Hsub. by right.
Qed.

Lemma attempt_grows (Q : gate literal → Prop) cp
    (tries : list (store literal → bool * store literal)) st :
  is_Some (objs st !! cp) →
  Forall (λ t, attempt Q cp st (t st)) tries →
  grows st (first_of tries st).
Proof.
  intros Hv Hall. destruct (first_of_attempt Q cp tries st Hv Hall) as [->|(g & _ & _ & ? & _)];
    [apply grows_refl|done].
Qed.

Lemma find_npn3_exhaustive f (A : binary_hash_table_t literal →
      ternary_hash_table_t literal → literal → literal → literal → Prop)
    (checker : checker_t) cs st bs ts st_u cp x y z a b c :
  (∀ bs ts x y z cp st, attempt (λ _, True) cp st (checker bs ts x y z cp st)) →
  (∀ bs ts x y z cp st, (checker bs ts x y z cp st).1 = true ↔ A bs ts x y z) →
  process_clauses f cs st = (bs, ts, st_u) →
  cp ∈ (find_npn3 f true checker cs st).1 → lits_at st cp = Some [x; y; z] →
  [a; b; c] ≡ₚ [x; y; z] →
  ¬ A bs ts a b c.
Proof.
  intros Hatt Hiff Hpc Hin Hat Hperm. unfold find_npn3 in Hin. cbn [negb] in Hin.
  rewrite Hpc in Hin. cbv beta iota zeta in Hin. cbn [fst] in Hin.
  apply list_elem_of_filter in Hin as [Hn Hcp].
  destruct (process_clauses_ok f cs st bs ts st_u Hpc) as (_ & _ & Hl & _).
  revert Hn. revert cp Hcp x y z a b c Hat Hperm.
  match goal with
  | |- ∀ cp, cp ∈ cs → ∀ x y z a b c, _ → _ → not_used (foldl ?step st_u cs) cp = true → _ =>
    intros cp Hcp x y z a b c Hat Hperm Hn;
    pose proof (scan_exhaustive
      (λ cp, ∀ x y z a b c, lits_at st cp = Some [x; y; z] → [a; b; c] ≡ₚ [x; y; z] →
             ¬ A bs ts a b c) step cs st_u cs st_u) as Hscan
  end.
  refine (Hscan _ _ _ _ cp Hcp Hn x y z a b c Hat Hperm); [| |done|apply grows_refl].
  - clear -Hatt. intros st_i q _.
    destruct (objs st_i !! q) as [cl|] eqn:Hobj; [|apply grows_refl].
    destruct (c_lits cl) as [|x [|y [|z [|? ?]]]]; try apply grows_refl.
    destruct (c_used cl); [apply grows_refl|].
    eapply (attempt_grows (λ _, True) q); [by eexists|].
    repeat (constructor; [apply Hatt|]). constructor.
  - clear Hscan Hn Hat Hperm Hcp cp x y z a b c.
    intros st_i q Hq [Hli _] Hn x y z a b c Hat Hperm.
    rewrite <- Hl, <- Hli in Hat. unfold lits_at in Hat.
    destruct (objs st_i !! q) as [cl|] eqn:Hobj; [|done]. injection Hat as Hlits.
    rewrite Hlits in Hn.
    destruct (c_used cl) eqn:Hused.
    { unfold not_used in Hn. by rewrite Hobj, Hused in Hn. }
    apply (first_of_fails (λ _, True)) in Hn;
      [|by eexists|repeat (constructor; [apply Hatt|]); constructor].
    assert (Hno : ∀ a b c, (checker bs ts a b c q st_i).1 = false → ¬ A bs ts a b c).
    { intros a' b' c' Hf HA. apply (Hiff bs ts a' b' c' q st_i) in HA. by rewrite Hf in HA. }
    inversion Hn as [|? ? H1 Hn1]; subst. inversion Hn1 as [|? ? H2 Hn2]; subst.
    inversion Hn2 as [|? ? H3 Hn3]; subst. inversion Hn3 as [|? ? H4 Hn4]; subst.
    inversion Hn4 as [|? ? H5 Hn5]; subst. inversion Hn5 as [|? ? H6 _]; subst.
    destruct (perm3_cases _ _ _ _ _ _ Hperm) as [Heq|[Heq|[Heq|[Heq|[Heq|Heq]]]]];
      injection Heq as -> -> ->; by apply Hno.
Qed.

Lemma perm4_orders (a b c d w x y z : literal) :
  [a; b; c; d] ≡ₚ [w; x; y; z] → (a, b, c, d) ∈ orders w x y z.
Proof.
  intros (k1 & k2 & Hk & Hp)%Permutation_cons_inv_l.
  destruct k1 as [|? [|? [|? [|? k1]]]]; simplify_eq/=; [..|by destruct k1];
    (destruct (perm3_cases _ _ _ _ _ _ Hp) as [Heq|[Heq|[Heq|[Heq|[Heq|Heq]]]]];
     injection Heq as -> -> ->; unfold orders; repeat constructor).
Qed.

Lemma orders_exhaustive f (A : quaternary_hash_table_t literal →
      ternary_hash_table_t literal → literal → literal → literal → literal → Prop)
    (try4 : quaternary_hash_table_t literal → ternary_hash_table_t literal → nat →
            literal * literal * literal * literal → store literal → bool * store literal)
    cs st bs ts qs st_u cp w x y z a b c d :
  (∀ qs ts cp w x y z st, attempt (λ _, True) cp st (try4 qs ts cp (w, x, y, z) st)) →
  (∀ qs ts cp w x y z st, (try4 qs ts cp (w, x, y, z) st).1 = true ↔ A qs ts w x y z) →
  process_more_clauses f cs st = (bs, ts, qs, st_u) →
  cp ∈ filter (λ cp, not_used
         (foldl (λ st cp,
            match objs st !! cp with
            | Some c =>
              match c_lits c with
              | [w; x; y; z] =>
                if c_used c then st
                else first_of (try4 qs ts cp <$> orders w x y z) st
              | _ => st
              end
            | None => st
            end) st_u cs) cp = true) cs →
  lits_at st cp = Some [w; x; y; z] → [a; b; c; d] ≡ₚ [w; x; y; z] →
  ¬ A qs ts a b c d.
Proof.
  intros Hatt Hiff Hpc Hin Hat Hperm.
  apply list_elem_of_filter in Hin as [Hn Hcp].
  destruct (process_more_clauses_ok f cs st bs ts qs st_u Hpc) as (_ & _ & _ & Hl & _).
  assert (Htries : ∀ q w x y z st_i,
            Forall (λ t, attempt (λ _, True) q st_i (t st_i))
                   (try4 qs ts q <$> orders w x y z)).
  { intros. apply Forall_fmap, Forall_forall. intros [[[? ?] ?] ?] _. apply Hatt. }
  revert Hn. revert cp Hcp w x y z a b c d Hat Hperm.
  match goal with
  | |- ∀ cp, cp ∈ cs → ∀ w x y z a b c d, _ → _ →
         not_used (foldl ?step st_u cs) cp = true → _ =>
    intros cp Hcp w x y z a b c d Hat Hperm Hn;
    pose proof (scan_exhaustive
      (λ cp, ∀ w x y z a b c d, lits_at st cp = Some [w; x; y; z] →
             [a; b; c; d] ≡ₚ [w; x; y; z] → ¬ A qs ts a b c d) step cs st_u cs st_u)
      as Hscan
  end.
  refine (Hscan _ _ _ _ cp Hcp Hn w x y z a b c d Hat Hperm); [| |done|apply grows_refl].
  - clear -Htries. intros st_i q _.
    destruct (objs st_i !! q) as [cl|] eqn:Hobj; [|apply grows_refl].
    destruct (c_lits cl) as [|w [|x [|y [|z [|? ?]]]]]; try apply grows_refl.
    destruct (c_used cl); [apply grows_refl|].
    eapply (attempt_grows (λ _, True) q); [by eexists|]. apply Htries.
  - clear Hscan Hn Hat Hperm Hcp cp w x y z a b c d.
    intros st_i q Hq [Hli _] Hn w x y z a b c d Hat Hperm.
    rewrite <- Hl, <- Hli in Hat. unfold lits_at in Hat.
    destruct (objs st_i !! q) as [cl|] eqn:Hobj; [|done]. injection Hat as Hlits.
    rewrite Hlits in Hn.
    destruct (c_used cl) eqn:Hused.
    { unfold not_used in Hn. by rewrite Hobj, Hused in Hn. }
    apply (first_of_fails (λ _, True)) in Hn; [|by eexists|apply Htries].
    apply Forall_fmap in Hn. rewrite Forall_forall in Hn.
    pose proof (Hn (a, b, c, d) (perm4_orders _ _ _ _ _ _ _ _ Hperm)) as Hf. simpl in Hf.
    intros HA. apply (Hiff qs ts q a b c d st_i) in HA. by rewrite Hf in HA.
Qed.

Lemma attempt_any (Q : gate literal → Prop) cp st r :
  attempt Q cp st r → attempt (λ _, True) cp st r.
Proof. apply attempt_mono. done. Qed.

(** X26: a clause of three literals that [find_mux] leaves in the vector
    passes the test of [try_ite] in no order of its literals. *)
Theorem find_mux_exhaustive f cs st bs ts st_u cp x y z a b c :
  m_on_mux f = true → process_clauses f cs st = (bs, ts, st_u) →
  cp ∈ (find_mux f cs st).1 → lits_at st cp = Some [x; y; z] →
  [a; b; c] ≡ₚ [x; y; z] →
  ¬ mux_at f bs ts a b c.
Proof.
  intros Hon Hpc Hin. unfold find_mux in Hin. rewrite Hon in Hin.
  apply (find_npn3_exhaustive f (mux_at f) (try_ite f) cs st bs ts st_u cp); try done.
  - intros. eapply attempt_any, (try_ite_attempt f (λ _, true) []).
  - intros. apply try_ite_iff.
Qed.

(** X27: a clause of three literals that [find_maj] leaves in the vector
    passes the test of [try_maj] in no order of its literals. *)
Theorem find_maj_exhaustive f cs st bs ts st_u cp x y z a b c :
  m_on_maj f = true → process_clauses f cs st = (bs, ts, st_u) →
  cp ∈ (find_maj f cs st).1 → lits_at st cp = Some [x; y; z] →
  [a; b; c] ≡ₚ [x; y; z] →
  ¬ maj_at f bs ts a b c.
Proof.
  intros Hon Hpc Hin. unfold find_maj in Hin. rewrite Hon in Hin.
  apply (find_npn3_exhaustive f (maj_at f) (try_maj f) cs st bs ts st_u cp); try done.
  - intros. eapply attempt_any, (try_maj_attempt f (λ _, true) []).
  - intros. apply try_maj_iff.
Qed.

(** X28: a clause of three literals that [find_orand] leaves in the vector
    passes the test of [try_orand] in no order of its literals. *)
Theorem find_orand_exhaustive f cs st bs ts st_u cp x y z a b c :
  m_on_orand f = true → process_clauses f cs st = (bs, ts, st_u) →
  cp ∈ (find_orand f cs st).1 → lits_at st cp = Some [x; y; z] →
  [a; b; c] ≡ₚ [x; y; z] →
  ¬ orand_at f bs ts a b c.
Proof.
  intros Hon Hpc Hin. unfold find_orand in Hin. rewrite Hon in Hin.
  apply (find_npn3_exhaustive f (orand_at f) (try_orand f) cs st bs ts st_u cp); try done.
  - intros. eapply attempt_any, (try_orand_attempt f (λ _, true) []).
  - intros. apply try_orand_iff.
Qed.

(** X29: a clause of four literals that [find_gamble] leaves in the vector
    passes the test of [try_gamble] in no order of its literals. *)
Theorem find_gamble_exhaustive f cs st bs ts qs st_u cp w x y z a b c d :
  m_on_gamble f = true → process_more_clauses f cs st = (bs, ts, qs, st_u) →
  cp ∈ (find_gamble f cs st).1 → lits_at st cp = Some [w; x; y; z] →
  [a; b; c; d] ≡ₚ [w; x; y; z] →
  ¬ gamble_at f qs ts a b c d.
Proof.
  intros Hon Hpc Hin. unfold find_gamble in Hin. rewrite Hon, Hpc in Hin.
  cbn [negb] in Hin. cbv beta iota zeta in Hin. cbn [fst] in Hin.
  apply (orders_exhaustive f (gamble_at f) (try_gamble f) cs st bs ts qs st_u cp w x y z);
    try done.
  - intros. eapply attempt_any, (try_gamble_attempt f (λ _, true) []).
  - intros. apply try_gamble_iff.
Qed.

(** X30: a clause of four literals that [find_andxor] leaves in the vector
    passes the test of [try_andxor] in no order of its literals. *)
Theorem find_andxor_exhaustive f cs st bs ts qs st_u cp w x y z a b c d :
  m_on_andxor f = true → process_more_clauses f cs st = (bs, ts, qs, st_u) →
  cp ∈ (find_andxor f cs st).1 → lits_at st cp = Some [w; x; y; z] →
  [a; b; c; d] ≡ₚ [w; x; y; z] →
  ¬ andxor_at f qs ts a b c d.
Proof.
  intros Hon Hpc Hin. unfold find_andxor in Hin. rewrite Hon, Hpc in Hin.
  cbn [negb] in Hin. cbv beta iota zeta in Hin. cbn [fst] in Hin.
  apply (orders_exhaustive f (andxor_at f) (try_andxor f) cs st bs ts qs st_u cp w x y z);
    try done.
  - intros. eapply attempt_any, (try_andxor_attempt f (λ _, true) []).
  - intros. apply try_andxor_iff.
Qed.

End Exhaustive.

(** * The finder on concrete clauses *)

Section NpnExamples.
Import Npn3 NpnDemo.

Lemma all_false_neg (l : N) : all_false (neg l) = negb (all_false l).
Proof. destruct l as [|[p|p|]]; reflexivity. Qed.

Lemma no_watches_model n (cls : list (list N)) ps :
  forallb (λ c, existsb all_false (c_lits c)) (objs (store_of cls)) = true →
  model_of (finder_of n no_watches) all_false ps (store_of cls).
Proof.
  intros Hall. apply model_by_evaluation; [apply all_false_neg| |done].
  intros a b Hi. by vm_compute in Hi.
Qed.

Lemma orand_watches_model n (cls : list (list N)) ps :
  forallb (λ c, existsb all_false (c_lits c)) (objs (store_of cls)) = true →
  model_of (finder_of n orand_watches) all_false ps (store_of cls).
Proof.
  intros Hall. apply model_by_evaluation; [apply all_false_neg| |done].
  intros a b. unfold implies, finder_of, orand_watches; simpl.
  destruct (a =? 0)%N eqn:Ha; [|done]. apply N.eqb_eq in Ha as ->. done.
Qed.

(** X11, witness: [¬x], [x] and the next variable, in two orders. *)
Lemma ternary_is_canonical_witness :
  ternary_eq (mk_ternary 4%N 0%N 2%N None) (mk_ternary 2%N 4%N 0%N (Some 1%nat)) = true.
Proof. apply ternary_is_canonical. perm. Defined.

(** X13, witness: four literals in two orders. *)
Lemma quaternary_is_canonical_witness :
  quaternary_eq (mk_quaternary 6%N 1%N 4%N 2%N None)
                (mk_quaternary 2%N 4%N 6%N 1%N (Some 0%nat)) = true.
Proof. apply quaternary_is_canonical. perm. Defined.

(** X14, witness: the clause [y ∨ ¬z ∨ ¬x] of the multiplexer, stored as
    [2; 5; 0] at position 1, is found under [0; 2; 5]. *)
Lemma has_ternary_finds_witness :
  ∃ q ls, has_ternary (finder_of 4 no_watches) mux_tables.1.2 0%N 2%N 5%N = Some (Some q) ∧
          q ∈ learned (s (finder_of 4 no_watches)) ++ clauses (s (finder_of 4 no_watches)) ∧
          lits_at (store_of mux_clauses) q = Some ls ∧ ls ≡ₚ [0; 2; 5]%N.
Proof.
  apply (has_ternary_finds (finder_of 4 no_watches) (seq 0 4) (store_of mux_clauses)
           mux_tables.1.1 mux_tables.1.2 mux_tables.2 1%nat 2%N 5%N 0%N).
  - unfold mux_tables. by destruct (process_clauses _ _ _) as [[? ?] ?].
  - right. by left.
  - by vm_compute.
  - perm.
Defined.

(** X15, witness: the use list of the pair of [¬y] = 3 and [x] = 1 holds
    [u] = 6 with the clause at position 2. *)
Lemma use_lists_are_exact_witness :
  in_use_list mux_tables.1.1 3%N 1%N 6%N 2%nat.
Proof.
  apply (use_lists_are_exact (finder_of 4 no_watches) (seq 0 4) (store_of mux_clauses)
           mux_tables.1.1 mux_tables.1.2 mux_tables.2 2%nat 3%N 1%N 6%N 3%N 1%N 6%N).
  - unfold mux_tables. by destruct (process_clauses _ _ _) as [[? ?] ?].
  - right. right. by left.
  - by vm_compute.
  - done.
Defined.

(** X16, witness: the look-up of the clause [¬u ∨ ¬x ∨ ¬y] of the
    multiplexer. *)
Lemma has_ternary_entails_witness :
  all_false 7%N || all_false 0%N || all_false 3%N = true.
Proof.
  apply (has_ternary_entails (finder_of 4 no_watches) all_false (seq 0 4)
           (store_of mux_clauses) mux_tables.1.1 mux_tables.1.2 mux_tables.2
           7%N 0%N 3%N (Some 3%nat)).
  - unfold mux_tables. by destruct (process_clauses _ _ _) as [[? ?] ?].
  - by apply no_watches_model.
  - by vm_compute.
Defined.

(** X17, witness: the look-up of the clause [¬x ∨ ¬y ∨ ¬z ∨ w] of the
    gamble. *)
Lemma has_quaternary_entails_witness :
  all_false 3%N || all_false 5%N || all_false 7%N || all_false 1%N = true.
Proof.
  apply (has_quaternary_entails (finder_of 5 no_watches) all_false (seq 0 5)
           (store_of gamble_clauses) gamble_tables.1.1.1 gamble_tables.1.1.2
           gamble_tables.1.2 gamble_tables.2 3%N 5%N 7%N 1%N (Some 1%nat)).
  - unfold gamble_tables. by destruct (process_more_clauses _ _ _) as [[[? ?] ?] ?].
  - by apply no_watches_model.
  - by vm_compute.
Defined.

(** X18, witness: the four clauses of a multiplexer. *)
Lemma find_mux_sound_witness :
  calls (find_mux (finder_of 4 no_watches) (seq 0 4) (store_of mux_clauses)).2
    = [on_mux 0 3 4 6]%N ∧
  Forall (λ g, is_mux g = true ∧ gate_true all_false g) [on_mux 0 3 4 6]%N.
Proof.
  destruct (find_mux_sound (finder_of 4 no_watches) all_false (seq 0 4)
              (store_of mux_clauses)) as (new & Hc & Hall); [by apply no_watches_model|].
  assert (new = [on_mux 0 3 4 6]%N) as -> by (vm_compute in Hc; congruence).
  split; [by vm_compute|exact Hall].
Defined.

(** X19, witness: the six clauses of a majority. *)
Lemma find_maj_sound_witness :
  calls (find_maj (finder_of 6 no_watches) (seq 0 6) (store_of maj_clauses)).2
    = [on_maj 0 4 2 6]%N ∧
  Forall (λ g, is_maj g = true ∧ gate_true all_false g) [on_maj 0 4 2 6]%N.
Proof.
  destruct (find_maj_sound (finder_of 6 no_watches) all_false (seq 0 6)
              (store_of maj_clauses)) as (new & Hc & Hall); [by apply no_watches_model|].
  assert (new = [on_maj 0 4 2 6]%N) as -> by (vm_compute in Hc; congruence).
  split; [by vm_compute|exact Hall].
Defined.

(** X20, witness: the three clauses and the binary clause of an or-and. *)
Lemma find_orand_sound_witness :
  calls (find_orand (finder_of 3 orand_watches) (seq 0 3) (store_of orand_clauses)).2
    = [on_orand 0 2 5 7]%N ∧
  Forall (λ g, is_orand g = true ∧ gate_true all_false g) [on_orand 0 2 5 7]%N.
Proof.
  destruct (find_orand_sound (finder_of 3 orand_watches) all_false (seq 0 3)
              (store_of orand_clauses)) as (new & Hc & Hall);
    [by apply orand_watches_model|].
  assert (new = [on_orand 0 2 5 7]%N) as -> by (vm_compute in Hc; congruence).
  split; [by vm_compute|exact Hall].
Defined.

(** X21, witness: the five clauses of a gamble. *)
Lemma find_gamble_sound_witness :
  calls (find_gamble (finder_of 5 no_watches) (seq 0 5) (store_of gamble_clauses)).2
    = [on_gamble 1 2 4 6]%N ∧
  Forall (λ g, is_gamble g = true ∧ gate_true all_false g) [on_gamble 1 2 4 6]%N.
Proof.
  destruct (find_gamble_sound (finder_of 5 no_watches) all_false (seq 0 5)
              (store_of gamble_clauses)) as (new & Hc & Hall); [by apply no_watches_model|].
  assert (new = [on_gamble 1 2 4 6]%N) as -> by (vm_compute in Hc; congruence).
  split; [by vm_compute|exact Hall].
Defined.

(** X22, witness: the six clauses of an and-xor. *)
Lemma find_andxor_sound_witness :
  calls (find_andxor (finder_of 6 no_watches) (seq 0 6) (store_of andxor_clauses)).2
    = [on_andxor 0 2 5 7]%N ∧
  Forall (λ g, is_andxor g = true ∧ gate_true all_false g) [on_andxor 0 2 5 7]%N.
Proof.
  destruct (find_andxor_sound (finder_of 6 no_watches) all_false (seq 0 6)
              (store_of andxor_clauses)) as (new & Hc & Hall); [by apply no_watches_model|].
  assert (new = [on_andxor 0 2 5 7]%N) as -> by (vm_compute in Hc; congruence).
  split; [by vm_compute|exact Hall].
Defined.

(** X23, witness: on the clauses of a majority the finder reports the majority
    and nothing else. *)
Lemma find_all_sound_witness :
  calls (find_all (finder_of 6 no_watches) (seq 0 6) (store_of maj_clauses)).2
    = [on_maj 0 4 2 6]%N ∧
  Forall (gate_true all_false) [on_maj 0 4 2 6]%N.
Proof.
  destruct (find_all_sound (finder_of 6 no_watches) all_false (seq 0 6)
              (store_of maj_clauses)) as (new & Hc & Hall); [by apply no_watches_model|].
  assert (new = [on_maj 0 4 2 6]%N) as -> by (vm_compute in Hc; congruence).
  split; [by vm_compute|exact Hall].
Defined.

(** X26, witness: the spare clause stays, and it is the start of no
    multiplexer. *)
Lemma find_mux_exhaustive_witness :
  (find_mux (finder_of 5 no_watches) (seq 0 5) (store_of (with_spare3 mux_clauses))).1
    = [4%nat] ∧
  ¬ mux_at (finder_of 5 no_watches)
      (tables_of 5 no_watches (with_spare3 mux_clauses)).1.1
      (tables_of 5 no_watches (with_spare3 mux_clauses)).1.2 12%N 8%N 10%N.
Proof.
  split; [by vm_compute|].
  apply (find_mux_exhaustive (finder_of 5 no_watches) (seq 0 5)
           (store_of (with_spare3 mux_clauses))
           (tables_of 5 no_watches (with_spare3 mux_clauses)).1.1
           (tables_of 5 no_watches (with_spare3 mux_clauses)).1.2
           (tables_of 5 no_watches (with_spare3 mux_clauses)).2
           4%nat 8%N 10%N 12%N).
  - reflexivity.
  - unfold tables_of. by destruct (process_clauses _ _ _) as [[? ?] ?].
  - apply (bool_decide_unpack _). by vm_compute.
  - by vm_compute.
  - perm.
Defined.

(** X27, witness: the spare clause stays, and it is the start of no
    majority. *)
Lemma find_maj_exhaustive_witness :
  (find_maj (finder_of 7 no_watches) (seq 0 7) (store_of (with_spare3 maj_clauses))).1
    = [6%nat] ∧
  ¬ maj_at (finder_of 7 no_watches)
      (tables_of 7 no_watches (with_spare3 maj_clauses)).1.1
      (tables_of 7 no_watches (with_spare3 maj_clauses)).1.2 12%N 8%N 10%N.
Proof.
  split; [by vm_compute|].
  apply (find_maj_exhaustive (finder_of 7 no_watches) (seq 0 7)
           (store_of (with_spare3 maj_clauses))
           (tables_of 7 no_watches (with_spare3 maj_clauses)).1.1
           (tables_of 7 no_watches (with_spare3 maj_clauses)).1.2
           (tables_of 7 no_watches (with_spare3 maj_clauses)).2
           6%nat 8%N 10%N 12%N).
  - reflexivity.
  - unfold tables_of. by destruct (process_clauses _ _ _) as [[? ?] ?].
  - apply (bool_decide_unpack _). by vm_compute.
  - by vm_compute.
  - perm.
Defined.

(** X28, witness: the spare clause stays, and it is the start of no
    or-and. *)
Lemma find_orand_exhaustive_witness :
  (find_orand (finder_of 4 orand_watches) (seq 0 4)
     (store_of (with_spare3 orand_clauses))).1 = [3%nat] ∧
  ¬ orand_at (finder_of 4 orand_watches)
      (tables_of 4 orand_watches (with_spare3 orand_clauses)).1.1
      (tables_of 4 orand_watches (with_spare3 orand_clauses)).1.2 12%N 8%N 10%N.
Proof.
  split; [by vm_compute|].
  apply (find_orand_exhaustive (finder_of 4 orand_watches) (seq 0 4)
           (store_of (with_spare3 orand_clauses))
           (tables_of 4 orand_watches (with_spare3 orand_clauses)).1.1
           (tables_of 4 orand_watches (with_spare3 orand_clauses)).1.2
           (tables_of 4 orand_watches (with_spare3 orand_clauses)).2
           3%nat 8%N 10%N 12%N).
  - reflexivity.
  - unfold tables_of. by destruct (process_clauses _ _ _) as [[? ?] ?].
  - apply (bool_decide_unpack _). by vm_compute.
  - by vm_compute.
  - perm.
Defined.

(** X29, witness: the spare clause stays, and it is the start of no
    gamble. *)
Lemma find_gamble_exhaustive_witness :
  (find_gamble (finder_of 6 no_watches) (seq 0 6)
     (store_of (with_spare4 gamble_clauses))).1 = [5%nat] ∧
  ¬ gamble_at (finder_of 6 no_watches)
      (more_tables_of 6 no_watches (with_spare4 gamble_clauses)).1.2
      (more_tables_of 6 no_watches (with_spare4 gamble_clauses)).1.1.2
      14%N 8%N 12%N 10%N.
Proof.
  split; [by vm_compute|].
  apply (find_gamble_exhaustive (finder_of 6 no_watches) (seq 0 6)
           (store_of (with_spare4 gamble_clauses))
           (more_tables_of 6 no_watches (with_spare4 gamble_clauses)).1.1.1
           (more_tables_of 6 no_watches (with_spare4 gamble_clauses)).1.1.2
           (more_tables_of 6 no_watches (with_spare4 gamble_clauses)).1.2
           (more_tables_of 6 no_watches (with_spare4 gamble_clauses)).2
           5%nat 8%N 10%N 12%N 14%N).
  - reflexivity.
  - unfold more_tables_of. by destruct (process_more_clauses _ _ _) as [[[? ?] ?] ?].
  - apply (bool_decide_unpack _). by vm_compute.
  - by vm_compute.
  - perm.
Defined.

(** X30, witness: the spare clause stays, and it is the start of no
    and-xor. *)
Lemma find_andxor_exhaustive_witness :
  (find_andxor (finder_of 7 no_watches) (seq 0 7)
     (store_of (with_spare4 andxor_clauses))).1 = [6%nat] ∧
  ¬ andxor_at (finder_of 7 no_watches)
      (more_tables_of 7 no_watches (with_spare4 andxor_clauses)).1.2
      (more_tables_of 7 no_watches (with_spare4 andxor_clauses)).1.1.2
      14%N 8%N 12%N 10%N.
Proof.
  split; [by vm_compute|].
  apply (find_andxor_exhaustive (finder_of 7 no_watches) (seq 0 7)
           (store_of (with_spare4 andxor_clauses))
           (more_tables_of 7 no_watches (with_spare4 andxor_clauses)).1.1.1
           (more_tables_of 7 no_watches (with_spare4 andxor_clauses)).1.1.2
           (more_tables_of 7 no_watches (with_spare4 andxor_clauses)).1.2
           (more_tables_of 7 no_watches (with_spare4 andxor_clauses)).2
           6%nat 8%N 10%N 12%N 14%N).
  - reflexivity.
  - unfold more_tables_of. by destruct (process_more_clauses _ _ _) as [[[? ?] ?] ?].
  - apply (bool_decide_unpack _). by vm_compute.
  - by vm_compute.
  - perm.
Defined.

End NpnExamples.
